(** * Consensus coordinates for prophage calls

    A shallow embedding of [scripts/utils/02_consensus_coordinates.py]:
    the interval clusterer [cluster_by_contig], the majority grouping
    [best_group], the consensus resolver [consensus_edgewise] and the
    identifier mapper [create_mapping].

    Modelling conventions.
    - A pandas DataFrame is the list of its rows, in row order; a row is a
      record with one field per column.
    - Integers are [Z].  The clusterer converts every coordinate with
      [int(...)], so its arithmetic is Python's unbounded one; the resolver
      works on numpy [int64] arrays and goes through [np.median], a
      [float64].  On coordinates of magnitude at most [2^52] no [int64]
      difference wraps and every [float64] mean of two values is exact, so
      there the arithmetic of [Z] is the arithmetic of the code; outside
      this range the definitions below are not the code, and every theorem
      about the resolver assumes [in_range] of the coordinates.
    - Strings are sequences of bytes.  On identifiers made of ASCII
      characters the pattern of [parse_prophage_id] is read as written
      below; Python's [\d] and [int] also accept the other decimal digits
      of Unicode, so every theorem about the parser and the loaders
      assumes [ascii_only] of the identifiers.
    - [inter/len_a] is Python's true division; it is modelled by the exact
      quotient in [Q].
    - [sort_values] on several columns is a stable sort.
    - A Python exception is a value of [exn]; code that may raise lives in
      the [res] monad. *)

From Stdlib Require Import QArith Qminmax Ascii.
From stdpp Require Import gmap strings list sorting pretty relations.

Open Scope Z_scope.

(** ** Exceptions and the result monad *)

Inductive exn := KeyError | IndexError | ValueError.

Inductive res (A : Type) :=
  | Ok (a : A)
  | Raise (e : exn)
  | OutOfFuel.
Arguments Ok {A} a.
Arguments Raise {A} e.
Arguments OutOfFuel {A}.

Global Instance res_ret : MRet res := λ A a, Ok a.
Global Instance res_bind : MBind res := λ A B k m,
  match m with
  | Ok a => k a
  | Raise e => Raise e
  | OutOfFuel => OutOfFuel
  end.

Fixpoint traverse {A B} (f : A → res B) (l : list A) : res (list B) :=
  match l with
  | [] => Ok []
  | x :: l' => y ← f x; ys ← traverse f l'; Ok (y :: ys)
  end.

(** ** Data model *)

(** A row of the [calls] table. *)
Record call := Call {
  tool : string;
  contig : string;
  start : Z;
  end_ : Z;
  id_raw : string
}.

(** A row of the [members] table: a call and its [cluster_idx] column. *)
Record member := Member {
  row : call;
  cluster_idx : nat
}.

Global Instance call_eq_dec : EqDecision call.
Proof. solve_decision. Defined.
Global Instance member_eq_dec : EqDecision member.
Proof. solve_decision. Defined.

(** ** Table primitives *)

(** [Series.unique()] and the group order of [groupby(..., sort=False)]:
    the distinct values in order of first appearance. *)
Fixpoint unique `{EqDecision K} (l : list K) : list K :=
  match l with
  | [] => []
  | x :: l' => x :: filter (λ y, y ≠ x) (unique l')
  end.

(** [df.groupby(key, sort=False)]: the groups in order of first appearance,
    each with its rows in table order. *)
Definition groupby `{EqDecision K} {A} (key : A → K) (rows : list A)
    : list (K * list A) :=
  (λ k, (k, filter (λ r, key r = k) rows)) <$> unique (key <$> rows).

(** Stable insertion sort: within equal keys the original order is kept. *)
Fixpoint insert_sorted {A} (leb : A → A → bool) (x : A) (l : list A) : list A :=
  match l with
  | [] => [x]
  | y :: l' => if leb x y then x :: l else y :: insert_sorted leb x l'
  end.

Definition sort_values {A} (leb : A → A → bool) (l : list A) : list A :=
  foldr (insert_sorted leb) [] l.

(** The key of [sort_values(["start","end"])]. *)
Definition start_end_leb (a b : call) : bool :=
  (start a <? start b) || ((start a =? start b) && (end_ a <=? end_ b)).

(** ** Clustering *)

Definition default_overlap_thresh : Q := 1 # 2.
Definition default_max_dist : Z := 1000.

(** The variables the loop of [cluster_by_contig] closes over.  [cur_start]
    and [cur_end] are [None] together, hence one optional pair; [cur_members]
    holds the rows themselves instead of their positions in the sorted
    frame [dfc]; [member_rows] is the part appended for this contig. *)
Record sweep := Sweep {
  cluster_id : nat;
  cur : option (Z * Z);
  cur_members : list call;
  member_rows : list (list member)
}.

Definition sweep_init : sweep := Sweep 0 None [] [].

Definition set_contig (c : string) (r : call) : call :=
  Call (tool r) c (start r) (end_ r) (id_raw r).

(** [flush()] *)
Definition flush (c : string) (st : sweep) : sweep :=
  match cur_members st with
  | [] => st
  | _ :: _ =>
      let sub := (λ r, Member (set_contig c r) (cluster_id st)) <$> cur_members st in
      Sweep (cluster_id st) (cur st) (cur_members st) (member_rows st ++ [sub])
  end.

Definition inter_of (s e cur_start cur_end : Z) : Z :=
  Z.max 0 (Z.min e cur_end - Z.max s cur_start).

Definition min_recip_of (s e cur_start cur_end : Z) : Q :=
  let inter := inter_of s e cur_start cur_end in
  let len_a := e - s in
  let len_b := cur_end - cur_start in
  if (len_a =? 0) || (len_b =? 0) then 0%Q
  else Qmin (inject_Z inter / inject_Z len_a) (inject_Z inter / inject_Z len_b).

Definition gap_of (s e cur_start cur_end : Z) : Z :=
  if 0 <? inter_of s e cur_start cur_end then 0
  else Z.max (Z.max (s - cur_end) (cur_start - e)) 0.

(** The test of the [if] that decides between joining and flushing. *)
Definition merges (overlap_thresh : Q) (max_dist : Z)
    (s e cur_start cur_end : Z) : bool :=
  Qle_bool overlap_thresh (min_recip_of s e cur_start cur_end)
  || (gap_of s e cur_start cur_end <=? max_dist).

(** One iteration of [for i, r in dfc.iterrows()]. *)
Definition sweep_step (overlap_thresh : Q) (max_dist : Z) (c : string)
    (st : sweep) (r : call) : sweep :=
  let s := start r in
  let e := end_ r in
  match cur st with
  | None => Sweep (S (cluster_id st)) (Some (s, e)) [r] (member_rows st)
  | Some (cur_start, cur_end) =>
      if merges overlap_thresh max_dist s e cur_start cur_end then
        Sweep (cluster_id st) (Some (Z.min cur_start s, Z.max cur_end e))
              (cur_members st ++ [r]) (member_rows st)
      else
        let st' := flush c st in
        Sweep (S (cluster_id st')) (Some (s, e)) [r] (member_rows st')
  end.

(** The body of the loop over contigs: the sub-frames one contig adds to
    [member_rows]. *)
Definition cluster_contig (overlap_thresh : Q) (max_dist : Z)
    (c : string) (dfc : list call) : list (list member) :=
  let dfc := sort_values start_end_leb dfc in
  member_rows
    (flush c (foldl (sweep_step overlap_thresh max_dist c) sweep_init dfc)).

Definition cluster_by_contig (calls : list call)
    (overlap_thresh : Q) (max_dist : Z) : list member :=
  let member_rows :=
    mjoin ((λ g, cluster_contig overlap_thresh max_dist g.1 g.2)
             <$> groupby contig calls) in
  mjoin member_rows.

(** ** Majority grouping *)

Definition default_tol : Z := 200.

(** [seq[i]] on a list or an array, for an index that is not negative. *)
Definition getitem {A} (l : list A) (i : nat) : res A :=
  match l !! i with
  | Some x => Ok x
  | None => Raise IndexError
  end.

(** [d[k]] on a dict. *)
Definition dict_get `{Countable K} {V} (d : gmap K V) (k : K) : res V :=
  match d !! k with
  | Some x => Ok x
  | None => Raise KeyError
  end.

(** [max(l)] and [min(l)]; both raise on an empty sequence. *)
Definition py_max (l : list Z) : res Z :=
  match l with
  | [] => Raise ValueError
  | x :: l' => Ok (foldl Z.max x l')
  end.

Definition py_min (l : list Z) : res Z :=
  match l with
  | [] => Raise ValueError
  | x :: l' => Ok (foldl Z.min x l')
  end.

(** [int(np.median(xs))]: the middle value of the sorted sequence, or the
    mean of the two middle values cut towards zero by [int].  On an empty
    sequence [np.median] is [nan] and [int] raises.  [np.median] is a
    [float64]: this is its value for values of magnitude at most [2^52]
    ([in_range] below), where the sum of two values and its half are exact;
    beyond that the code rounds. *)
Definition median_int (xs : list Z) : res Z :=
  let sorted := sort_values Z.leb xs in
  let n := length xs in
  match n with
  | O => Raise ValueError
  | _ =>
      if Nat.even n then
        a ← getitem sorted (n / 2 - 1)%nat;
        b ← getitem sorted (n / 2)%nat;
        Ok (Z.quot (a + b) 2)
      else getitem sorted (n / 2)%nat
  end.

(** [adj = {i: set() for i in range(n)}] *)
Definition adj_init (n : nat) : gmap nat (gset nat) :=
  list_to_map ((λ i, (i, ∅)) <$> seq 0 n).

(** [adj[i].add(j); adj[j].add(i)] *)
Definition add_edge (adj : gmap nat (gset nat)) (i j : nat)
    : gmap nat (gset nat) :=
  alter (λ s, {[i]} ∪ s) j (alter (λ s, {[j]} ∪ s) i adj).

(** [abs(values[i] - values[j]) <= tol].  The values are [int64]: for
    values that are [in_range] the difference does not wrap, and this is
    the test of the code. *)
Definition close (values : list Z) (tol : Z) (i j : nat) : bool :=
  Z.abs (values !!! i - values !!! j) <=? tol.

(** The two nested loops that fill [adj]; [i] and [j] range below
    [len(values)], so [values[i]] and [values[j]] are defined. *)
Definition build_adj (values : list Z) (tol : Z) : gmap nat (gset nat) :=
  let n := length values in
  foldl (λ adj i,
    foldl (λ adj j, if close values tol i j then add_edge adj i j else adj)
          adj (seq (S i) (n - S i)))
    (adj_init n) (seq 0 n).

(** [for v in adj[u]: if v not in seen: stack.append(v)].  The top of the
    Python stack (the end of the list) is the head here. *)
Definition push_unseen (seen : gset nat) (stack : list nat) (nbrs : gset nat)
    : list nat :=
  foldl (λ st v, if decide (v ∈ seen) then st else v :: st) stack (elements nbrs).

(** The [while stack:] loop, which returns the updated [seen] and [comp]. *)
Fixpoint component (fuel : nat) (adj : gmap nat (gset nat))
    (stack : list nat) (seen comp : gset nat) : res (gset nat * gset nat) :=
  match fuel with
  | O => OutOfFuel
  | S fuel =>
      match stack with
      | [] => Ok (seen, comp)
      | u :: stack =>
          if decide (u ∈ seen) then component fuel adj stack seen comp
          else
            let seen := {[u]} ∪ seen in
            let comp := {[u]} ∪ comp in
            nbrs ← dict_get adj u;
            component fuel adj (push_unseen seen stack nbrs) seen comp
      end
  end.

(** Enough iterations for the [while] loop on a graph of [n] nodes: a popped
    node is either skipped or marked, and marking pushes fewer than [n]. *)
Definition component_fuel (n : nat) : nat := (n * S n + 2)%nat.

(** The [for i in range(n)] loop that collects [groups]. *)
Fixpoint components (n : nat) (adj : gmap nat (gset nat)) (nodes : list nat)
    (seen : gset nat) (groups : list (gset nat)) : res (list (gset nat)) :=
  match nodes with
  | [] => Ok groups
  | i :: nodes =>
      if decide (i ∈ seen) then components n adj nodes seen groups
      else
        '(seen, comp) ← component (component_fuel n) adj [i] seen ∅;
        if decide (2 ≤ size comp)%nat
        then components n adj nodes seen (groups ++ [comp])
        else components n adj nodes seen groups
  end.

(** The key [(-len(idx), width)] and its tuple comparison; [width] is an
    [int64] difference, exact for values that are [in_range]. *)
Definition key_lt (k1 k2 : Z * Z) : bool :=
  (k1.1 <? k2.1) || ((k1.1 =? k2.1) && (k1.2 <? k2.2)).

Definition group_key (values : list Z) (idx : list nat) : res (Z * Z) :=
  vals ← traverse (getitem values) idx;
  hi ← py_max vals;
  lo ← py_min vals;
  Ok (- Z.of_nat (length idx), hi - lo).

(** The [for comp in groups] loop that selects [best]. *)
Fixpoint select_best (values : list Z) (groups : list (gset nat))
    (best : option (list nat * (Z * Z))) : res (option (list nat * (Z * Z))) :=
  match groups with
  | [] => Ok best
  | comp :: groups =>
      let idx := sort_values Nat.leb (elements comp) in
      key ← group_key values idx;
      match best with
      | None => select_best values groups (Some (idx, key))
      | Some (_, best_key) =>
          if key_lt key best_key
          then select_best values groups (Some (idx, key))
          else select_best values groups best
      end
  end.

Definition best_group (values : list Z) (tools : list string) (tol : Z)
    : res (option Z * list string) :=
  let n := length values in
  let adj := build_adj values tol in
  groups ← components n adj (seq 0 n) ∅ [];
  match groups with
  | [] => Ok (None, [])
  | _ :: _ =>
      best ← select_best values groups None;
      match best with
      | None => Raise ValueError
      | Some (best, _) =>
          vals ← traverse (getitem values) best;
          med ← median_int vals;
          used ← traverse (getitem tools) best;
          Ok (Some med, used)
      end
  end.

(** ** Consensus *)

(** A row of the frame [rep]: one representative per contig, cluster and
    tool. *)
Record rep := Rep {
  rep_contig : string;
  rep_cluster_idx : nat;
  rep_tool : string;
  rep_start : Z;
  rep_end : Z
}.

(** A row of the consensus table. *)
Record consensus := Consensus {
  consensus_id : string;
  cons_contig : string;
  n_tools : nat;
  tools : string;
  consensus_start : Z;
  consensus_end : Z;
  method : string;
  used_tools_start : string;
  used_tools_end : string
}.

(** [df.groupby(keys)] with the default [sort=True]: the groups in
    increasing order of their key. *)
Definition groupby_sorted `{EqDecision K} {A} (leb : K → K → bool)
    (key : A → K) (rows : list A) : list (K * list A) :=
  (λ k, (k, filter (λ r, key r = k) rows))
    <$> sort_values leb (unique (key <$> rows)).

Definition rep_key (m : member) : string * nat * string :=
  (contig (row m), cluster_idx m, tool (row m)).

(** Tuple order on [(contig, cluster_idx, tool)]. *)
Definition rep_key_leb (k1 k2 : string * nat * string) : bool :=
  String.ltb k1.1.1 k2.1.1
  || (String.eqb k1.1.1 k2.1.1
      && ((k1.1.2 <? k2.1.2)%nat
          || ((k1.1.2 =? k2.1.2)%nat && String.leb k1.2 k2.2))).

(** The per-tool reducer: [groupby(["contig","cluster_idx","tool"]).agg(...)]
    with the median of the starts and of the ends. *)
Definition reduce_group (kg : string * nat * string * list member) : res rep :=
  s ← median_int ((start ∘ row) <$> kg.2);
  e ← median_int ((end_ ∘ row) <$> kg.2);
  Ok (Rep kg.1.1.1 kg.1.1.2 kg.1.2 s e).

Definition representatives (members_df : list member) : res (list rep) :=
  traverse reduce_group (groupby_sorted rep_key_leb rep_key members_df).

(** [",".join(sorted(l))] *)
Definition join_sorted (l : list string) : string :=
  String.concat "," (sort_values String.leb l).

(** One edge of a cluster seen by at least two tools: the majority group or
    the fallback.  [fallback] is [starts.min()] or [ends.max()], [low] and
    [agree] the two spellings of the method fragment. *)
Definition resolve_edge (values : list Z) (tools : list string) (tol : Z)
    (fallback : list Z → res Z) (low agree : string)
    : res (Z * list string * string) :=
  '(group, used) ← best_group values tools tol;
  match group with
  | None => v ← fallback values; Ok (v, tools, low)
  | Some v => Ok (v, used, agree +:+ pretty (length used))
  end.

(** The body of the loop over the clusters of [rep]. *)
Definition consensus_row (contig : string) (g : list rep) (tol : Z)
    : res consensus :=
  let tools := rep_tool <$> g in
  let starts := rep_start <$> g in
  let ends := rep_end <$> g in
  let n_tools := length tools in
  '(s_cons, e_cons, method, used_s, used_e) ←
    (if decide (n_tools = 1%nat) then
       s_cons ← getitem starts 0;
       e_cons ← getitem ends 0;
       Ok (s_cons, e_cons, "single_tool", tools, tools)
     else
       '(s_cons, used_s, start_part) ←
         resolve_edge starts tools tol py_min "start_min" "start_consensus_";
       '(e_cons, used_e, end_part) ←
         resolve_edge ends tools tol py_max "end_max" "end_consensus_";
       Ok (s_cons, e_cons, start_part +:+ "+" +:+ end_part, used_s, used_e));
  let consensus_id :=
    contig +:+ "_prophage_" +:+ pretty s_cons +:+ "_" +:+ pretty e_cons in
  Ok (Consensus consensus_id contig n_tools (join_sorted tools)
        s_cons e_cons method (join_sorted used_s) (join_sorted used_e)).

(** The key of [sort_values(["contig","consensus_start"])]. *)
Definition contig_start_leb (a b : consensus) : bool :=
  String.ltb (cons_contig a) (cons_contig b)
  || (String.eqb (cons_contig a) (cons_contig b)
      && (consensus_start a <=? consensus_start b)).

Definition cluster_key (r : rep) : string * nat :=
  (rep_contig r, rep_cluster_idx r).

(** [pd.DataFrame(rows)] of an empty list has no columns, and sorting it by
    a column raises [KeyError]. *)
Definition consensus_edgewise (members_df : list member) (tol : Z)
    : res (list consensus) :=
  rep ← representatives members_df;
  rows ← traverse (λ kg, consensus_row kg.1.1 kg.2 tol) (groupby cluster_key rep);
  match rows with
  | [] => Raise KeyError
  | _ :: _ => Ok (sort_values contig_start_leb rows)
  end.

(** ** Homogenization *)

Fixpoint foldlM {A B} (f : A → B → res A) (a : A) (l : list B) : res A :=
  match l with
  | [] => Ok a
  | x :: l' => a' ← f a x; foldlM f a' l'
  end.

(** [df.iloc[i]]: a negative position counts from the end. *)
Definition iloc {A} (l : list A) (i : Z) : res A :=
  let n := Z.of_nat (length l) in
  if (0 <=? i) && (i <? n) then getitem l (Z.to_nat i)
  else if (- n <=? i) && (i <? 0) then getitem l (Z.to_nat (n + i))
  else Raise IndexError.

(** The column [cluster_idx] that [create_mapping] adds to its copy of the
    consensus table is never read; the record of a cluster is found by its
    position among the records of the contig. *)
Definition map_cluster (contig_consensus : list consensus)
    (contig_members : list member)
    (mapping : gmap string string) (cluster_idx0 : nat)
    : res (gmap string string) :=
  let cluster_members :=
    filter (λ m, cluster_idx m = cluster_idx0) contig_members in
  if Z.of_nat cluster_idx0 <=? Z.of_nat (length contig_consensus) then
    r ← iloc contig_consensus (Z.of_nat cluster_idx0 - 1);
    Ok (foldl (λ mapping m, <[id_raw (row m) := consensus_id r]> mapping)
              mapping cluster_members)
  else Ok mapping.

Definition map_contig (consensus_df : list consensus) (members_df : list member)
    (mapping : gmap string string) (contig0 : string)
    : res (gmap string string) :=
  let contig_members := filter (λ m, contig (row m) = contig0) members_df in
  let contig_consensus := filter (λ r, cons_contig r = contig0) consensus_df in
  foldlM (map_cluster contig_consensus contig_members) mapping
         (unique (cluster_idx <$> contig_members)).

Definition create_mapping (consensus_df : list consensus)
    (members_df : list member) : res (gmap string string) :=
  foldlM (map_contig consensus_df members_df) ∅
         (unique ((contig ∘ row) <$> members_df)).

(** ** The core of [main] *)

(** From the concatenated calls to the consensus table and the mapping.
    [main] returns early, with a warning and no output, when no call was
    parsed and when clustering produced no member. *)
Definition core_pipeline (calls : list call)
    : res (option (list member * list consensus * gmap string string)) :=
  match calls with
  | [] => Ok None
  | _ :: _ =>
      let members := cluster_by_contig calls default_overlap_thresh default_max_dist in
      match members with
      | [] => Ok None
      | _ :: _ =>
          consensus ← consensus_edgewise members default_tol;
          cluster_mapping ← create_mapping consensus members;
          Ok (Some (members, consensus, cluster_mapping))
      end
  end.

(** ** The sweep as a recursion on the sorted calls *)

(** The same left-to-right sweep, written as a recursion that returns the
    clusters of one contig: [acc] is the open cluster, in order, and
    [cur_start, cur_end] its envelope.  [cluster_contig_sweep] relates it to
    the loop of [cluster_by_contig]. *)
Fixpoint sweep_from (overlap_thresh : Q) (max_dist : Z)
    (cur_start cur_end : Z) (acc : list call) (l : list call)
    : list (list call) :=
  match l with
  | [] => [acc]
  | r :: l' =>
      if merges overlap_thresh max_dist (start r) (end_ r) cur_start cur_end
      then sweep_from overlap_thresh max_dist
             (Z.min cur_start (start r)) (Z.max cur_end (end_ r)) (acc ++ [r]) l'
      else acc :: sweep_from overlap_thresh max_dist (start r) (end_ r) [r] l'
  end.

Definition sweep_clusters (overlap_thresh : Q) (max_dist : Z) (l : list call)
    : list (list call) :=
  match l with
  | [] => []
  | r :: l' => sweep_from overlap_thresh max_dist (start r) (end_ r) [r] l'
  end.

(** The sub-frames [flush] builds from clusters numbered from [k] on. *)
Fixpoint tag_from (c : string) (k : nat) (cls : list (list call))
    : list (list member) :=
  match cls with
  | [] => []
  | cl :: cls' =>
      ((λ r, Member (set_contig c r) k) <$> cl) :: tag_from c (S k) cls'
  end.

(** The calls of one contig, as [groupby] hands them to the loop body. *)
Definition calls_of (c : string) (calls : list call) : list call :=
  filter (λ r, contig r = c) calls.

(** The clusters of contig [c], in emission order. *)
Definition clusters_of (overlap_thresh : Q) (max_dist : Z) (c : string)
    (calls : list call) : list (list call) :=
  sweep_clusters overlap_thresh max_dist
    (sort_values start_end_leb (calls_of c calls)).

(** The minimum member start of a sub-frame of the members table. *)
Definition min_start (sub : list member) : res Z :=
  py_min ((start ∘ row) <$> sub).

(** A call of the data model has its coordinates in order. *)
Definition well_formed (r : call) : Prop := start r ≤ end_ r.

(** The reciprocal overlap of two calls: the formula of the clusterer
    applied to the two intervals. *)
Definition reciprocal_overlap (a b : call) : Q :=
  min_recip_of (start a) (end_ a) (start b) (end_ b).

(** A cut at coordinate [p]: a call lies to its left when it ends more than
    [max_dist] before [p], to its right when it starts at [p] or later.  A
    call that does neither bridges the cut. *)
Definition left_of (max_dist p : Z) (x : call) : Prop := end_ x + max_dist < p.
Definition right_of (p : Z) (x : call) : Prop := p ≤ start x.
Definition bridges (max_dist p : Z) (x : call) : Prop :=
  ¬ (left_of max_dist p x ∨ right_of p x).

(** ** The tolerance graph *)

(** Two indices are adjacent when their values differ by at most [tol]. *)
Definition adjacent (values : list Z) (tol : Z) (i j : nat) : Prop :=
  (i < length values)%nat ∧ (j < length values)%nat ∧ i ≠ j
  ∧ Z.abs (values !!! i - values !!! j) ≤ tol.

(** The edges stored in the dict [adj]. *)
Definition neighbour (adj : gmap nat (gset nat)) (u v : nat) : Prop :=
  ∃ s, adj !! u = Some s ∧ v ∈ s.

(** ** Invariants of the traversal *)

(** The nodes already in a component are never left again: [seen] is closed
    under the edges. *)
Definition closed (adj : gmap nat (gset nat)) (seen : gset nat) : Prop :=
  ∀ u v, u ∈ seen → neighbour adj u v → v ∈ seen.

(** What holds each time the [while] loop started on node [i] tests its
    stack; [seen0] is the value of [seen] when the loop was entered. *)
Definition component_inv (adj : gmap nat (gset nat)) (seen0 : gset nat) (i : nat)
    (stack : list nat) (seen comp : gset nat) : Prop :=
  seen = seen0 ∪ comp
  ∧ comp ## seen0
  ∧ (∀ u, u ∈ stack → rtc (neighbour adj) i u)
  ∧ (∀ u, u ∈ comp → rtc (neighbour adj) i u)
  ∧ (∀ u v, u ∈ comp → neighbour adj u v → v ∈ seen ∨ v ∈ stack)
  ∧ (i ∈ comp ∨ i ∈ stack).

(** The quantity that every iteration of the loop decreases. *)
Definition potential (n : nat) (stack : list nat) (seen : gset nat) : nat :=
  (size ((set_seq 0 n : gset nat) ∖ seen) * S n + length stack)%nat.

(** ** Connected components of the tolerance graph *)

(** [g] is the set of the nodes connected to [i] in the graph stored in
    [adj]. *)
Definition component_of (adj : gmap nat (gset nat)) (i : nat) (g : gset nat)
    : Prop :=
  ∀ v, v ∈ g ↔ rtc (neighbour adj) i v.

(** [i] and [j] are linked by a chain of values, each within [tol] of the
    next. *)
Definition connected (values : list Z) (tol : Z) : relation nat :=
  rtc (adjacent values tol).

Definition is_component (values : list Z) (tol : Z) (g : gset nat) : Prop :=
  ∃ i, (i < length values)%nat ∧ ∀ j, j ∈ g ↔ connected values tol i j.

(** A component that may become the majority group. *)
Definition qualifies (values : list Z) (tol : Z) (g : gset nat) : Prop :=
  is_component values tol g ∧ (2 ≤ size g)%nat.

(** [sorted(list(comp))] *)
Definition indices (g : gset nat) : list nat :=
  sort_values Nat.leb (elements g).

Definition values_at `{Inhabited A} (l : list A) (idx : list nat) : list A :=
  (λ k, l !!! k) <$> idx.

(** [max(vals) - min(vals)] *)
Definition width (vals : list Z) : Z :=
  match py_max vals, py_min vals with
  | Ok hi, Ok lo => hi - lo
  | _, _ => 0
  end.

Definition range_of (values : list Z) (g : gset nat) : Z :=
  width (values_at values (indices g)).

Definition key_of (values : list Z) (g : gset nat) : Z * Z :=
  (- Z.of_nat (length (indices g)), range_of values g).

(** [best] is at least as good as [g]: larger, or as large and at most as
    wide. *)
Definition preferred (values : list Z) (best g : gset nat) : Prop :=
  (size g < size best)%nat
  ∨ (size g = size best ∧ range_of values best ≤ range_of values g).

(** The median of a non-empty sequence, the mean of the two middle values
    being cut towards zero, as [int] does. *)
Definition median_trunc (xs : list Z) : Z :=
  let sorted := sort_values Z.leb xs in
  let n := length xs in
  if Nat.even n
  then Z.quot (sorted !!! (n / 2 - 1)%nat + sorted !!! (n / 2)%nat) 2
  else sorted !!! (n / 2)%nat.

(** The median as the specification words it: the floor of the mean of the
    two middle values when the count is even. *)
Definition median_floor (xs : list Z) : Z :=
  let sorted := sort_values Z.leb xs in
  let n := length xs in
  if Nat.even n
  then (sorted !!! (n / 2 - 1)%nat + sorted !!! (n / 2)%nat) `div` 2
  else sorted !!! (n / 2)%nat.

(** ** Key orders *)

Definition string_lt (a b : string) : Prop := String.le a b ∧ a ≠ b.

(** Tuple order on [(contig, cluster_idx)], strict and large. *)
Definition cluster_key_lt (a b : string * nat) : Prop :=
  string_lt a.1 b.1 ∨ (a.1 = b.1 ∧ (a.2 < b.2)%nat).

Definition cluster_key_le (a b : string * nat) : Prop :=
  string_lt a.1 b.1 ∨ (a.1 = b.1 ∧ (a.2 ≤ b.2)%nat).

(** Tuple order on [(contig, cluster_idx, tool)]. *)
Definition rep_key_le (a b : string * nat * string) : Prop :=
  cluster_key_lt a.1 b.1 ∨ (a.1 = b.1 ∧ String.le a.2 b.2).

(** ** The frames inside [consensus_edgewise] *)

(** The keys of the first [groupby], in increasing order. *)
Definition rep_keys (members_df : list member) : list (string * nat * string) :=
  sort_values rep_key_leb (unique (rep_key <$> members_df)).

(** The row of [rep] for one key. *)
Definition rep_of (members_df : list member) (k : string * nat * string) : rep :=
  let g := filter (λ m, rep_key m = k) members_df in
  Rep k.1.1 k.1.2 k.2
    (median_trunc ((start ∘ row) <$> g)) (median_trunc ((end_ ∘ row) <$> g)).

(** The keys of the second [groupby], in order of first appearance. *)
Definition cluster_keys (members_df : list member) : list (string * nat) :=
  unique (fst <$> rep_keys members_df).

(** The representatives of one cluster. *)
Definition cluster_reps (members_df : list member) (ck : string * nat)
    : list rep :=
  filter (λ r, cluster_key r = ck) (rep_of members_df <$> rep_keys members_df).

(** The members of one cluster. *)
Definition cluster_members (members_df : list member) (ck : string * nat)
    : list member :=
  filter (λ m, (contig (row m), cluster_idx m) = ck) members_df.

(** ** Invariant of the mapper *)

(** The record that [create_mapping] reads for cluster [k] of contig [c]. *)
Definition record_at (consensus_df : list consensus) (c : string) (k : nat)
    : option consensus :=
  filter (λ r, cons_contig r = c) consensus_df !! (k - 1)%nat.

(** Every entry of the mapping was written for some member, with the
    identifier read for the cluster of that member; and the members
    selected by [D] have an entry. *)
Definition mapping_inv (consensus_df : list consensus) (members_df : list member)
    (D : member → Prop) (mapping : gmap string string) : Prop :=
  (∀ id v, mapping !! id = Some v →
     ∃ m r, m ∈ members_df ∧ id_raw (row m) = id
       ∧ record_at consensus_df (contig (row m)) (cluster_idx m) = Some r
       ∧ v = consensus_id r)
  ∧ (∀ m, m ∈ members_df → D m → is_Some (mapping !! id_raw (row m))).

(** The raw identifier of a call determines its contig and its interval, as
    it does for the calls that the loaders parse out of identifiers. *)
Definition raw_id_determines_interval (calls : list call) : Prop :=
  ∀ a b, a ∈ calls → b ∈ calls → id_raw a = id_raw b →
    contig a = contig b ∧ start a = start b ∧ end_ a = end_ b.

(** ** Parsing identifiers *)

(** Strings are sequences of bytes; [\d] is read as an ASCII digit, which is
    what it matches in a text that is [ascii_only]. *)
Definition is_digit (c : ascii) : bool :=
  (48 <=? nat_of_ascii c)%nat && (nat_of_ascii c <=? 57)%nat.

Definition newline : ascii := "010"%char.

(** A literal of the pattern at the head of [s]: what follows it. *)
Fixpoint strip_literal (p s : string) : option string :=
  match p with
  | EmptyString => Some s
  | String c p' =>
      match s with
      | String d s' => if decide (c = d) then strip_literal p' s' else None
      | EmptyString => None
      end
  end.

(** [$]: the end of the string, or a newline that ends it. *)
Definition at_end (s : string) : bool :=
  match s with
  | EmptyString => true
  | String c EmptyString => bool_decide (c = newline)
  | _ => false
  end.

(** [\d+] followed by the rest [k] of the pattern: greedy, giving back one
    digit at a time when the rest fails.  [acc] is the text of the group so
    far. *)
Fixpoint digits_then {R} (k : string → string → option R) (acc s : string)
    : option R :=
  match s with
  | String c s' =>
      if is_digit c then
        let acc := acc +:+ String c EmptyString in
        match digits_then k acc s' with
        | Some r => Some r
        | None => k acc s'
        end
      else None
  | EmptyString => None
  end.

(** [.+?] followed by the rest [k] of the pattern: lazy, taking one more
    character, a newline excepted, each time the rest fails. *)
Fixpoint lazy_then {R} (k : string → string → option R) (acc s : string)
    : option R :=
  match s with
  | String c s' =>
      if decide (c = newline) then None
      else
        let acc := acc +:+ String c EmptyString in
        match k acc s' with
        | Some r => Some r
        | None => lazy_then k acc s'
        end
  | EmptyString => None
  end.

(** What follows the group [contig]: [_prophage_(\d+)_(\d+)$]. *)
Definition coordinates_tail (s : string) : option (string * string) :=
  s ← strip_literal "_prophage_" s;
  digits_then (λ a s,
    s ← strip_literal "_" s;
    digits_then (λ b s, if at_end s then Some (a, b) else None) EmptyString s)
    EmptyString s.

(** [PROPHAGE_RE.match(s)]: the groups [contig], [start] and [end]. *)
Definition PROPHAGE_RE (s : string) : option (string * string * string) :=
  lazy_then (λ contig s, ab ← coordinates_tail s; Some (contig, ab.1, ab.2))
    EmptyString s.

(** [int(s)] on a string of ASCII digits. *)
Definition digit_value (c : ascii) : Z := Z.of_nat (nat_of_ascii c) - 48.

Fixpoint int_from (acc : Z) (s : string) : Z :=
  match s with
  | EmptyString => acc
  | String c s' => int_from (10 * acc + digit_value c) s'
  end.

Definition int_of_digits (s : string) : Z := int_from 0 s.

(** [parse_prophage_id]; the triple of [None] is [None]. *)
Definition parse_prophage_id (s : string) : option (string * Z * Z) :=
  match PROPHAGE_RE s with
  | None => None
  | Some (contig, a, b) =>
      let a := int_of_digits a in
      let b := int_of_digits b in
      Some (contig, Z.min a b, Z.max a b)
  end.

Fixpoint all_digits (s : string) : bool :=
  match s with
  | EmptyString => true
  | String c s' => is_digit c && all_digits s'
  end.

Fixpoint no_newline (s : string) : bool :=
  match s with
  | EmptyString => true
  | String c s' => negb (bool_decide (c = newline)) && no_newline s'
  end.

Fixpoint count_underscore (s : string) : nat :=
  match s with
  | EmptyString => 0
  | String c s' => (if decide (c = "_"%char) then 1 else 0) + count_underscore s'
  end.

(** Whether [s] begins with a digit. *)
Definition head_is_digit (s : string) : bool :=
  match s with
  | String c _ => is_digit c
  | EmptyString => false
  end.

(** ** Loading the calls *)

(** A table as [read_csv(..., dtype=str).fillna("")] returns it: its
    columns by name, each the list of its cells. *)
Definition frame := gmap string (list string).

(** One turn of the loop of a loader: a call for an identifier that
    [parse_prophage_id] accepts with a contig that is not empty. *)
Definition call_of (tool pid : string) : option call :=
  match parse_prophage_id pid with
  | Some (contig, s, e) =>
      if decide (contig = EmptyString) then None
      else Some (Call tool contig s e pid)
  | None => None
  end.

(** The loop over [drop_duplicates()] of the name column. *)
Definition load_column (tool : string) (col : list string) : list call :=
  omap (call_of tool) (unique col).

(** The loaders; [None] is a path that is not set or a file that does not
    exist. *)
Definition load_from_virsorter (fp : option frame) : list call :=
  match fp with
  | None => []
  | Some df =>
      match df !! "seqname" with
      | None => []
      | Some col => load_column "VirSorter2" col
      end
  end.

Definition load_from_vibrant (fp : option frame) : list call :=
  match fp with
  | None => []
  | Some df =>
      match df !! "scaffold" with
      | None => []
      | Some col => load_column "VIBRANT" col
      end
  end.

Definition load_from_genomad (fp : option frame) : list call :=
  match fp with
  | None => []
  | Some df =>
      match df !! "seq_name" with
      | Some col => load_column "GeNomad" col
      | None =>
          match df !! "seqname" with
          | Some col => load_column "GeNomad" col
          | None => []
          end
      end
  end.

(** The calls of [main]: the frames of the loaders that are not empty, one
    after the other. *)
Definition load_calls (vs vb gn : option frame) : list call :=
  load_from_virsorter vs ++ load_from_vibrant vb ++ load_from_genomad gn.

(** [main] from the three tables to the consensus table and the mapping. *)
Definition main_tables (vs vb gn : option frame)
    : res (option (list member * list consensus * gmap string string)) :=
  core_pipeline (load_calls vs vb gn).


(** ** The range of the embedding *)

(** [2^52]: up to this magnitude the [int64] differences of [best_group] do
    not wrap and [np.median] is exact. *)
Definition int_bound : Z := 4503599627370496.

Definition in_range (v : Z) : Prop := - int_bound ≤ v ≤ int_bound.

Definition calls_in_range (calls : list call) : Prop :=
  Forall (λ c, in_range (start c) ∧ in_range (end_ c)) calls.

Definition members_in_range (members_df : list member) : Prop :=
  Forall (λ m, in_range (start (row m)) ∧ in_range (end_ (row m))) members_df.

(** Identifiers whose characters are all ASCII. *)
Fixpoint ascii_only (s : string) : bool :=
  match s with
  | EmptyString => true
  | String c s' => (nat_of_ascii c <? 128)%nat && ascii_only s'
  end.

Definition frame_ascii (fp : option frame) : Prop :=
  ∀ df name col pid, fp = Some df → df !! name = Some col → pid ∈ col →
    ascii_only pid = true.

(** ** The three functions of the core, composed *)

(** [cluster_by_contig], [consensus_edgewise] and [create_mapping] one
    after the other with their default parameters, without the tests that
    [main] puts between them. *)
Definition core_functions (calls : list call)
    : res (list member * list consensus * gmap string string) :=
  let members := cluster_by_contig calls default_overlap_thresh default_max_dist in
  consensus ← consensus_edgewise members default_tol;
  cluster_mapping ← create_mapping consensus members;
  Ok (members, consensus, cluster_mapping).

(** * Properties *)

(** ** Sorting *)

Section sorting.
Context {A : Type} (leb : A → A → bool).

Lemma insert_sorted_Permutation x l : insert_sorted leb x l ≡ₚ x :: l.
Proof.
  induction l as [|y l IH]; simpl; [done|].
  destruct (leb x y); [done|]. rewrite IH. apply Permutation_swap.
Qed.

Lemma sort_values_Permutation l : sort_values leb l ≡ₚ l.
Proof.
  induction l as [|x l IH]; simpl; [done|].
  by rewrite insert_sorted_Permutation, IH.
Qed.

Lemma sort_values_length l : length (sort_values leb l) = length l.
Proof. by rewrite sort_values_Permutation. Qed.

Lemma sort_values_elem_of x l : x ∈ sort_values leb l ↔ x ∈ l.
Proof. by rewrite sort_values_Permutation. Qed.

Lemma sort_values_nil_inv l : sort_values leb l = [] → l = [].
Proof.
  intros E. apply Permutation_nil_r. by rewrite <- E, sort_values_Permutation.
Qed.

(** A frame that is already in order is left as it is. *)
Lemma insert_sorted_HdRel x l : HdRel leb x l → insert_sorted leb x l = x :: l.
Proof. destruct 1 as [|y l H]; simpl; [done|]. by rewrite (Is_true_true_1 _ H). Qed.

Lemma sort_values_sorted_id l : Sorted leb l → sort_values leb l = l.
Proof.
  induction 1 as [|x l Hl IH Hx]; simpl; [done|].
  rewrite IH. by apply insert_sorted_HdRel.
Qed.

Hypothesis leb_total : ∀ x y, leb x y = true ∨ leb y x = true.

Lemma insert_sorted_Sorted x l :
  Sorted leb l → Sorted leb (insert_sorted leb x l).
Proof.
  induction 1 as [|y l Hl IH Hy]; simpl.
  - by repeat constructor.
  - destruct (leb x y) eqn:E.
    + constructor; [by constructor|]. constructor. by rewrite E.
    + constructor; [done|].
      destruct (leb_total x y) as [E'|E']; [congruence|].
      destruct Hy as [|z l Hz]; simpl.
      * constructor. by rewrite E'.
      * destruct (leb x z); constructor; [by rewrite E'|done].
Qed.

Lemma sort_values_Sorted l : Sorted leb (sort_values leb l).
Proof.
  induction l as [|x l IH]; simpl; [constructor|].
  by apply insert_sorted_Sorted.
Qed.
End sorting.

Lemma Sorted_weaken {A} (R1 R2 : relation A) l :
  (∀ x y, R1 x y → R2 x y) → Sorted R1 l → Sorted R2 l.
Proof.
  intros HR. induction 1 as [|x l Hl IH Hx]; constructor; [done|].
  destruct Hx; constructor; auto.
Qed.

Lemma start_end_leb_total a b :
  start_end_leb a b = true ∨ start_end_leb b a = true.
Proof.
  unfold start_end_leb.
  destruct (Z.ltb_spec (start a) (start b)), (Z.ltb_spec (start b) (start a));
    destruct (Z.eqb_spec (start a) (start b)), (Z.eqb_spec (start b) (start a));
    destruct (Z.leb_spec (end_ a) (end_ b)), (Z.leb_spec (end_ b) (end_ a));
    simpl; auto; lia.
Qed.

Lemma start_end_leb_start a b : start_end_leb a b → start a ≤ start b.
Proof.
  unfold start_end_leb. intros H.
  apply Is_true_true_1, orb_true_iff in H as [H|H].
  - apply Z.ltb_lt in H. lia.
  - apply andb_true_iff in H as [H _]. apply Z.eqb_eq in H. lia.
Qed.

(** The sorted frame has its starts in non-decreasing order. *)
Definition by_start (a b : call) : Prop := start a ≤ start b.

Global Instance by_start_trans : Transitive by_start.
Proof. unfold by_start. intros a b c. lia. Qed.

Lemma sorted_by_start l :
  StronglySorted by_start (sort_values start_end_leb l).
Proof.
  apply Sorted_StronglySorted; [apply _|].
  eapply Sorted_weaken; [|apply sort_values_Sorted, start_end_leb_total].
  intros a b. apply start_end_leb_start.
Qed.

(** ** Grouping *)

Lemma filter_all {A} (P : A → Prop) `{∀ x, Decision (P x)} (l : list A) :
  (∀ x, x ∈ l → P x) → filter P l = l.
Proof.
  induction l as [|x l IH]; intros HP; [done|].
  rewrite filter_cons_True by (apply HP; left).
  f_equal. apply IH. intros y Hy. apply HP. by right.
Qed.

Lemma filter_none {A} (P : A → Prop) `{∀ x, Decision (P x)} (l : list A) :
  (∀ x, x ∈ l → ¬ P x) → filter P l = [].
Proof.
  induction l as [|x l IH]; intros HP; [done|].
  rewrite filter_cons_False by (apply HP; left).
  apply IH. intros y Hy. apply HP. by right.
Qed.


Section grouping.
Context `{EqDecision K}.

Lemma elem_of_unique (x : K) l : x ∈ unique l ↔ x ∈ l.
Proof.
  induction l as [|y l IH]; simpl; [done|].
  rewrite !elem_of_cons, list_elem_of_filter, IH.
  destruct (decide (x = y)); naive_solver.
Qed.

Lemma NoDup_unique (l : list K) : NoDup (unique l).
Proof.
  induction l as [|y l IH]; simpl; [constructor|].
  constructor; [|by apply NoDup_filter].
  rewrite list_elem_of_filter. naive_solver.
Qed.

Lemma unique_nil_inv (l : list K) : unique l = [] → l = [].
Proof. by destruct l. Qed.

(** Reading back, by key, a table that was written group by group. *)
Lemma filter_mjoin_groups {A} (key : A → K) (f : K → list A) ks c :
  NoDup ks → (∀ k x, x ∈ f k → key x = k) →
  filter (λ x, key x = c) (mjoin (f <$> ks)) = if decide (c ∈ ks) then f c else [].
Proof.
  intros Hnd Hkey. induction Hnd as [|k ks Hk Hnd IH]; [done|].
  rewrite fmap_cons. simpl mjoin. rewrite filter_app, IH.
  destruct (decide (k = c)) as [->|Hne].
  - rewrite (decide_True (P := c ∈ c :: ks)) by left. rewrite decide_False by done.
    rewrite app_nil_r. apply filter_all. intros x Hx. by apply Hkey.
  - rewrite filter_none; [|intros x Hx E; apply Hkey in Hx; congruence].
    simpl. destruct (decide (c ∈ ks)).
    + rewrite decide_True; [done|by right].
    + rewrite decide_False; [done|]. rewrite elem_of_cons. naive_solver.
Qed.
End grouping.

(** ** The sweep *)

Section sweep.
Context (overlap_thresh : Q) (max_dist : Z) (c : string).

Local Notation step := (sweep_step overlap_thresh max_dist c).
Local Notation from := (sweep_from overlap_thresh max_dist).

(** The loop, started in a state with an open cluster, appends to
    [member_rows] what the recursion computes. *)
Lemma sweep_fold l : ∀ st cur_start cur_end,
  cur st = Some (cur_start, cur_end) → cur_members st ≠ [] →
  member_rows (flush c (foldl step st l))
  = member_rows st
    ++ tag_from c (cluster_id st) (from cur_start cur_end (cur_members st) l).
Proof.
  induction l as [|r l IH]; intros st cs ce Hcur Hne; simpl.
  - unfold flush. by destruct (cur_members st).
  - unfold sweep_step at 2. rewrite Hcur.
    destruct (merges _ _ _ _ _ _).
    + erewrite IH; simpl; [done..|]. by destruct (cur_members st).
    + erewrite IH; simpl; [|done..].
      unfold flush. destruct (cur_members st) eqn:E; [done|]. simpl.
      by rewrite <- app_assoc.
Qed.

Lemma cluster_contig_sweep dfc :
  cluster_contig overlap_thresh max_dist c dfc
  = tag_from c 1
      (sweep_clusters overlap_thresh max_dist (sort_values start_end_leb dfc)).
Proof.
  unfold cluster_contig, sweep_clusters.
  destruct (sort_values start_end_leb dfc) as [|r l]; [done|].
  simpl. by erewrite sweep_fold.
Qed.

Lemma sweep_from_mjoin l : ∀ cur_start cur_end acc,
  mjoin (from cur_start cur_end acc l) = acc ++ l.
Proof.
  induction l as [|r l IH]; intros cs ce acc; simpl.
  - by rewrite app_nil_r.
  - destruct (merges _ _ _ _ _ _); simpl; rewrite IH; [|done].
    by rewrite <- app_assoc.
Qed.

Lemma sweep_from_nonempty l : ∀ cur_start cur_end acc,
  acc ≠ [] → Forall (λ cl, cl ≠ []) (from cur_start cur_end acc l).
Proof.
  induction l as [|r l IH]; intros cs ce acc Hacc; simpl.
  - by constructor.
  - destruct (merges _ _ _ _ _ _).
    + apply IH. by destruct acc.
    + constructor; [done|]. by apply IH.
Qed.

Lemma sweep_clusters_mjoin l :
  mjoin (sweep_clusters overlap_thresh max_dist l) = l.
Proof. destruct l as [|r l]; [done|]. simpl. by rewrite sweep_from_mjoin. Qed.

Lemma sweep_clusters_nonempty l :
  Forall (λ cl, cl ≠ []) (sweep_clusters overlap_thresh max_dist l).
Proof. destruct l as [|r l]; [constructor|]. by apply sweep_from_nonempty. Qed.
End sweep.

(** What [tag_from] does to the rows, the indices and the shape. *)
Lemma tag_from_length c k cls : length (tag_from c k cls) = length cls.
Proof. revert k. induction cls as [|cl cls IH]; intros k; simpl; [done|]. by rewrite IH. Qed.

Lemma tag_from_lookup c cls : ∀ k i,
  tag_from c k cls !! i
  = (λ cl, (λ r, Member (set_contig c r) (k + i)) <$> cl) <$> cls !! i.
Proof.
  induction cls as [|cl cls IH]; intros k i; [done|].
  destruct i as [|i]; simpl.
  - by rewrite Nat.add_0_r.
  - rewrite IH. by replace (S k + i)%nat with (k + S i)%nat by lia.
Qed.

Lemma set_contig_id c r : contig r = c → set_contig c r = r.
Proof. intros <-. by destruct r. Qed.

Lemma tag_from_rows c cls : ∀ k,
  Forall (Forall (λ r, contig r = c)) cls →
  row <$> mjoin (tag_from c k cls) = mjoin cls.
Proof.
  induction cls as [|cl cls IH]; intros k Hc; [done|].
  apply Forall_cons in Hc as [Hcl Hc]. simpl.
  rewrite fmap_app, IH by done. f_equal.
  induction Hcl as [|r cl Hr Hcl IHcl]; [done|].
  rewrite !fmap_cons, IHcl. simpl. by rewrite set_contig_id.
Qed.

Lemma tag_from_contig c cls : ∀ k m,
  m ∈ mjoin (tag_from c k cls) → contig (row m) = c.
Proof.
  induction cls as [|cl cls IH]; intros k m; simpl; [by intros ?%elem_of_nil|].
  rewrite elem_of_app, list_elem_of_fmap. intros [(r & -> & _)|Hm]; [done|].
  by eapply IH.
Qed.

(** ** The members table, contig by contig *)

Lemma mjoin_mjoin_fmap {A B} (f : A → list (list B)) (l : list A) :
  mjoin (mjoin (f <$> l)) = mjoin ((λ x, mjoin (f x)) <$> l).
Proof.
  induction l as [|x l IH]; [done|].
  rewrite !fmap_cons. simpl. by rewrite join_app, IH.
Qed.

Lemma calls_of_contig c calls : Forall (λ r, contig r = c) (calls_of c calls).
Proof. apply Forall_forall. intros r. unfold calls_of. by rewrite list_elem_of_filter; intros []. Qed.

Lemma cluster_by_contig_unfold calls overlap_thresh max_dist :
  cluster_by_contig calls overlap_thresh max_dist
  = mjoin ((λ c, mjoin (cluster_contig overlap_thresh max_dist c (calls_of c calls)))
             <$> unique (contig <$> calls)).
Proof.
  unfold cluster_by_contig, groupby.
  rewrite mjoin_mjoin_fmap, <- list_fmap_compose. done.
Qed.

(** The rows of contig [c] in the members table are the sub-frames that the
    loop body appended for [c], in order. *)
Lemma cluster_by_contig_contig calls overlap_thresh max_dist c :
  filter (λ m, contig (row m) = c) (cluster_by_contig calls overlap_thresh max_dist)
  = mjoin (cluster_contig overlap_thresh max_dist c (calls_of c calls)).
Proof.
  rewrite cluster_by_contig_unfold.
  rewrite (filter_mjoin_groups (λ m, contig (row m))
             (λ c, mjoin (cluster_contig overlap_thresh max_dist c (calls_of c calls)))).
  - destruct (decide (c ∈ unique (contig <$> calls))) as [|Hc]; [done|].
    replace (calls_of c calls) with (@nil call); [done|].
    symmetry. apply filter_none. intros r Hr E. apply Hc, elem_of_unique.
    apply list_elem_of_fmap. eauto.
  - apply NoDup_unique.
  - intros k m. rewrite cluster_contig_sweep. apply tag_from_contig.
Qed.

Lemma sorted_calls_contig c calls :
  Forall (λ r, contig r = c) (sort_values start_end_leb (calls_of c calls)).
Proof.
  rewrite sort_values_Permutation. apply calls_of_contig.
Qed.

Lemma clusters_of_contig overlap_thresh max_dist c calls :
  Forall (Forall (λ r, contig r = c)) (clusters_of overlap_thresh max_dist c calls).
Proof.
  apply Forall_forall. intros cl Hcl. apply Forall_forall. intros r Hr.
  assert (r ∈ mjoin (clusters_of overlap_thresh max_dist c calls)) as Hin
    by (apply list_elem_of_join; eauto).
  unfold clusters_of in Hin. rewrite sweep_clusters_mjoin in Hin.
  by apply (proj1 (Forall_forall _ _) (sorted_calls_contig c calls)).
Qed.

Lemma cluster_contig_clusters_of overlap_thresh max_dist c calls :
  cluster_contig overlap_thresh max_dist c (calls_of c calls)
  = tag_from c 1 (clusters_of overlap_thresh max_dist c calls).
Proof. apply cluster_contig_sweep. Qed.

(** The sub-frames of a contig hold its calls, each once. *)
Lemma cluster_contig_rows calls overlap_thresh max_dist c :
  row <$> mjoin (cluster_contig overlap_thresh max_dist c (calls_of c calls))
  ≡ₚ calls_of c calls.
Proof.
  rewrite cluster_contig_clusters_of.
  rewrite tag_from_rows by apply clusters_of_contig.
  unfold clusters_of. by rewrite sweep_clusters_mjoin, sort_values_Permutation.
Qed.

(** C3.  The clusters of a contig partition its calls: the rows of the
    contig in the members table are the sub-frames emitted for it, these
    sub-frames together hold every call of the contig exactly once, and none
    of them is empty. *)
Theorem cluster_by_contig_partition calls overlap_thresh max_dist c :
  let subs := cluster_contig overlap_thresh max_dist c (calls_of c calls) in
  filter (λ m, contig (row m) = c) (cluster_by_contig calls overlap_thresh max_dist)
    = mjoin subs
  ∧ row <$> mjoin subs ≡ₚ calls_of c calls
  ∧ Forall (λ sub, sub ≠ []) subs.
Proof.
  simpl. split; [apply cluster_by_contig_contig|].
  split; [apply cluster_contig_rows|].
  rewrite cluster_contig_clusters_of.
  - apply Forall_forall. intros sub [i Hi]%list_elem_of_lookup.
    rewrite tag_from_lookup in Hi.
    destruct (clusters_of _ _ _ _ !! i) as [cl|] eqn:E; [|done].
    simpl in Hi. injection Hi as <-.
    assert (cl ≠ []) as Hne.
    { eapply (Forall_lookup_1 _ _ _ _ (sweep_clusters_nonempty _ _ _) E). }
    by destruct cl.
Qed.

(** ** Minimum and maximum *)

Lemma foldl_min_spec l : ∀ x : Z,
  (foldl Z.min x l = x ∨ foldl Z.min x l ∈ l)
  ∧ foldl Z.min x l ≤ x ∧ ∀ y, y ∈ l → foldl Z.min x l ≤ y.
Proof.
  induction l as [|z l IH]; intros x; simpl.
  - split; [by left|]. split; [lia|]. by intros y ?%elem_of_nil.
  - destruct (IH (Z.min x z)) as (Hin & Hle & Hall). split; [|split].
    + destruct Hin as [->|Hin]; [|right; by right].
      destruct (Z.min_spec x z) as [[_ ->]|[_ ->]]; [by left|right; left].
    + lia.
    + intros y [->|Hy]%elem_of_cons; [lia|by apply Hall].
Qed.

Lemma foldl_max_spec l : ∀ x : Z,
  (foldl Z.max x l = x ∨ foldl Z.max x l ∈ l)
  ∧ x ≤ foldl Z.max x l ∧ ∀ y, y ∈ l → y ≤ foldl Z.max x l.
Proof.
  induction l as [|z l IH]; intros x; simpl.
  - split; [by left|]. split; [lia|]. by intros y ?%elem_of_nil.
  - destruct (IH (Z.max x z)) as (Hin & Hle & Hall). split; [|split].
    + destruct Hin as [->|Hin]; [|right; by right].
      destruct (Z.max_spec x z) as [[_ ->]|[_ ->]]; [right; left|by left].
    + lia.
    + intros y [->|Hy]%elem_of_cons; [lia|by apply Hall].
Qed.

Lemma py_min_spec l m : py_min l = Ok m → m ∈ l ∧ ∀ y, y ∈ l → m ≤ y.
Proof.
  destruct l as [|x l]; simpl; [done|]. intros [= <-].
  destruct (foldl_min_spec l x) as (Hin & Hle & Hall). split.
  - destruct Hin as [->|Hin]; [left|by right].
  - intros y [->|Hy]%elem_of_cons; auto.
Qed.

Lemma py_max_spec l m : py_max l = Ok m → m ∈ l ∧ ∀ y, y ∈ l → y ≤ m.
Proof.
  destruct l as [|x l]; simpl; [done|]. intros [= <-].
  destruct (foldl_max_spec l x) as (Hin & Hle & Hall). split.
  - destruct Hin as [->|Hin]; [left|by right].
  - intros y [->|Hy]%elem_of_cons; auto.
Qed.

Lemma py_min_ok l : l ≠ [] → ∃ m, py_min l = Ok m.
Proof. destruct l; [done|]. simpl. eauto. Qed.

Lemma py_max_ok l : l ≠ [] → ∃ m, py_max l = Ok m.
Proof. destruct l; [done|]. simpl. eauto. Qed.

(** ** Order of the clusters *)

(** In a sorted frame cut into consecutive pieces, an earlier piece lies
    below a later one. *)
Lemma StronglySorted_pieces {A} (R : relation A) (ls : list (list A)) :
  StronglySorted R (mjoin ls) →
  ∀ i j li lj x y, (i < j)%nat → ls !! i = Some li → ls !! j = Some lj →
    x ∈ li → y ∈ lj → R x y.
Proof.
  induction ls as [|l ls IH]; intros Hs i j li lj x y Hij Hi Hj Hx Hy; [done|].
  simpl in Hs. destruct j as [|j]; [lia|]. simpl in Hj.
  destruct i as [|i]; simpl in Hi.
  - injection Hi as ->.
    eapply (StronglySorted_app_1_elem_of _ _ _ _ _ Hs); [done|].
    apply list_elem_of_join. exists lj. split; [done|].
    by eapply list_elem_of_lookup_2.
  - apply StronglySorted_app_1_r in Hs. eapply (IH Hs i j); eauto. lia.
Qed.

Lemma clusters_of_sorted overlap_thresh max_dist c calls :
  StronglySorted by_start (mjoin (clusters_of overlap_thresh max_dist c calls)).
Proof. unfold clusters_of. rewrite sweep_clusters_mjoin. apply sorted_by_start. Qed.

Lemma min_start_tagged c k cl :
  min_start ((λ r, Member (set_contig c r) k) <$> cl) = py_min (start <$> cl).
Proof. unfold min_start. by rewrite <- list_fmap_compose. Qed.

(** C5.  The sub-frames of a contig are numbered 1, 2, ... in the order in
    which they are emitted, and their minimum member starts do not
    decrease. *)
Theorem cluster_by_contig_order calls overlap_thresh max_dist c :
  let subs := cluster_contig overlap_thresh max_dist c (calls_of c calls) in
  (∀ k sub m, subs !! k = Some sub → m ∈ sub → cluster_idx m = S k)
  ∧ (∀ i j si sj, (i ≤ j)%nat → subs !! i = Some si → subs !! j = Some sj →
       ∃ a b, min_start si = Ok a ∧ min_start sj = Ok b ∧ a ≤ b).
Proof.
  simpl. rewrite cluster_contig_clusters_of.
  set (cls := clusters_of overlap_thresh max_dist c calls).
  assert (∀ i cl, cls !! i = Some cl → ∃ a, py_min (start <$> cl) = Ok a) as Hmin.
  { intros i cl Hi. apply py_min_ok.
    pose proof (Forall_lookup_1 _ _ _ _
      (sweep_clusters_nonempty overlap_thresh max_dist _) Hi) as Hne.
    by destruct cl. }
  split.
  - intros k sub m. rewrite tag_from_lookup.
    destruct (cls !! k) as [cl|]; [|done]. simpl. intros [= <-].
    rewrite list_elem_of_fmap. by intros (r & -> & _).
  - intros i j si sj Hij. rewrite !tag_from_lookup.
    destruct (cls !! i) as [ci|] eqn:Ei; [|done].
    destruct (cls !! j) as [cj|] eqn:Ej; [|done].
    simpl. intros [= <-] [= <-]. rewrite !min_start_tagged.
    destruct (Hmin _ _ Ei) as [a Ha], (Hmin _ _ Ej) as [b Hb].
    exists a, b. split; [done|]. split; [done|].
    destruct (decide (i = j)) as [->|Hne].
    { rewrite Ei in Ej. injection Ej as <-. rewrite Ha in Hb.
      injection Hb as <-. lia. }
    apply py_min_spec in Ha as [Ha _], Hb as [Hb _].
    apply list_elem_of_fmap in Ha as (x & -> & Hx), Hb as (y & -> & Hy).
    assert (i < j)%nat as Hlt by lia.
    exact (StronglySorted_pieces by_start cls
             (clusters_of_sorted overlap_thresh max_dist c calls)
             i j ci cj x y Hlt Ei Ej Hx Hy).
Qed.

(** ** The merge test *)

Lemma inter_of_nonneg s e cur_start cur_end : 0 ≤ inter_of s e cur_start cur_end.
Proof. unfold inter_of. lia. Qed.

Lemma min_recip_no_inter s e cur_start cur_end :
  inter_of s e cur_start cur_end = 0 →
  (min_recip_of s e cur_start cur_end == 0)%Q.
Proof.
  intros H. unfold min_recip_of. rewrite H.
  destruct (_ || _); [reflexivity|].
  assert (∀ q, (inject_Z 0 / q == 0)%Q) as H0.
  { intros q. unfold Qdiv. apply Qmult_0_l. }
  rewrite !H0. by apply Q.min_l.
Qed.

Lemma reciprocal_overlap_inter overlap_thresh s e cur_start cur_end :
  (0 < overlap_thresh)%Q →
  Qle_bool overlap_thresh (min_recip_of s e cur_start cur_end) = true →
  0 < inter_of s e cur_start cur_end.
Proof.
  intros Hthr Hle. apply Qle_bool_iff in Hle.
  pose proof (inter_of_nonneg s e cur_start cur_end) as Hn.
  destruct (decide (inter_of s e cur_start cur_end = 0)) as [E|]; [|lia].
  rewrite (min_recip_no_inter _ _ _ _ E) in Hle.
  exfalso. by apply (Qlt_not_le _ _ Hthr).
Qed.

(** The proximity test alone: a call that starts within [max_dist] of the
    end of the envelope joins. *)
Lemma merges_near overlap_thresh max_dist s e cur_start cur_end :
  0 ≤ max_dist → cur_start ≤ e → s - cur_end ≤ max_dist →
  merges overlap_thresh max_dist s e cur_start cur_end = true.
Proof.
  intros Hmd Hcs Hs. unfold merges. apply orb_true_iff. right.
  apply Z.leb_le. unfold gap_of. case_match; lia.
Qed.

Lemma merges_far overlap_thresh max_dist s e cur_start cur_end :
  (0 < overlap_thresh)%Q → 0 ≤ max_dist → cur_end + max_dist < s →
  merges overlap_thresh max_dist s e cur_start cur_end = false.
Proof.
  intros Hthr Hmd Hs. unfold merges.
  assert (inter_of s e cur_start cur_end = 0) as E by (unfold inter_of; lia).
  apply orb_false_iff. split.
  - destruct (Qle_bool _ _) eqn:Hle; [|done].
    apply reciprocal_overlap_inter in Hle; [lia|done].
  - apply Z.leb_gt. unfold gap_of. rewrite E. simpl. lia.
Qed.

Lemma merges_inv overlap_thresh max_dist s e cur_start cur_end :
  (0 < overlap_thresh)%Q → 0 ≤ max_dist → cur_start ≤ e →
  merges overlap_thresh max_dist s e cur_start cur_end = false →
  cur_end + max_dist < s.
Proof.
  intros Hthr Hmd Hcs Hm.
  destruct (decide (s - cur_end ≤ max_dist)) as [Hs|]; [|lia].
  by rewrite merges_near in Hm.
Qed.

(** C10.  With a non-negative [max_dist], a call that intersects the
    envelope of the open cluster joins it whatever [overlap_thresh] is: the
    gap is 0 and the proximity test succeeds. *)
Theorem overlap_merges_any_thresh overlap_thresh max_dist c st r cur_start cur_end :
  0 ≤ max_dist →
  cur st = Some (cur_start, cur_end) →
  0 < inter_of (start r) (end_ r) cur_start cur_end →
  gap_of (start r) (end_ r) cur_start cur_end = 0
  ∧ sweep_step overlap_thresh max_dist c st r
    = Sweep (cluster_id st)
        (Some (Z.min cur_start (start r), Z.max cur_end (end_ r)))
        (cur_members st ++ [r]) (member_rows st).
Proof.
  intros Hmd Hcur Hinter.
  assert (gap_of (start r) (end_ r) cur_start cur_end = 0) as Hgap.
  { unfold gap_of. by rewrite (proj2 (Z.ltb_lt _ _) Hinter). }
  split; [done|].
  unfold sweep_step. rewrite Hcur.
  replace (merges _ _ _ _ _ _) with true; [done|].
  symmetry. unfold merges. apply orb_true_iff. right.
  rewrite Hgap. by apply Z.leb_le.
Qed.

Lemma overlap_merges_any_thresh_witness :
  sweep_step 1 0 "ctg1"
    (Sweep 1 (Some (100, 5000)) [Call "VirSorter2" "ctg1" 100 5000 "a"] [])
    (Call "VIBRANT" "ctg1" 4990 9000 "b")
  = Sweep 1 (Some (100, 9000))
      [Call "VirSorter2" "ctg1" 100 5000 "a"; Call "VIBRANT" "ctg1" 4990 9000 "b"] [].
Proof.
  apply (overlap_merges_any_thresh 1 0 "ctg1"
           (Sweep 1 (Some (100, 5000)) [Call "VirSorter2" "ctg1" 100 5000 "a"] [])
           (Call "VIBRANT" "ctg1" 4990 9000 "b") 100 5000).
  - lia.
  - reflexivity.
  - vm_compute. reflexivity.
Defined.

(** ** Clusters are separated by more than [max_dist] *)

Section separation.
Context (overlap_thresh : Q) (max_dist : Z).
Hypothesis thresh_pos : (0 < overlap_thresh)%Q.
Hypothesis max_dist_nonneg : 0 ≤ max_dist.

Local Notation from := (sweep_from overlap_thresh max_dist).

Lemma elem_of_sweep_from cur_start cur_end acc l cl x :
  cl ∈ from cur_start cur_end acc l → x ∈ cl → x ∈ acc ++ l.
Proof.
  intros Hcl Hx. rewrite <- (sweep_from_mjoin overlap_thresh max_dist l cur_start cur_end acc).
  apply list_elem_of_join. eauto.
Qed.

(** Every call of an earlier cluster ends more than [max_dist] before any
    call of a later cluster starts. *)
Lemma sweep_from_separated l : ∀ cur_start cur_end acc,
  Forall (λ x, end_ x ≤ cur_end) acc →
  Forall (λ r, cur_start ≤ start r ∧ well_formed r) l →
  StronglySorted by_start l →
  ∀ i j ci cj x y, (i < j)%nat →
    from cur_start cur_end acc l !! i = Some ci →
    from cur_start cur_end acc l !! j = Some cj →
    x ∈ ci → y ∈ cj → end_ x + max_dist < start y.
Proof.
  induction l as [|r l IH]; intros cs ce acc Hacc Hl Hs i j ci cj x y Hij Hi Hj Hx Hy.
  { simpl in *. destruct j; [lia|done]. }
  apply Forall_cons in Hl as [[Hr Hwf] Hl]. unfold well_formed in Hwf.
  apply StronglySorted_inv in Hs as [Hs Hrl].
  simpl in Hi, Hj. destruct (merges _ _ _ _ _ _) eqn:Hm.
  - assert (Forall (λ x, end_ x ≤ Z.max ce (end_ r)) (acc ++ [r])) as Hacc'.
    { apply Forall_app. split.
      - eapply Forall_impl; [exact Hacc|]. simpl. lia.
      - repeat constructor. lia. }
    assert (Forall (λ r0, Z.min cs (start r) ≤ start r0 ∧ well_formed r0) l) as Hl'.
    { eapply Forall_impl; [exact Hl|]. intros z [? ?]. split; [lia|done]. }
    exact (IH _ _ _ Hacc' Hl' Hs i j ci cj x y Hij Hi Hj Hx Hy).
  - destruct j as [|j]; [lia|]. simpl in Hj.
    assert (Forall (λ r0, start r ≤ start r0 ∧ well_formed r0) l) as Hl'.
    { apply Forall_forall. intros z Hz. split.
      - by apply (proj1 (Forall_forall _ _) Hrl).
      - by apply (proj1 (Forall_forall _ _) Hl). }
    destruct i as [|i]; simpl in Hi.
    + injection Hi as <-.
      apply merges_inv in Hm; [|done|done|lia].
      assert (start r ≤ start y).
      { apply list_elem_of_lookup_2 in Hj.
        apply (elem_of_sweep_from _ _ _ _ _ _ Hj) in Hy.
        apply elem_of_cons in Hy as [->|Hy]; [lia|].
        by apply (proj1 (Forall_forall _ _) Hrl). }
      pose proof (proj1 (Forall_forall _ _) Hacc x Hx). simpl in *. lia.
    + assert (Forall (λ x, end_ x ≤ end_ r) [r]) as Hacc'
        by (repeat constructor; lia).
      assert (i < j)%nat as Hij' by lia.
      exact (IH _ _ _ Hacc' Hl' Hs i j ci cj x y Hij' Hi Hj Hx Hy).
Qed.

Lemma sweep_clusters_separated l :
  Forall well_formed l → StronglySorted by_start l →
  ∀ i j ci cj x y, (i < j)%nat →
    sweep_clusters overlap_thresh max_dist l !! i = Some ci →
    sweep_clusters overlap_thresh max_dist l !! j = Some cj →
    x ∈ ci → y ∈ cj → end_ x + max_dist < start y.
Proof.
  intros Hwf Hs. destruct l as [|r l]; [done|]. simpl.
  apply Forall_cons in Hwf as [Hr Hwf].
  apply StronglySorted_inv in Hs as [Hs Hrl].
  apply sweep_from_separated; [repeat constructor; lia| |done].
  apply Forall_forall. intros z Hz. split.
  - by apply (proj1 (Forall_forall _ _) Hrl).
  - by apply (proj1 (Forall_forall _ _) Hwf).
Qed.

(** No cluster straddles a cut that no call bridges. *)
Lemma sweep_from_cut p l : ∀ cur_start cur_end acc,
  Forall (λ x, left_of max_dist p x ∨ right_of p x) l →
  Forall well_formed l →
  StronglySorted by_start l →
  (Forall (left_of max_dist p) acc ∧ cur_end + max_dist < p)
  ∨ (Forall (right_of p) acc ∧ Forall (right_of p) l) →
  Forall (λ cl, Forall (left_of max_dist p) cl ∨ Forall (right_of p) cl)
    (from cur_start cur_end acc l).
Proof.
  induction l as [|r l IH]; intros cs ce acc Hcut Hwf Hs Hacc; simpl.
  { constructor; [|constructor]. destruct Hacc as [[? _]|[? _]]; [by left|by right]. }
  apply Forall_cons in Hcut as [Hr Hcut]. apply Forall_cons in Hwf as [Hrwf Hwf].
  apply StronglySorted_inv in Hs as [Hs Hrl].
  assert (right_of p r → Forall (right_of p) l) as Hright.
  { intros Hp. eapply Forall_impl; [exact Hrl|].
    unfold right_of, by_start in *. simpl. lia. }
  destruct Hacc as [[Hacc Hce]|[Hacc Hall]].
  - destruct Hr as [Hr|Hr].
    + destruct (merges _ _ _ _ _ _).
      * apply IH; [done..|]. left. split.
        { apply Forall_app. split; [done|]. by repeat constructor. }
        unfold left_of in Hr. lia.
      * constructor; [by left|]. apply IH; [done..|]. left. split.
        { by repeat constructor. }
        unfold left_of in Hr. lia.
    + rewrite merges_far; [|done|done|unfold right_of in Hr; lia].
      constructor; [by left|]. apply IH; [done..|]. right. split.
      { by repeat constructor. }
      by apply Hright.
  - apply Forall_cons in Hall as [Hr' Hall].
    destruct (merges _ _ _ _ _ _).
    + apply IH; [done..|]. right. split; [|done].
      apply Forall_app. split; [done|]. by repeat constructor.
    + constructor; [by right|]. apply IH; [done..|]. right. split; [|done].
      by repeat constructor.
Qed.

Lemma sweep_clusters_cut p l :
  Forall (λ x, left_of max_dist p x ∨ right_of p x) l →
  Forall well_formed l →
  StronglySorted by_start l →
  Forall (λ cl, Forall (left_of max_dist p) cl ∨ Forall (right_of p) cl)
    (sweep_clusters overlap_thresh max_dist l).
Proof.
  intros Hcut Hwf Hs. destruct l as [|r l]; [constructor|]. simpl.
  pose proof Hcut as [Hr Hcut']%Forall_cons.
  pose proof Hwf as [Hrwf Hwf']%Forall_cons.
  pose proof Hs as [Hs' Hrl]%StronglySorted_inv.
  apply sweep_from_cut; [done..|].
  destruct Hr as [Hr|Hr].
  - left. split; [by repeat constructor|]. done.
  - right. split; [by repeat constructor|].
    eapply Forall_impl; [exact Hrl|].
    unfold right_of, by_start in *. simpl. lia.
Qed.
End separation.

(** ** Reading the members table *)

(** A row of the members table says in which cluster of its contig the call
    lies. *)
Lemma elem_of_cluster_by_contig calls overlap_thresh max_dist m :
  m ∈ cluster_by_contig calls overlap_thresh max_dist
  ↔ ∃ i cl, cluster_idx m = S i
      ∧ clusters_of overlap_thresh max_dist (contig (row m)) calls !! i = Some cl
      ∧ row m ∈ cl.
Proof.
  remember (contig (row m)) as c eqn:Ec.
  pose proof (clusters_of_contig overlap_thresh max_dist c calls) as Hc.
  transitivity (m ∈ filter (λ m', contig (row m') = c)
                      (cluster_by_contig calls overlap_thresh max_dist)).
  { rewrite list_elem_of_filter. naive_solver. }
  rewrite cluster_by_contig_contig, cluster_contig_clusters_of, list_elem_of_join.
  split.
  - intros (sub & Hm & [i Hi]%list_elem_of_lookup).
    rewrite tag_from_lookup in Hi.
    destruct (clusters_of _ _ _ _ !! i) as [cl|] eqn:E; [|done].
    simpl in Hi. injection Hi as <-.
    apply list_elem_of_fmap in Hm as (r & -> & Hr).
    exists i, cl. split; [done|]. split; [done|]. simpl.
    rewrite set_contig_id; [done|].
    by apply (proj1 (Forall_forall _ _) (Forall_lookup_1 _ _ _ _ Hc E)).
  - intros (i & cl & Hk & E & Hr).
    exists ((λ r, Member (set_contig c r) (1 + i)) <$> cl). split.
    + apply list_elem_of_fmap. exists (row m). split; [|done].
      rewrite set_contig_id by done. destruct m; simpl in *. by subst.
    + apply (list_elem_of_lookup_2 _ i). by rewrite tag_from_lookup, E.
Qed.

Lemma clusters_of_elem_of overlap_thresh max_dist c calls i cl x :
  clusters_of overlap_thresh max_dist c calls !! i = Some cl → x ∈ cl →
  x ∈ calls ∧ contig x = c.
Proof.
  intros E Hx.
  assert (x ∈ mjoin (clusters_of overlap_thresh max_dist c calls)) as Hin.
  { apply list_elem_of_join. exists cl. split; [done|]. by eapply list_elem_of_lookup_2. }
  unfold clusters_of in Hin.
  rewrite sweep_clusters_mjoin, sort_values_elem_of in Hin.
  unfold calls_of in Hin. by apply list_elem_of_filter in Hin as [? ?].
Qed.

Lemma sorted_calls_well_formed c calls :
  Forall well_formed calls →
  Forall well_formed (sort_values start_end_leb (calls_of c calls)).
Proof.
  intros Hwf. rewrite sort_values_Permutation.
  apply Forall_forall. intros r [_ Hr]%list_elem_of_filter.
  by apply (proj1 (Forall_forall _ _) Hwf).
Qed.

(** Calls of one contig that lie in different clusters are more than
    [max_dist] apart. *)
Lemma clusters_of_separated overlap_thresh max_dist c calls i j ci cj x y :
  (0 < overlap_thresh)%Q → 0 ≤ max_dist → Forall well_formed calls →
  (i < j)%nat →
  clusters_of overlap_thresh max_dist c calls !! i = Some ci →
  clusters_of overlap_thresh max_dist c calls !! j = Some cj →
  x ∈ ci → y ∈ cj → end_ x + max_dist < start y.
Proof.
  intros Hthr Hmd Hwf. unfold clusters_of.
  apply sweep_clusters_separated; [done..| |apply sorted_by_start].
  by apply sorted_calls_well_formed.
Qed.

Lemma clusters_of_cut overlap_thresh max_dist c calls p i cl :
  (0 < overlap_thresh)%Q → 0 ≤ max_dist → Forall well_formed calls →
  (∀ x, x ∈ calls → contig x = c → ¬ bridges max_dist p x) →
  clusters_of overlap_thresh max_dist c calls !! i = Some cl →
  Forall (left_of max_dist p) cl ∨ Forall (right_of p) cl.
Proof.
  intros Hthr Hmd Hwf Hcut E.
  apply (Forall_lookup_1
           (λ cl, Forall (left_of max_dist p) cl ∨ Forall (right_of p) cl) _ _ _)
    with (2 := E).
  unfold clusters_of.
  apply sweep_clusters_cut; [done..| | |apply sorted_by_start].
  - apply Forall_forall. intros x Hx.
    rewrite sort_values_elem_of in Hx.
    apply list_elem_of_filter in Hx as [Hc Hx].
    specialize (Hcut x Hx Hc). unfold bridges, left_of, right_of in *. lia.
  - by apply sorted_calls_well_formed.
Qed.

Lemma default_overlap_thresh_pos : (0 < default_overlap_thresh)%Q.
Proof. reflexivity. Qed.

(** C4.  Under the default parameters, two calls of one contig whose
    reciprocal overlap is at least 0.5 lie in the same cluster; and two calls
    on either side of a cut that no call of the contig bridges, the left one
    ending more than [max_dist] before it, lie in different clusters. *)
Theorem merge_correctness calls a b ka kb :
  let members := cluster_by_contig calls default_overlap_thresh default_max_dist in
  Forall well_formed calls →
  contig a = contig b →
  Member a ka ∈ members → Member b kb ∈ members →
  (Qle_bool (1 # 2) (reciprocal_overlap a b) = true → ka = kb)
  ∧ (∀ p, end_ a + default_max_dist < p → p ≤ start b →
       (∀ x, x ∈ calls → contig x = contig a → ¬ bridges default_max_dist p x) →
       ka ≠ kb).
Proof.
  intros members Hwf Hab Ha Hb.
  apply elem_of_cluster_by_contig in Ha as (i & ci & Hka & Ei & Ha).
  apply elem_of_cluster_by_contig in Hb as (j & cj & Hkb & Ej & Hb).
  simpl in *. subst ka kb. rewrite <- Hab in Ej.
  pose proof default_overlap_thresh_pos as Hthr.
  assert (0 ≤ default_max_dist) as Hmd by done.
  assert (well_formed a ∧ well_formed b) as [Hwa Hwb].
  { split; apply (proj1 (Forall_forall _ _) Hwf).
    - exact (proj1 (clusters_of_elem_of _ _ _ _ _ _ _ Ei Ha)).
    - exact (proj1 (clusters_of_elem_of _ _ _ _ _ _ _ Ej Hb)). }
  unfold well_formed in *. split.
  - intros Hov. apply reciprocal_overlap_inter in Hov; [|done].
    unfold inter_of in Hov. f_equal.
    destruct (Nat.lt_total i j) as [Hij|[Hij|Hij]]; [|done|].
    + pose proof (clusters_of_separated _ _ _ _ _ _ _ _ _ _
                    Hthr Hmd Hwf Hij Ei Ej Ha Hb). lia.
    + pose proof (clusters_of_separated _ _ _ _ _ _ _ _ _ _
                    Hthr Hmd Hwf Hij Ej Ei Hb Ha). lia.
  - intros p Hap Hpb Hcut [= ->]. rewrite Ei in Ej. injection Ej as <-.
    destruct (clusters_of_cut _ _ _ _ _ _ _ Hthr Hmd Hwf Hcut Ei) as [Hl|Hr].
    + pose proof (proj1 (Forall_forall _ _) Hl b Hb) as H.
      unfold left_of in H. lia.
    + pose proof (proj1 (Forall_forall _ _) Hr a Ha) as H.
      unfold right_of in H. lia.
Qed.

Lemma merge_correctness_witness :
  let vs := Call "VirSorter2" "ctg1" 100 5000 "ctg1_prophage_100_5000" in
  let gn := Call "GeNomad" "ctg1" 110 4995 "ctg1_prophage_110_4995" in
  let vb := Call "VIBRANT" "ctg1" 7000 7100 "ctg1_prophage_7000_7100" in
  let members :=
    cluster_by_contig [vs; vb; gn] default_overlap_thresh default_max_dist in
  members = [Member vs 1; Member gn 1; Member vb 2]
  ∧ Qle_bool (1 # 2) (reciprocal_overlap vs gn) = true
  ∧ ¬ bridges default_max_dist 6500 vs
  ∧ ¬ bridges default_max_dist 6500 gn
  ∧ ¬ bridges default_max_dist 6500 vb
  ∧ (1 = 1)%nat ∧ (1 ≠ 2)%nat.
Proof.
  intros vs gn vb members.
  assert (Forall well_formed [vs; vb; gn]) as Hwf.
  { repeat constructor; unfold well_formed; simpl; lia. }
  assert (members = [Member vs 1; Member gn 1; Member vb 2]) as Hm
    by (vm_compute; reflexivity).
  assert (Member vs 1 ∈ members ∧ Member gn 1 ∈ members ∧ Member vb 2 ∈ members)
    as (H1 & H2 & H3).
  { repeat split; apply (bool_decide_unpack _); vm_compute; exact I. }
  assert (Qle_bool (1 # 2) (reciprocal_overlap vs gn) = true) as Hov
    by (vm_compute; reflexivity).
  assert (∀ x, x ∈ [vs; vb; gn] → contig x = contig vs →
            ¬ bridges default_max_dist 6500 x) as Hcut.
  { intros x Hx _. unfold bridges, left_of, right_of, default_max_dist.
    repeat (apply elem_of_cons in Hx as [->|Hx]); simpl; [lia..|].
    by apply elem_of_nil in Hx. }
  split; [done|]. split; [done|].
  split; [apply Hcut; [apply (bool_decide_unpack _); vm_compute; exact I|done]|].
  split; [apply Hcut; [apply (bool_decide_unpack _); vm_compute; exact I|done]|].
  split; [apply Hcut; [apply (bool_decide_unpack _); vm_compute; exact I|done]|].
  split.
  - apply (proj1 (merge_correctness [vs; vb; gn] vs gn 1 1 Hwf eq_refl H1 H2) Hov).
  - apply (proj2 (merge_correctness [vs; vb; gn] vs vb 1 2 Hwf eq_refl H1 H3) 6500).
    + simpl. unfold default_max_dist. lia.
    + simpl. lia.
    + exact Hcut.
Defined.

(** ** The adjacency dict *)

Lemma adj_init_lookup_seq a n u :
  (list_to_map ((λ i, (i, ∅)) <$> seq a n) : gmap nat (gset nat)) !! u
  = if decide (a ≤ u < a + n)%nat then Some ∅ else None.
Proof.
  revert a. induction n as [|n IH]; intros a; simpl.
  - rewrite lookup_empty. case_decide; [lia|done].
  - destruct (decide (a = u)) as [->|Hne].
    + rewrite lookup_insert_eq. case_decide; [done|lia].
    + rewrite lookup_insert_ne, IH by done. repeat case_decide; try done; lia.
Qed.

Lemma adj_init_lookup n u :
  adj_init n !! u = if decide (u < n)%nat then Some ∅ else None.
Proof.
  unfold adj_init. rewrite adj_init_lookup_seq.
  repeat case_decide; try done; lia.
Qed.

Lemma add_edge_dom adj i j u :
  is_Some (add_edge adj i j !! u) ↔ is_Some (adj !! u).
Proof. unfold add_edge. by rewrite !lookup_alter_is_Some. Qed.

Lemma add_edge_neighbour adj i j u v :
  is_Some (adj !! i) → is_Some (adj !! j) →
  neighbour (add_edge adj i j) u v
  ↔ neighbour adj u v ∨ (u = i ∧ v = j) ∨ (u = j ∧ v = i).
Proof.
  intros [si Hi] [sj Hj]. unfold neighbour, add_edge.
  destruct (decide (j = u)) as [->|Hju]; [rewrite lookup_alter_eq|rewrite lookup_alter_ne by done];
  (destruct (decide (i = u)) as [->|Hiu]; [rewrite lookup_alter_eq|rewrite lookup_alter_ne by done]).
  - rewrite Hi. simpl. split.
    + intros (s & [= <-] & Hv). set_solver.
    + intros [(s & [= <-] & Hv)|[[_ ->]|[_ ->]]]; eexists; (split; [done|set_solver]).
  - rewrite Hj. simpl. split.
    + intros (s & [= <-] & Hv). set_solver.
    + intros [(s & [= <-] & Hv)|[[? ->]|[_ ->]]]; try done;
        eexists; (split; [done|set_solver]).
  - rewrite Hi. simpl. split.
    + intros (s & [= <-] & Hv). set_solver.
    + intros [(s & [= <-] & Hv)|[[_ ->]|[? ->]]]; try done;
        eexists; (split; [done|set_solver]).
  - naive_solver.
Qed.

Section build_adj.
Context (values : list Z) (tol : Z).

Local Notation inner i :=
  (foldl (λ adj j, if close values tol i j then add_edge adj i j else adj)).

Lemma inner_loop_spec i js : ∀ adj,
  is_Some (adj !! i) → Forall (λ j, is_Some (adj !! j)) js →
  (∀ u, is_Some (inner i adj js !! u) ↔ is_Some (adj !! u))
  ∧ ∀ u v, neighbour (inner i adj js) u v
      ↔ neighbour adj u v
        ∨ ∃ j, j ∈ js ∧ close values tol i j = true
               ∧ ((u = i ∧ v = j) ∨ (u = j ∧ v = i)).
Proof.
  induction js as [|j js IH]; intros adj Hi Hjs; simpl.
  - split; [done|]. intros u v. split; [by left|].
    intros [?|(j & ?%elem_of_nil & _)]; done.
  - apply Forall_cons in Hjs as [Hj Hjs].
    destruct (close values tol i j) eqn:Hc.
    + destruct (IH (add_edge adj i j)) as [Hdom Hnb].
      { by apply add_edge_dom. }
      { eapply Forall_impl; [done|]. intros k. by rewrite add_edge_dom. }
      split.
      * intros u. by rewrite Hdom, add_edge_dom.
      * intros u v. rewrite Hnb, add_edge_neighbour by done.
        split.
        -- intros [[?|H]|(k & Hk & Hck & H)]; [by left| |].
           ++ right. exists j. split; [left|]. by split.
           ++ right. exists k. split; [by right|]. by split.
        -- intros [?|(k & [->|Hk]%elem_of_cons & Hck & H)].
           ++ by left; left.
           ++ left; by right.
           ++ right. eauto.
    + destruct (IH adj Hi Hjs) as [Hdom Hnb]. split; [done|].
      intros u v. rewrite Hnb. split.
      * intros [?|(k & Hk & Hck & H)]; [by left|].
        right. exists k. split; [by right|]. by split.
      * intros [?|(k & [->|Hk]%elem_of_cons & Hck & H)]; [by left|congruence|].
        right. eauto.
Qed.

Local Notation outer n :=
  (foldl (λ adj i, inner i adj (seq (S i) (n - S i)))).

Lemma outer_loop_spec n nodes : ∀ adj,
  (∀ u, is_Some (adj !! u) ↔ (u < n)%nat) →
  Forall (λ i, (i < n)%nat) nodes →
  (∀ u, is_Some (outer n adj nodes !! u) ↔ (u < n)%nat)
  ∧ ∀ u v, neighbour (outer n adj nodes) u v
      ↔ neighbour adj u v
        ∨ ∃ i j, i ∈ nodes ∧ (i < j < n)%nat ∧ close values tol i j = true
                 ∧ ((u = i ∧ v = j) ∨ (u = j ∧ v = i)).
Proof.
  induction nodes as [|i nodes IH]; intros adj Hdom His; simpl.
  - split; [done|]. intros u v. split; [by left|].
    intros [?|(i & j & ?%elem_of_nil & _)]; done.
  - apply Forall_cons in His as [Hi His].
    destruct (inner_loop_spec i (seq (S i) (n - S i)) adj) as [Hdom' Hnb'].
    { by apply Hdom. }
    { apply Forall_forall. intros j Hj%elem_of_seq. apply Hdom. lia. }
    destruct (IH (inner i adj (seq (S i) (n - S i)))) as [Hdom'' Hnb''].
    { intros u. by rewrite Hdom'. }
    { done. }
    split; [done|]. intros u v. rewrite Hnb'', Hnb'. split.
    + intros [[?|(j & Hj%elem_of_seq & Hc & H)]|(i' & j & Hi' & Hij & Hc & H)].
      * by left.
      * right. exists i, j. split; [left|]. split; [lia|]. by split.
      * right. exists i', j. split; [by right|]. by split.
    + intros [?|(i' & j & [->|Hi']%elem_of_cons & Hij & Hc & H)].
      * by left; left.
      * left. right. exists j. split; [|done]. apply elem_of_seq. lia.
      * right. eauto 10.
Qed.

Lemma close_sym i j : close values tol i j = close values tol j i.
Proof.
  unfold close. f_equal.
  replace (values !!! j - values !!! i) with (- (values !!! i - values !!! j)) by lia.
  by rewrite Z.abs_opp.
Qed.

Lemma build_adj_dom u :
  is_Some (build_adj values tol !! u) ↔ (u < length values)%nat.
Proof.
  unfold build_adj.
  apply (outer_loop_spec (length values) (seq 0 (length values)) (adj_init (length values))).
  - intros v. rewrite adj_init_lookup. case_decide; [|by split; [intros []|lia]].
    split; [done|eauto].
  - apply Forall_forall. intros i Hi%elem_of_seq. lia.
Qed.

(** The dict holds exactly the edges of the tolerance graph. *)
Lemma build_adj_neighbour u v :
  neighbour (build_adj values tol) u v ↔ adjacent values tol u v.
Proof.
  unfold build_adj.
  destruct (outer_loop_spec (length values) (seq 0 (length values))
              (adj_init (length values))) as [_ Hnb].
  { intros w. rewrite adj_init_lookup. case_decide; [|by split; [intros []|lia]].
    split; [done|eauto]. }
  { apply Forall_forall. intros i Hi%elem_of_seq. lia. }
  rewrite Hnb. unfold adjacent. split.
  - intros [(s & Hs & Hv)|(i & j & Hi & Hij & Hc & H)].
    + rewrite adj_init_lookup in Hs. case_decide; [|done].
      injection Hs as <-. set_solver.
    + unfold close in Hc. apply Z.leb_le in Hc.
      destruct H as [[-> ->]|[-> ->]].
      * repeat split; [lia..|done].
      * repeat split; [lia..|].
        replace (values !!! j - values !!! i)
          with (- (values !!! i - values !!! j)) by lia.
        by rewrite Z.abs_opp.
  - intros (Hu & Hv & Hne & Hc). right.
    destruct (Nat.lt_total u v) as [Hlt|[?|Hlt]]; [|done|].
    + exists u, v. split; [apply elem_of_seq; lia|]. split; [lia|].
      split; [by apply Z.leb_le|]. by left.
    + exists v, u. split; [apply elem_of_seq; lia|]. split; [lia|].
      split; [|by right]. rewrite close_sym. by apply Z.leb_le.
Qed.
End build_adj.

Lemma adjacent_sym values tol i j : adjacent values tol i j → adjacent values tol j i.
Proof.
  intros (Hi & Hj & Hne & Hc). repeat split; [done..|].
  replace (values !!! j - values !!! i) with (- (values !!! i - values !!! j)) by lia.
  by rewrite Z.abs_opp.
Qed.

(** ** The traversal *)

Lemma push_unseen_foldl (seen : gset nat) l : ∀ stack v,
  v ∈ foldl (λ st w, if decide (w ∈ seen) then st else w :: st) stack l
  ↔ v ∈ stack ∨ (v ∈ l ∧ v ∉ seen).
Proof.
  induction l as [|w l IH]; intros stack v; simpl.
  - split; [by left|]. intros [?|[?%elem_of_nil _]]; done.
  - rewrite IH. case_decide; rewrite !elem_of_cons; naive_solver.
Qed.

Lemma push_unseen_foldl_length (seen : gset nat) l : ∀ stack,
  (length (foldl (λ st w, if decide (w ∈ seen) then st else w :: st) stack l)
   ≤ length stack + length l)%nat.
Proof.
  induction l as [|w l IH]; intros stack; simpl; [lia|].
  etrans; [apply IH|]. case_decide; simpl; lia.
Qed.

Lemma elem_of_push_unseen seen stack nbrs v :
  v ∈ push_unseen seen stack nbrs ↔ v ∈ stack ∨ (v ∈ nbrs ∧ v ∉ seen).
Proof. unfold push_unseen. by rewrite push_unseen_foldl, elem_of_elements. Qed.

Lemma push_unseen_length seen stack nbrs :
  (length (push_unseen seen stack nbrs) ≤ length stack + size nbrs)%nat.
Proof. apply push_unseen_foldl_length. Qed.

Section component.
Context (adj : gmap nat (gset nat)) (n : nat).
Hypothesis adj_dom : ∀ u, is_Some (adj !! u) ↔ (u < n)%nat.
Hypothesis adj_bound : ∀ u v, neighbour adj u v → (v < n)%nat.
Hypothesis adj_sym : ∀ u v, neighbour adj u v → neighbour adj v u.

Local Notation R := (neighbour adj).
Local Notation U := (set_seq 0 n : gset nat).

Local Notation closed := (closed adj).

Lemma reachable_bound i v : (i < n)%nat → rtc R i v → (v < n)%nat.
Proof.
  intros Hi. revert v. apply rtc_ind_r; [done|].
  intros w v _ Hwv _. by eapply adj_bound.
Qed.

Lemma neighbours_size u nbrs : adj !! u = Some nbrs → (size nbrs ≤ n)%nat.
Proof.
  intros Hu. rewrite <- (size_set_seq 0 n (C := gset nat)).
  apply subseteq_size. intros v Hv. apply elem_of_set_seq.
  split; [lia|]. simpl. apply (adj_bound u). by exists nbrs.
Qed.

Lemma unseen_size_mark u (seen : gset nat) :
  (u < n)%nat → u ∉ seen →
  size (U ∖ seen) = S (size (U ∖ ({[u]} ∪ seen))).
Proof.
  intros Hu Hseen.
  assert (U ∖ seen = {[u]} ∪ U ∖ ({[u]} ∪ seen)) as ->.
  { apply set_eq. intros x. destruct (decide (x = u)) as [->|].
    - rewrite elem_of_difference, elem_of_union, elem_of_singleton, elem_of_set_seq.
      split; [by left|]. intros _. split; [lia|done].
    - set_solver. }
  rewrite size_union by set_solver. by rewrite size_singleton.
Qed.

Lemma unseen_size_bound (seen : gset nat) : (size (U ∖ seen) ≤ n)%nat.
Proof.
  etrans; [apply (subseteq_size _ U); set_solver|].
  by rewrite size_set_seq.
Qed.

Context (seen0 : gset nat) (i : nat).
Hypothesis seen0_closed : closed seen0.
Hypothesis i_bound : (i < n)%nat.
Hypothesis i_fresh : i ∉ seen0.

Local Notation component_inv := (component_inv adj seen0 i).
Local Notation potential := (potential n).

Lemma component_loop fuel : ∀ stack seen comp,
  component_inv stack seen comp →
  (potential stack seen < fuel)%nat →
  ∃ seen' comp', component fuel adj stack seen comp = Ok (seen', comp')
                 ∧ component_inv [] seen' comp'.
Proof.
  induction fuel as [|fuel IH]; intros stack seen comp Hinv Hfuel; [lia|].
  destruct stack as [|u stack]; simpl; [eauto|].
  destruct Hinv as (Hseen & Hdisj & Hstack & Hcomp & Hclosed & Hi).
  unfold potential in Hfuel. simpl in Hfuel.
  case_decide as Hu.
  - apply IH; [|unfold potential; lia].
    split; [done|]. split; [done|]. split; [|split; [done|split]].
    + intros w Hw. apply Hstack. by right.
    + intros w v Hw Hwv. destruct (Hclosed w v Hw Hwv) as [?|[->|?]%elem_of_cons]; auto.
    + destruct Hi as [?|[->|?]%elem_of_cons]; auto. left. set_solver.
  - assert (rtc R i u) as Hiu by (apply Hstack; left).
    pose proof (reachable_bound i u i_bound Hiu) as Hun.
    destruct (proj2 (adj_dom u) Hun) as [nbrs Hnbrs].
    unfold dict_get. rewrite Hnbrs. simpl.
    pose proof (neighbours_size u nbrs Hnbrs) as Hsize.
    pose proof (push_unseen_length ({[u]} ∪ seen) stack nbrs) as Hlen.
    apply IH.
    + split; [set_solver|]. split; [set_solver|].
      split; [|split; [|split]].
      * intros w [Hw|[Hw _]]%elem_of_push_unseen.
        -- apply Hstack. by right.
        -- eapply rtc_r; [done|]. by exists nbrs.
      * intros w [->%elem_of_singleton|Hw]%elem_of_union; auto.
      * intros w v [->%elem_of_singleton|Hw]%elem_of_union Hwv.
        -- destruct Hwv as (s & Hs & Hv). rewrite Hnbrs in Hs. injection Hs as <-.
           destruct (decide (v ∈ {[u]} ∪ seen)); [by left|].
           right. apply elem_of_push_unseen. by right.
        -- destruct (Hclosed w v Hw Hwv) as [?|[->|?]%elem_of_cons].
           ++ left. set_solver.
           ++ left. set_solver.
           ++ right. apply elem_of_push_unseen. by left.
      * destruct Hi as [?|[->|?]%elem_of_cons].
        -- left. set_solver.
        -- left. set_solver.
        -- right. apply elem_of_push_unseen. by left.
    + unfold potential. rewrite (unseen_size_mark u seen) in Hfuel by done.
      simpl in Hfuel. lia.
Qed.

(** Started on a fresh node, the loop marks exactly the nodes connected to
    it. *)
Lemma component_spec :
  ∃ comp, component (component_fuel n) adj [i] seen0 ∅ = Ok (seen0 ∪ comp, comp)
          ∧ (∀ v, v ∈ comp ↔ rtc R i v)
          ∧ closed (seen0 ∪ comp).
Proof.
  destruct (component_loop (component_fuel n) [i] seen0 ∅) as (seen & comp & Hrun & Hinv).
  { split; [set_solver|]. split; [set_solver|]. split; [|split; [|split]].
    - by intros u ->%list_elem_of_singleton.
    - set_solver.
    - set_solver.
    - right. left. }
  { unfold potential, component_fuel. simpl.
    pose proof (unseen_size_bound seen0). nia. }
  destruct Hinv as (-> & Hdisj & _ & Hcomp & Hclosed & Hi).
  assert (i ∈ comp) as Hic.
  { destruct Hi as [?|?%elem_of_nil]; done. }
  assert (∀ u v, u ∈ comp → R u v → v ∈ comp) as Hcl.
  { intros u v Hu Huv.
    destruct (Hclosed u v Hu Huv) as [[Hv|Hv]%elem_of_union|?%elem_of_nil]; [|done..].
    apply adj_sym in Huv. pose proof (seen0_closed v u Hv Huv). set_solver. }
  exists comp. split; [done|]. split.
  - intros v. split; [apply Hcomp|].
    revert v. apply rtc_ind_r; [done|].
    intros w v _ Hwv Hw. by eapply Hcl.
  - intros u v [Hu|Hu]%elem_of_union Huv.
    + apply elem_of_union. left. by eapply seen0_closed.
    + apply elem_of_union. right. by eapply Hcl.
Qed.
End component.

(** ** The components, in order of discovery *)

Section components.
Context (adj : gmap nat (gset nat)) (n : nat).
Hypothesis adj_dom : ∀ u, is_Some (adj !! u) ↔ (u < n)%nat.
Hypothesis adj_bound : ∀ u v, neighbour adj u v → (v < n)%nat.
Hypothesis adj_sym : ∀ u v, neighbour adj u v → neighbour adj v u.

Local Notation R := (neighbour adj).

Lemma reachable_sym u v : rtc R u v → rtc R v u.
Proof.
  revert v. apply rtc_ind_r; [done|].
  intros w v _ Hwv Hwu. eapply rtc_l; [by apply adj_sym|done].
Qed.

Lemma component_of_eq i j g1 g2 :
  component_of adj i g1 → component_of adj j g2 → j ∈ g1 → g1 = g2.
Proof.
  intros H1 H2 Hj. apply H1 in Hj. apply set_eq. intros v.
  rewrite (H1 v), (H2 v). split; intros Hv.
  - etrans; [by apply reachable_sym|done].
  - by etrans.
Qed.

Lemma components_spec nodes : ∀ seen groups,
  closed adj seen → Forall (λ i, (i < n)%nat) nodes →
  ∃ found, components n adj nodes seen groups = Ok (groups ++ found)
    ∧ (∀ g, g ∈ found → (2 ≤ size g)%nat
         ∧ ∃ i, i ∈ nodes ∧ i ∉ seen ∧ component_of adj i g)
    ∧ (∀ i g, i ∈ nodes → i ∉ seen → component_of adj i g →
         (2 ≤ size g)%nat → g ∈ found).
Proof.
  induction nodes as [|i nodes IH]; intros seen groups Hcl Hn; simpl.
  { exists []. rewrite app_nil_r. split; [done|]. split.
    - by intros g ?%elem_of_nil.
    - by intros i g ?%elem_of_nil. }
  apply Forall_cons in Hn as [Hi Hn].
  case_decide as Hseen.
  { destruct (IH seen groups Hcl Hn) as (found & Hrun & H1 & H2).
    exists found. split; [done|]. split.
    - intros g Hg. destruct (H1 g Hg) as (? & j & ? & ? & ?).
      split; [done|]. exists j. split; [by right|]. done.
    - intros j g [->|Hj]%elem_of_cons; [done|]. by apply H2. }
  destruct (component_spec adj n adj_dom adj_bound adj_sym seen i Hcl Hi Hseen)
    as (comp & Hrun & Hcomp & Hcl').
  rewrite Hrun. simpl.
  assert (∀ j g, j ∈ i :: nodes → j ∉ seen → component_of adj j g →
            j ∈ comp ∧ g = comp ∨ j ∈ nodes ∧ j ∉ seen ∪ comp) as Hcase.
  { intros j g Hj Hjs Hg. destruct (decide (j ∈ comp)) as [Hjc|Hjc].
    - left. split; [done|]. symmetry. by eapply component_of_eq.
    - right. apply elem_of_cons in Hj as [->|Hj].
      + exfalso. apply Hjc, Hcomp. done.
      + split; [done|]. set_solver. }
  case_decide as Hsize.
  - destruct (IH (seen ∪ comp) (groups ++ [comp]) Hcl' Hn) as (found & Hrun' & H1 & H2).
    exists (comp :: found). rewrite Hrun', <- app_assoc. split; [done|]. split.
    + intros g [->|Hg]%elem_of_cons.
      * split; [done|]. exists i. split; [left|]. done.
      * destruct (H1 g Hg) as (? & j & ? & ? & ?).
        split; [done|]. exists j. split; [by right|]. split; [set_solver|done].
    + intros j g Hj Hjs Hg Hg2.
      destruct (Hcase j g Hj Hjs Hg) as [[_ ->]|[Hj' Hjs']]; [left|].
      right. by eapply H2.
  - destruct (IH (seen ∪ comp) groups Hcl' Hn) as (found & Hrun' & H1 & H2).
    exists found. split; [done|]. split.
    + intros g Hg. destruct (H1 g Hg) as (? & j & ? & ? & ?).
      split; [done|]. exists j. split; [by right|]. split; [set_solver|done].
    + intros j g Hj Hjs Hg Hg2.
      destruct (Hcase j g Hj Hjs Hg) as [[_ ->]|[Hj' Hjs']]; [lia|].
      by eapply H2.
Qed.
End components.

(** ** Indexing and the median *)

Lemma getitem_ok `{Inhabited A} (l : list A) i :
  (i < length l)%nat → getitem l i = Ok (l !!! i).
Proof.
  intros Hi. unfold getitem.
  destruct (lookup_lt_is_Some_2 l i Hi) as [x Hx].
  by rewrite Hx, (list_lookup_total_correct _ _ _ Hx).
Qed.

Lemma traverse_ok {A B} (f : A → res B) (g : A → B) l :
  Forall (λ x, f x = Ok (g x)) l → traverse f l = Ok (g <$> l).
Proof.
  induction 1 as [|x l Hx Hl IH]; simpl; [done|]. by rewrite Hx, IH.
Qed.

Lemma traverse_getitem `{Inhabited A} (l : list A) idx :
  Forall (λ k, (k < length l)%nat) idx →
  traverse (getitem l) idx = Ok (values_at l idx).
Proof.
  intros Hidx. apply traverse_ok. eapply Forall_impl; [done|].
  intros k. apply getitem_ok.
Qed.

Lemma median_int_ok xs : xs ≠ [] → median_int xs = Ok (median_trunc xs).
Proof.
  intros Hne. unfold median_int, median_trunc.
  assert (0 < length xs)%nat as Hlen by (destruct xs; [done|simpl; lia]).
  pose proof (Nat.div_lt (length xs) 2 Hlen ltac:(lia)) as Hhalf.
  pose proof (sort_values_length Z.leb xs) as Hsl.
  remember (sort_values Z.leb xs) as sorted eqn:Es.
  remember (length xs) as m eqn:Em.
  destruct m as [|m]; [lia|]. cbv beta iota zeta.
  rewrite !getitem_ok by lia.
  by destruct (Nat.even (S m)).
Qed.

Lemma median_int_nil : median_int [] = Raise ValueError.
Proof. done. Qed.

Lemma quot_mean_bounds a b lo hi :
  lo ≤ a ≤ hi → lo ≤ b ≤ hi → lo ≤ Z.quot (a + b) 2 ≤ hi.
Proof.
  intros Ha Hb. pose proof (Z.quot_rem' (a + b) 2) as Hqr.
  destruct (Z_le_gt_dec 0 (a + b)) as [Hs|Hs].
  - pose proof (Z.rem_bound_pos (a + b) 2 Hs ltac:(lia)) as Hr.
    revert Hqr Hr. generalize (Z.quot (a + b) 2), (Z.rem (a + b) 2). lia.
  - pose proof (Z.rem_bound_pos_neg (a + b) 2 ltac:(lia) ltac:(lia)) as Hr.
    revert Hqr Hr. generalize (Z.quot (a + b) 2), (Z.rem (a + b) 2). lia.
Qed.

(** The median lies between any bounds of the sequence. *)
Lemma median_trunc_bounds xs lo hi :
  xs ≠ [] → Forall (λ x, lo ≤ x ≤ hi) xs → lo ≤ median_trunc xs ≤ hi.
Proof.
  intros Hne Hall. unfold median_trunc.
  assert (0 < length xs)%nat as Hlen by (destruct xs; [done|simpl; lia]).
  pose proof (Nat.div_lt (length xs) 2 Hlen ltac:(lia)) as Hhalf.
  assert (∀ k, (k < length xs)%nat → lo ≤ sort_values Z.leb xs !!! k ≤ hi) as Hk.
  { intros k Hk. apply (proj1 (Forall_forall _ _) Hall).
    rewrite <- (sort_values_elem_of Z.leb). apply list_elem_of_lookup_total_2.
    by rewrite sort_values_length. }
  destruct (Nat.even (length xs)).
  - apply quot_mean_bounds; apply Hk; lia.
  - apply Hk; lia.
Qed.

(** On values that are not negative, cutting and flooring agree. *)
Lemma median_trunc_floor xs :
  Forall (λ x, 0 ≤ x) xs → median_trunc xs = median_floor xs.
Proof.
  intros Hall. unfold median_trunc, median_floor.
  destruct (Nat.even (length xs)); [|done].
  assert (∀ k, 0 ≤ sort_values Z.leb xs !!! k) as Hk.
  { intros k. destruct (decide (k < length (sort_values Z.leb xs))%nat) as [Hlt|Hge].
    - apply (proj1 (Forall_forall _ _) Hall).
      rewrite <- (sort_values_elem_of Z.leb). by apply list_elem_of_lookup_total_2.
    - rewrite list_lookup_total_alt, lookup_ge_None_2 by lia. done. }
  apply Z.quot_div_nonneg; [|lia].
  pose proof (Hk (length xs / 2 - 1)%nat). pose proof (Hk (length xs / 2)%nat). lia.
Qed.

(** ** Selecting the best group *)

Lemma elem_of_indices g k : k ∈ indices g ↔ k ∈ g.
Proof. unfold indices. by rewrite sort_values_elem_of, elem_of_elements. Qed.

Lemma indices_length g : length (indices g) = size g.
Proof. unfold indices. by rewrite sort_values_length. Qed.

Lemma values_at_length `{Inhabited A} (l : list A) idx :
  length (values_at l idx) = length idx.
Proof. unfold values_at. by rewrite length_fmap. Qed.

Lemma group_key_ok values g :
  (1 ≤ size g)%nat → (∀ k, k ∈ g → (k < length values)%nat) →
  group_key values (indices g) = Ok (key_of values g).
Proof.
  intros Hsize Hg. unfold group_key, key_of, range_of, width.
  rewrite traverse_getitem; [|apply Forall_forall; intros k Hk; by apply Hg, elem_of_indices].
  simpl.
  pose proof (values_at_length values (indices g)) as Hlen.
  rewrite indices_length in Hlen.
  destruct (values_at values (indices g)) as [|v vals]; [simpl in Hlen; lia|].
  done.
Qed.

Lemma key_lt_spec k1 k2 :
  key_lt k1 k2 = true ↔ k1.1 < k2.1 ∨ (k1.1 = k2.1 ∧ k1.2 < k2.2).
Proof.
  unfold key_lt. rewrite orb_true_iff, andb_true_iff, !Z.ltb_lt, Z.eqb_eq. done.
Qed.

Lemma key_lt_false k1 k2 :
  key_lt k1 k2 = false ↔ k2.1 < k1.1 ∨ (k1.1 = k2.1 ∧ k2.2 ≤ k1.2).
Proof.
  rewrite <- not_true_iff_false, key_lt_spec. lia.
Qed.

(** The loop keeps the first group whose key no other group undercuts. *)
Lemma select_best_spec values groups : ∀ idx0 key0,
  Forall (λ g, (1 ≤ size g)%nat ∧ ∀ k, k ∈ g → (k < length values)%nat) groups →
  ∃ idx key, select_best values groups (Some (idx0, key0)) = Ok (Some (idx, key))
    ∧ key_lt key0 key = false
    ∧ (∀ g, g ∈ groups → key_lt (key_of values g) key = false)
    ∧ ((idx, key) = (idx0, key0)
       ∨ ∃ g, g ∈ groups ∧ idx = indices g ∧ key = key_of values g).
Proof.
  induction groups as [|g groups IH]; intros idx0 key0 Hg; simpl.
  { exists idx0, key0. split; [done|]. split; [apply key_lt_false; lia|].
    split; [by intros g ?%elem_of_nil|by left]. }
  apply Forall_cons in Hg as [[Hsize Hvalid] Hg].
  fold (indices g). rewrite group_key_ok by done. simpl.
  destruct (key_lt (key_of values g) key0) eqn:Hlt.
  - destruct (IH (indices g) (key_of values g) Hg) as (idx & key & Hrun & H0 & Hall & Hsel).
    exists idx, key. split; [done|].
    apply key_lt_spec in Hlt. apply key_lt_false in H0.
    split; [apply key_lt_false; lia|]. split.
    + intros g' [->|Hg']%elem_of_cons; [apply key_lt_false; lia|by apply Hall].
    + right. destruct Hsel as [[= -> ->]|(g' & Hg' & -> & ->)].
      * exists g. split; [left|done].
      * exists g'. split; [by right|done].
  - destruct (IH idx0 key0 Hg) as (idx & key & Hrun & H0 & Hall & Hsel).
    exists idx, key. split; [done|]. split; [done|].
    apply key_lt_false in Hlt. pose proof H0 as H0'. apply key_lt_false in H0'.
    split.
    + intros g' [->|Hg']%elem_of_cons; [apply key_lt_false; lia|by apply Hall].
    + destruct Hsel as [?|(g' & Hg' & -> & ->)]; [by left|].
      right. exists g'. split; [by right|done].
Qed.

Lemma select_best_first values g groups :
  Forall (λ g, (1 ≤ size g)%nat ∧ ∀ k, k ∈ g → (k < length values)%nat)
    (g :: groups) →
  ∃ best, best ∈ g :: groups
    ∧ select_best values (g :: groups) None
      = Ok (Some (indices best, key_of values best))
    ∧ ∀ g', g' ∈ g :: groups → key_lt (key_of values g') (key_of values best) = false.
Proof.
  intros Hall. pose proof Hall as [[Hsize Hvalid] Hg]%Forall_cons. simpl.
  fold (indices g). rewrite group_key_ok by done. simpl.
  destruct (select_best_spec values groups (indices g) (key_of values g) Hg)
    as (idx & key & Hrun & H0 & Hmin & Hsel).
  rewrite Hrun.
  destruct Hsel as [[= -> ->]|(g' & Hg' & -> & ->)].
  - exists g. split; [left|]. split; [done|].
    intros g' [->|Hg']%elem_of_cons; [done|by apply Hmin].
  - exists g'. split; [by right|]. split; [done|].
    intros g'' [->|Hg'']%elem_of_cons; [done|by apply Hmin].
Qed.

(** ** The majority group *)

Section best_group.
Context (values : list Z) (tol : Z).

Local Notation adj := (build_adj values tol).
Local Notation n := (length values).

Lemma build_adj_bound u v : neighbour adj u v → (v < n)%nat.
Proof. intros H%build_adj_neighbour. apply H. Qed.

Lemma build_adj_sym u v : neighbour adj u v → neighbour adj v u.
Proof. rewrite !build_adj_neighbour. apply adjacent_sym. Qed.

Lemma build_adj_connected i j :
  rtc (neighbour adj) i j ↔ connected values tol i j.
Proof.
  unfold connected. split; apply rtc_subrel; intros u v;
    by rewrite build_adj_neighbour.
Qed.

Lemma connected_bound i j :
  (i < n)%nat → connected values tol i j → (j < n)%nat.
Proof.
  intros Hi. revert j. apply rtc_ind_r; [done|].
  intros u v _ Huv _. apply Huv.
Qed.

(** The groups collected by the traversal are the components with at least
    two nodes. *)
Lemma groups_spec :
  ∃ groups, components n adj (seq 0 n) ∅ [] = Ok groups
    ∧ ∀ g, g ∈ groups ↔ qualifies values tol g.
Proof.
  destruct (components_spec adj n (build_adj_dom values tol)
              build_adj_bound build_adj_sym (seq 0 n) ∅ [])
    as (groups & Hrun & H1 & H2).
  { by intros u v ?%not_elem_of_empty. }
  { apply Forall_forall. intros i Hi%elem_of_seq. lia. }
  exists groups. split; [done|]. intros g. split.
  - intros Hg. destruct (H1 g Hg) as (Hsize & i & Hi%elem_of_seq & _ & Hc).
    split; [|done]. exists i. split; [lia|].
    intros j. by rewrite (Hc j), build_adj_connected.
  - intros [(i & Hi & Hc) Hsize]. apply (H2 i); [apply elem_of_seq; lia|set_solver| |done].
    intros j. by rewrite (Hc j), build_adj_connected.
Qed.

Lemma qualifies_valid g k : qualifies values tol g → k ∈ g → (k < n)%nat.
Proof.
  intros [(i & Hi & Hc) _] Hk. apply Hc in Hk. by eapply connected_bound.
Qed.

Context (tools : list string).
Hypothesis tools_length : length tools = n.

(** What [best_group] returns: no group when no component qualifies, and
    otherwise a qualifying component that every other one yields to, the
    median of its values and its tools. *)
Lemma best_group_cases :
  (best_group values tools tol = Ok (None, [])
   ∧ ∀ g, ¬ qualifies values tol g)
  ∨ ∃ best, qualifies values tol best
      ∧ (∀ g, qualifies values tol g → preferred values best g)
      ∧ best_group values tools tol
        = Ok (Some (median_trunc (values_at values (indices best))),
              values_at tools (indices best)).
Proof.
  destruct groups_spec as (groups & Hrun & Hgroups).
  unfold best_group. rewrite Hrun.
  destruct groups as [|g groups].
  { left. split; [done|]. intros g Hg%Hgroups. by apply elem_of_nil in Hg. }
  right. change (Ok (g :: groups) ≫= ?k) with (k (g :: groups)). cbv beta iota.
  destruct (select_best_first values g groups) as (best & Hbest & Hsel & Hmin).
  { apply Forall_forall. intros g' Hg'%Hgroups. split.
    - destruct Hg' as [_ ?]. lia.
    - intros k. by apply qualifies_valid. }
  apply Hgroups in Hbest. exists best. split; [done|]. split.
  - intros g' Hg'. apply Hgroups, Hmin, key_lt_false in Hg'.
    unfold key_of, preferred in *. simpl in Hg'.
    rewrite !indices_length in Hg'. lia.
  - rewrite Hsel. simpl.
    assert (Forall (λ k, (k < n)%nat) (indices best)) as Hvalid.
    { apply Forall_forall. intros k Hk%elem_of_indices. by eapply qualifies_valid. }
    rewrite (traverse_getitem values) by done. simpl.
    rewrite median_int_ok; [simpl|].
    + rewrite (traverse_getitem tools) by (by rewrite tools_length). done.
    + intros E. apply (f_equal length) in E.
      rewrite values_at_length, indices_length in E.
      destruct Hbest as [_ ?]. simpl in E. lia.
Qed.
End best_group.

(** C2, amended.  On values in the range where the arithmetic of the code is
    exact, [best_group] signals no group exactly when no component of the
    tolerance graph has two nodes; otherwise it returns a component of at
    least two nodes that is largest and, among the largest, of least range,
    with its tools and the median of its values, the mean of two middle
    values being cut towards zero; on values that are not negative this is
    the floor. *)
Theorem best_group_majority values tools tol :
  Forall in_range values →
  length tools = length values →
  (best_group values tools tol = Ok (None, []) ↔ ∀ g, ¬ qualifies values tol g)
  ∧ ((∀ g, ¬ qualifies values tol g)
     ∨ ∃ best, qualifies values tol best
         ∧ (∀ g, qualifies values tol g → preferred values best g)
         ∧ best_group values tools tol
           = Ok (Some (median_trunc (values_at values (indices best))),
                 values_at tools (indices best))
         ∧ (Forall (λ x, 0 ≤ x) (values_at values (indices best)) →
            median_trunc (values_at values (indices best))
            = median_floor (values_at values (indices best)))).
Proof.
  intros _ Hlen.
  destruct (best_group_cases values tol tools Hlen)
    as [[Hrun Hnone]|(best & Hq & Hpref & Hrun)].
  - split; [done|]. by left.
  - split.
    + rewrite Hrun. split; [done|]. intros Hnone. by destruct (Hnone best).
    + right. exists best. split; [done|]. split; [done|]. split; [done|].
      apply median_trunc_floor.
Qed.

Lemma best_group_majority_witness :
  best_group [100; 105; 900] ["A"; "B"; "C"] 200 = Ok (Some 102, ["A"; "B"])
  ∧ (best_group [100; 105; 900] ["A"; "B"; "C"] 200 = Ok (None, [])
     ↔ ∀ g, ¬ qualifies [100; 105; 900] 200 g).
Proof.
  split; [vm_compute; reflexivity|].
  apply (best_group_majority [100; 105; 900] ["A"; "B"; "C"] 200);
    [repeat constructor; unfold in_range, int_bound; lia|reflexivity].
Defined.

(** C2 as stated fails on negative values: the median of [-3] and [-2] is
    returned as [-2], and its floor is [-3]. *)
Lemma best_group_median_not_floor :
  best_group [-3; -2] ["A"; "B"] 200 = Ok (Some (-2), ["A"; "B"])
  ∧ median_floor [-3; -2] = -3.
Proof. split; vm_compute; reflexivity. Qed.

(** ** The consensus of one cluster *)

Lemma join_sorted_singleton t : join_sorted [t] = t.
Proof. done. Qed.

(** The row of a cluster with one representative takes that representative
    as it is. *)
Lemma consensus_row_single_tool contig g tol :
  length g = 1%nat →
  ∃ r, g = [r]
    ∧ consensus_row contig g tol
      = Ok (Consensus
              (contig +:+ "_prophage_" +:+ pretty (rep_start r) +:+ "_"
                 +:+ pretty (rep_end r))
              contig 1 (rep_tool r) (rep_start r) (rep_end r)
              "single_tool" (rep_tool r) (rep_tool r)).
Proof.
  intros Hlen. destruct g as [|r [|r' g]]; try done. by exists r.
Qed.

(** [best_group] never raises on the columns of a frame. *)
Lemma best_group_total values tools tol :
  length tools = length values →
  ∃ group used, best_group values tools tol = Ok (group, used)
    ∧ (group = None → used = [])
    ∧ (∀ v, group = Some v →
         used ≠ [] ∧ (∀ lo hi, Forall (λ x, lo ≤ x ≤ hi) values → lo ≤ v ≤ hi)).
Proof.
  intros Hlen.
  destruct (best_group_cases values tol tools Hlen)
    as [[Hrun Hnone]|(best & Hq & Hpref & Hrun)].
  - exists None, []. split; [done|]. split; [done|]. by intros v.
  - eexists _, _. split; [exact Hrun|]. split; [done|].
    intros v [= <-].
    assert (indices best ≠ []) as Hne.
    { intros E. apply (f_equal length) in E. rewrite indices_length in E.
      destruct Hq as [_ ?]. simpl in E. lia. }
    split.
    + unfold values_at. by destruct (indices best).
    + intros lo hi Hall. apply median_trunc_bounds.
      * unfold values_at. by destruct (indices best).
      * apply Forall_forall. intros x (k & -> & Hk)%list_elem_of_fmap.
        apply (proj1 (Forall_forall _ _) Hall).
        apply list_elem_of_lookup_total_2.
        apply elem_of_indices in Hk. by eapply qualifies_valid.
Qed.

(** An edge is always resolved, to a value within the bounds of the
    representatives. *)
Lemma resolve_edge_total values tools tol fallback low agree :
  length tools = length values → values ≠ [] →
  (fallback = py_min ∨ fallback = py_max) →
  ∃ v used part, resolve_edge values tools tol fallback low agree = Ok (v, used, part)
    ∧ (∀ lo hi, Forall (λ x, lo ≤ x ≤ hi) values → lo ≤ v ≤ hi)
    ∧ (best_group values tools tol = Ok (None, []) →
       fallback values = Ok v ∧ used = tools ∧ part = low).
Proof.
  intros Hlen Hne Hfb. unfold resolve_edge.
  destruct (best_group_total values tools tol Hlen)
    as (group & used & Hrun & Hnone & Hsome).
  rewrite Hrun. simpl. destruct group as [v|].
  - destruct (Hsome v eq_refl) as [_ Hb].
    eexists _, _, _. split; [done|]. split; [done|]. by intros [=].
  - assert (∃ v, fallback values = Ok v ∧ v ∈ values) as (v & Hv & Hin).
    { destruct Hfb as [-> | ->].
      - destruct (py_min_ok values Hne) as [v Hv]. exists v. split; [done|].
        by apply py_min_spec.
      - destruct (py_max_ok values Hne) as [v Hv]. exists v. split; [done|].
        by apply py_max_spec. }
    rewrite Hv. simpl. eexists _, _, _. split; [done|]. split; [|done].
    intros lo hi Hall. by apply (proj1 (Forall_forall _ _) Hall).
Qed.

(** The row of a cluster is always produced; its identifier is assembled
    from its own fields and its start lies within the bounds of the
    representative starts. *)
Lemma consensus_row_total contig g tol :
  g ≠ [] →
  ∃ r, consensus_row contig g tol = Ok r
    ∧ cons_contig r = contig
    ∧ consensus_id r
      = contig +:+ "_prophage_" +:+ pretty (consensus_start r) +:+ "_"
          +:+ pretty (consensus_end r)
    ∧ (∀ lo hi, Forall (λ x, lo ≤ rep_start x ≤ hi) g →
         lo ≤ consensus_start r ≤ hi).
Proof.
  intros Hne. unfold consensus_row. rewrite !length_fmap.
  case_decide as Hlen.
  - destruct g as [|r [|r' g]]; try done. simpl.
    eexists. split; [done|]. split; [done|]. split; [done|].
    intros lo hi [Hr _]%Forall_cons. done.
  - destruct (resolve_edge_total (rep_start <$> g) (rep_tool <$> g) tol
                py_min "start_min" "start_consensus_")
      as (s & used_s & start_part & Hs & Hbs & _).
    { by rewrite !length_fmap. } { by destruct g. } { by left. }
    destruct (resolve_edge_total (rep_end <$> g) (rep_tool <$> g) tol
                py_max "end_max" "end_consensus_")
      as (e & used_e & end_part & He & _ & _).
    { by rewrite !length_fmap. } { by destruct g. } { by right. }
    rewrite Hs. simpl. rewrite He. simpl.
    eexists. split; [done|]. split; [done|]. split; [done|]. simpl.
    intros lo hi Hall. apply Hbs. by apply Forall_fmap.
Qed.

(** A list of at least two representatives always gets its row.  When the
    starts have no majority group the consensus start is the least
    representative start, all tools are recorded and the method begins with
    [start_min]; when the ends have none the consensus end is the greatest
    representative end, all tools are recorded and the method ends with
    [end_max]. *)
Lemma consensus_row_fallback contig g tol :
  (2 ≤ length g)%nat →
  ∃ r, consensus_row contig g tol = Ok r
    ∧ (best_group (rep_start <$> g) (rep_tool <$> g) tol = Ok (None, []) →
         consensus_start r ∈ rep_start <$> g
         ∧ (∀ s, s ∈ rep_start <$> g → consensus_start r ≤ s)
         ∧ used_tools_start r = join_sorted (rep_tool <$> g)
         ∧ ∃ end_part, method r = "start_min" +:+ "+" +:+ end_part)
    ∧ (best_group (rep_end <$> g) (rep_tool <$> g) tol = Ok (None, []) →
         consensus_end r ∈ rep_end <$> g
         ∧ (∀ e, e ∈ rep_end <$> g → e ≤ consensus_end r)
         ∧ used_tools_end r = join_sorted (rep_tool <$> g)
         ∧ ∃ start_part, method r = start_part +:+ "+" +:+ "end_max").
Proof.
  intros Hlen. unfold consensus_row. rewrite !length_fmap.
  rewrite decide_False by lia.
  destruct (resolve_edge_total (rep_start <$> g) (rep_tool <$> g) tol
              py_min "start_min" "start_consensus_")
    as (s & used_s & start_part & Hs & _ & Hfs).
  { by rewrite !length_fmap. } { destruct g; [simpl in Hlen; lia|done]. } { by left. }
  destruct (resolve_edge_total (rep_end <$> g) (rep_tool <$> g) tol
              py_max "end_max" "end_consensus_")
    as (e & used_e & end_part & He & _ & Hfe).
  { by rewrite !length_fmap. } { destruct g; [simpl in Hlen; lia|done]. } { by right. }
  rewrite Hs. simpl. rewrite He. simpl.
  eexists. split; [done|]. simpl. split.
  - intros Hnone. destruct (Hfs Hnone) as (Hmin & -> & ->).
    apply py_min_spec in Hmin as [Hin Hle]. eauto.
  - intros Hnone. destruct (Hfe Hnone) as (Hmax & -> & ->).
    apply py_max_spec in Hmax as [Hin Hle]. eauto.
Qed.

(** C1.  The consensus start can exceed the consensus end: on these three
    calls GeNomad and VIBRANT agree on the start, VIBRANT and VirSorter2 on
    the end, and the two medians cross, 1050 against 955. *)
Lemma consensus_start_exceeds_end :
  let calls := [Call "VirSorter2" "ctg1" 0 900 "ctg1_prophage_0_900";
                Call "VIBRANT" "ctg1" 1000 1010 "ctg1_prophage_1000_1010";
                Call "GeNomad" "ctg1" 1100 5000 "ctg1_prophage_1100_5000"] in
  Forall well_formed calls
  ∧ consensus_edgewise
      (cluster_by_contig calls default_overlap_thresh default_max_dist) default_tol
    = Ok [Consensus "ctg1_prophage_1050_955" "ctg1" 3 "GeNomad,VIBRANT,VirSorter2"
            1050 955 "start_consensus_2+end_consensus_2"
            "GeNomad,VIBRANT" "VIBRANT,VirSorter2"].
Proof.
  split.
  - repeat constructor; unfold well_formed; simpl; lia.
  - vm_compute. reflexivity.
Qed.

(** ** Totality of the resolver *)

Lemma traverse_total {A B} (f : A → res B) l :
  Forall (λ x, ∃ y, f x = Ok y) l →
  ∃ ys, traverse f l = Ok ys ∧ Forall2 (λ x y, f x = Ok y) l ys.
Proof.
  induction 1 as [|x l [y Hy] Hl (ys & Hys & IH)]; simpl.
  - exists []. by split.
  - exists (y :: ys). rewrite Hy, Hys. split; [done|]. by constructor.
Qed.

Section groups.
Context `{EqDecision K} {A : Type} (key : A → K).

Lemma elem_of_groupby rows k g :
(k, g) ∈ groupby key rows →
g = filter (λ r, key r = k) rows ∧ k ∈ key <$> rows ∧ g ≠ [].
Proof.
unfold groupby. intros (k' & [= -> ->] & Hk)%list_elem_of_fmap.
rewrite elem_of_unique in Hk. split; [done|]. split; [done|].
apply list_elem_of_fmap in Hk as (r & -> & Hr).
intros E. eapply (filter_nil_not_elem_of _ _ r E); done.
Qed.

Lemma elem_of_groupby_sorted leb rows k g :
(k, g) ∈ groupby_sorted leb key rows →
g = filter (λ r, key r = k) rows ∧ k ∈ key <$> rows ∧ g ≠ [].
Proof.
unfold groupby_sorted. intros (k' & [= -> ->] & Hk)%list_elem_of_fmap.
rewrite sort_values_elem_of, elem_of_unique in Hk. split; [done|]. split; [done|].
apply list_elem_of_fmap in Hk as (r & -> & Hr).
intros E. eapply (filter_nil_not_elem_of _ _ r E); done.
Qed.
End groups.

Lemma reduce_group_ok kg :
  kg.2 ≠ [] →
  reduce_group kg
  = Ok (Rep kg.1.1.1 kg.1.1.2 kg.1.2
          (median_trunc ((start ∘ row) <$> kg.2))
          (median_trunc ((end_ ∘ row) <$> kg.2))).
Proof.
  intros Hne. unfold reduce_group.
  rewrite !median_int_ok by (by destruct (kg.2)). done.
Qed.

(** The frame of representatives: one row per key, in key order. *)
Lemma representatives_ok members_df :
  representatives members_df
  = Ok ((λ kg, Rep kg.1.1.1 kg.1.1.2 kg.1.2
                 (median_trunc ((start ∘ row) <$> kg.2))
                 (median_trunc ((end_ ∘ row) <$> kg.2)))
          <$> groupby_sorted rep_key_leb rep_key members_df).
Proof.
  unfold representatives. apply traverse_ok, Forall_forall.
  intros [k g] Hkg. apply reduce_group_ok.
  by apply elem_of_groupby_sorted in Hkg as (_ & _ & ?).
Qed.

Lemma consensus_rows_total rep tol :
  ∃ rows, traverse (λ kg, consensus_row kg.1.1 kg.2 tol) (groupby cluster_key rep) = Ok rows
    ∧ Forall2 (λ kg r, consensus_row kg.1.1 kg.2 tol = Ok r)
        (groupby cluster_key rep) rows.
Proof.
  apply traverse_total, Forall_forall. intros [k g] Hkg.
  apply elem_of_groupby in Hkg as (_ & _ & Hne).
  destruct (consensus_row_total k.1 g tol Hne) as (r & Hr & _). eauto.
Qed.

Lemma groupby_sorted_nil_inv `{EqDecision K} {A} leb (key : A → K) rows :
  groupby_sorted leb key rows = [] → rows = [].
Proof.
  unfold groupby_sorted. intros E%fmap_nil_inv%sort_values_nil_inv%unique_nil_inv.
  by apply fmap_nil_inv in E.
Qed.

Lemma groupby_nil_inv `{EqDecision K} {A} (key : A → K) rows :
  groupby key rows = [] → rows = [].
Proof.
  unfold groupby. intros E%fmap_nil_inv%unique_nil_inv.
  by apply fmap_nil_inv in E.
Qed.

(** On a members table that is not empty, [consensus_edgewise] returns a
    table that is not empty. *)
Lemma consensus_edgewise_total members_df tol :
  members_df ≠ [] →
  ∃ consensus_df, consensus_edgewise members_df tol = Ok consensus_df
                  ∧ consensus_df ≠ [].
Proof.
  intros Hne. unfold consensus_edgewise. rewrite representatives_ok.
  change (Ok ?a ≫= ?k) with (k a). cbv beta.
  match goal with
  | |- context [groupby cluster_key ?r] => remember r as reps eqn:Ereps
  end.
  assert (reps ≠ []) as Hrep.
  { rewrite Ereps. intros E%fmap_nil_inv%groupby_sorted_nil_inv. done. }
  destruct (consensus_rows_total reps tol) as (rows & Hrows & Hall).
  rewrite Hrows. change (Ok ?a ≫= ?k) with (k a). cbv beta.
  destruct rows as [|r rows].
  - apply Forall2_nil_inv_r in Hall. by apply groupby_nil_inv in Hall.
  - eexists. split; [done|]. intros E%sort_values_nil_inv. done.
Qed.

(** The guard in front of [consensus_edgewise] matters: on an empty members
    table it raises. *)
Lemma consensus_edgewise_empty tol : consensus_edgewise [] tol = Raise KeyError.
Proof. done. Qed.

(** ** Totality of the mapper *)

Lemma foldlM_total {A B} (f : A → B → res A) l :
  (∀ a x, x ∈ l → ∃ a', f a x = Ok a') →
  ∀ a, ∃ a', foldlM f a l = Ok a'.
Proof.
  induction l as [|x l IH]; intros Hf a; simpl; [eauto|].
  destruct (Hf a x) as [a' Ha']; [left|]. rewrite Ha'. simpl.
  apply IH. intros a0 y Hy. apply Hf. by right.
Qed.

Lemma iloc_ok {A} (l : list A) (k : nat) :
  (1 ≤ k ≤ length l)%nat →
  ∃ x, iloc l (Z.of_nat k - 1) = Ok x ∧ l !! (k - 1)%nat = Some x.
Proof.
  intros Hk. unfold iloc.
  replace (Z.of_nat k - 1) with (Z.of_nat (k - 1)) by lia.
  rewrite (proj2 (Z.leb_le _ _)), (proj2 (Z.ltb_lt _ _)) by lia. simpl.
  rewrite Nat2Z.id. unfold getitem.
  destruct (lookup_lt_is_Some_2 l (k - 1)) as [x Hx]; [lia|].
  rewrite Hx. eauto.
Qed.

(** What one cluster adds to the mapping. *)
Lemma map_cluster_ok contig_consensus contig_members mapping k :
  (1 ≤ k)%nat →
  map_cluster contig_consensus contig_members mapping k
  = Ok (match contig_consensus !! (k - 1)%nat with
        | Some r =>
            foldl (λ mapping m, <[id_raw (row m) := consensus_id r]> mapping)
              mapping (filter (λ m, cluster_idx m = k) contig_members)
        | None => mapping
        end).
Proof.
  intros Hk. unfold map_cluster.
  destruct (Z.leb_spec (Z.of_nat k) (Z.of_nat (length contig_consensus))) as [Hle|Hgt].
  - destruct (iloc_ok contig_consensus k) as (r & Hr & Hlook); [lia|].
    by rewrite Hr, Hlook.
  - rewrite lookup_ge_None_2 by lia. done.
Qed.

Lemma create_mapping_total consensus_df members_df :
  Forall (λ m, (1 ≤ cluster_idx m)%nat) members_df →
  ∃ mapping, create_mapping consensus_df members_df = Ok mapping.
Proof.
  intros Hidx. unfold create_mapping. apply foldlM_total.
  intros mapping c _. unfold map_contig. apply foldlM_total.
  intros mapping' k Hk. rewrite map_cluster_ok; [eauto|].
  rewrite elem_of_unique in Hk.
  apply list_elem_of_fmap in Hk as (m & -> & [_ Hm]%list_elem_of_filter).
  by apply (proj1 (Forall_forall _ _) Hidx).
Qed.

Lemma cluster_by_contig_idx calls overlap_thresh max_dist :
  Forall (λ m, (1 ≤ cluster_idx m)%nat)
    (cluster_by_contig calls overlap_thresh max_dist).
Proof.
  apply Forall_forall. intros m (i & _ & -> & _)%elem_of_cluster_by_contig. lia.
Qed.

Lemma cluster_by_contig_nil_inv calls overlap_thresh max_dist :
  cluster_by_contig calls overlap_thresh max_dist = [] → calls = [].
Proof.
  intros E. destruct calls as [|r calls]; [done|]. exfalso.
  pose proof (cluster_by_contig_contig (r :: calls) overlap_thresh max_dist (contig r))
    as Hfilter.
  pose proof (cluster_contig_rows (r :: calls) overlap_thresh max_dist (contig r))
    as Hperm.
  rewrite E in Hfilter. simpl in Hfilter. rewrite <- Hfilter in Hperm.
  simpl in Hperm. apply Permutation_nil_l in Hperm.
  unfold calls_of in Hperm. by rewrite filter_cons_True in Hperm.
Qed.


(** ** Key orders *)

Lemma string_compare_refl s : String.compare s s = Eq.
Proof.
  pose proof (String.compare_antisym s s) as H.
  by destruct (String.compare s s).
Qed.

Lemma string_ltb_lt a b : String.ltb a b = true ↔ string_lt a b.
Proof.
  unfold string_lt, String.le, String.ltb, String.leb.
  destruct (String.compare a b) eqn:E; simpl.
  - apply String.compare_eq_iff in E as ->. naive_solver.
  - split; [|done]. intros _. split; [done|].
    intros ->. by rewrite string_compare_refl in E.
  - naive_solver.
Qed.

Lemma string_leb_le a b : String.leb a b = true ↔ String.le a b.
Proof. unfold String.le. by rewrite Is_true_true. Qed.

Lemma string_lt_le a b : string_lt a b → String.le a b.
Proof. by intros []. Qed.

Lemma string_lt_irrefl a : ¬ string_lt a a.
Proof. by intros []. Qed.

Lemma string_lt_le_trans a b c : string_lt a b → String.le b c → string_lt a c.
Proof.
  intros [Hab Hne] Hbc. split; [by etrans|].
  intros ->. apply Hne. by apply (anti_symm String.le).
Qed.

Lemma string_le_lt_trans a b c : String.le a b → string_lt b c → string_lt a c.
Proof.
  intros Hab [Hbc Hne]. split; [by etrans|].
  intros ->. apply Hne. by apply (anti_symm String.le).
Qed.

Lemma string_lt_trans a b c : string_lt a b → string_lt b c → string_lt a c.
Proof. intros Hab [Hbc _]. by eapply string_lt_le_trans. Qed.

Lemma string_lt_asym a b : string_lt a b → ¬ string_lt b a.
Proof. intros H1 H2. by eapply string_lt_irrefl, string_lt_trans. Qed.

Lemma string_trichotomy a b : string_lt a b ∨ a = b ∨ string_lt b a.
Proof.
  destruct (decide (a = b)) as [|Hne]; [by right; left|].
  destruct (total String.le a b); [left|right; right]; by split.
Qed.

Global Instance cluster_key_le_trans : Transitive cluster_key_le.
Proof.
  intros [c1 k1] [c2 k2] [c3 k3]. unfold cluster_key_le. simpl.
  intros [H1|[-> H1]] [H2|[-> H2]].
  - left. by eapply string_lt_trans.
  - by left.
  - by left.
  - right. split; [done|lia].
Qed.

Global Instance cluster_key_lt_trans : Transitive cluster_key_lt.
Proof.
  intros [c1 k1] [c2 k2] [c3 k3]. unfold cluster_key_lt. simpl.
  intros [H1|[-> H1]] [H2|[-> H2]].
  - left. by eapply string_lt_trans.
  - by left.
  - by left.
  - right. split; [done|lia].
Qed.

Lemma cluster_key_lt_irrefl a : ¬ cluster_key_lt a a.
Proof. intros [[]|[_ ?]]; [done|lia]. Qed.

Lemma cluster_key_le_lt a b : cluster_key_le a b → a ≠ b → cluster_key_lt a b.
Proof.
  destruct a as [c1 k1], b as [c2 k2]. unfold cluster_key_le, cluster_key_lt.
  simpl. intros [?|[-> Hk]] Hne; [by left|]. right. split; [done|].
  destruct (decide (k1 = k2)) as [->|]; [done|lia].
Qed.

Global Instance rep_key_le_trans : Transitive rep_key_le.
Proof.
  intros [a1 t1] [a2 t2] [a3 t3]. unfold rep_key_le. simpl.
  intros [H1|[-> H1]] [H2|[-> H2]].
  - left. by etrans.
  - by left.
  - by left.
  - right. split; [done|]. by etrans.
Qed.

Lemma rep_key_leb_le a b : rep_key_leb a b = true ↔ rep_key_le a b.
Proof.
  destruct a as [[c1 k1] t1], b as [[c2 k2] t2].
  unfold rep_key_leb, rep_key_le, cluster_key_lt. simpl.
  rewrite !orb_true_iff, !andb_true_iff, orb_true_iff, andb_true_iff.
  rewrite string_ltb_lt, String.eqb_eq, Nat.ltb_lt, Nat.eqb_eq, string_leb_le.
  split.
  - intros [?|[-> [?|[-> ?]]]]; [by left; left|by left; right|by right].
  - intros [[?|[-> ?]]|[[= -> ->] ?]]; [by left|by right; split; [|left]|].
    right. split; [done|]. right. done.
Qed.

Lemma rep_key_leb_total a b : rep_key_leb a b = true ∨ rep_key_leb b a = true.
Proof.
  rewrite !rep_key_leb_le.
  destruct a as [[c1 k1] t1], b as [[c2 k2] t2].
  unfold rep_key_le, cluster_key_lt. simpl.
  destruct (string_trichotomy c1 c2) as [?|[->|?]]; [by left; left; left| |by right; left; left].
  destruct (Nat.lt_total k1 k2) as [?|[->|?]];
    [by left; left; right| |by right; left; right].
  destruct (total String.le t1 t2); [left|right]; by right.
Qed.

Lemma contig_start_leb_spec a b :
  contig_start_leb a b = true
  ↔ string_lt (cons_contig a) (cons_contig b)
    ∨ (cons_contig a = cons_contig b ∧ consensus_start a ≤ consensus_start b).
Proof.
  unfold contig_start_leb.
  by rewrite orb_true_iff, andb_true_iff, string_ltb_lt, String.eqb_eq, Z.leb_le.
Qed.

(** ** Sorted frames *)

Section sorted.
Context {A : Type} (R : relation A).

Lemma StronglySorted_filter_2 (P : A → Prop) `{∀ x, Decision (P x)} l :
StronglySorted R l → StronglySorted R (filter P l).
Proof.
induction 1 as [|x l Hl IH Hx]; [constructor|].
rewrite filter_cons. case_decide; [|done].
constructor; [done|]. apply Forall_forall. intros y [_ Hy]%list_elem_of_filter.
by apply (proj1 (Forall_forall _ _) Hx).
Qed.

Lemma StronglySorted_unique_2 `{EqDecision A} l :
StronglySorted R l → StronglySorted R (unique l).
Proof.
induction 1 as [|x l Hl IH Hx]; simpl; [constructor|].
constructor; [apply StronglySorted_filter_2, IH|].
apply Forall_forall. intros y [_ Hy]%list_elem_of_filter.
rewrite elem_of_unique in Hy.
by apply (proj1 (Forall_forall _ _) Hx).
Qed.

Lemma StronglySorted_strict l :
StronglySorted R l → NoDup l → StronglySorted (λ a b, R a b ∧ a ≠ b) l.
Proof.
induction 1 as [|x l Hl IH Hx]; intros Hnd; [constructor|].
apply NoDup_cons in Hnd as [Hxl Hnd]. constructor; [by apply IH|].
apply Forall_forall. intros y Hy. split.
- by apply (proj1 (Forall_forall _ _) Hx).
- by intros ->.
Qed.

Lemma StronglySorted_lookup l i j x y :
StronglySorted R l → (i < j)%nat → l !! i = Some x → l !! j = Some y → R x y.
Proof.
intros Hs. revert i j. induction Hs as [|z l Hl IH Hz]; intros i j Hij Hi Hj; [done|].
destruct j as [|j]; [lia|]. destruct i as [|i]; simpl in *.
- injection Hi as ->. apply (proj1 (Forall_forall _ _) Hz).
  by eapply list_elem_of_lookup_2.
- apply (IH i j); [lia|done..].
Qed.

Lemma StronglySorted_of_lookup l :
(∀ i j x y, (i < j)%nat → l !! i = Some x → l !! j = Some y → R x y) →
StronglySorted R l.
Proof.
induction l as [|z l IH]; intros H; constructor.
- apply IH. intros i j x y Hij Hi Hj. by apply (H (S i) (S j)); [lia|..].
- apply Forall_forall. intros y [j Hj]%list_elem_of_lookup.
  by apply (H 0%nat (S j)); [lia|..].
Qed.
End sorted.

Lemma StronglySorted_weaken {A} (R1 R2 : relation A) l :
  (∀ x y, R1 x y → R2 x y) → StronglySorted R1 l → StronglySorted R2 l.
Proof.
  intros HR. induction 1 as [|x l Hl IH Hx]; constructor; [done|].
  eapply Forall_impl; [done|]. auto.
Qed.

Lemma rep_keys_sorted members_df : StronglySorted rep_key_le (rep_keys members_df).
Proof.
  unfold rep_keys. apply Sorted_StronglySorted; [apply _|].
  eapply Sorted_weaken; [|apply sort_values_Sorted, rep_key_leb_total].
  intros a b H. by apply rep_key_leb_le, Is_true_true.
Qed.

Lemma elem_of_rep_keys members_df k :
  k ∈ rep_keys members_df ↔ ∃ m, m ∈ members_df ∧ rep_key m = k.
Proof.
  unfold rep_keys. rewrite sort_values_elem_of, elem_of_unique, list_elem_of_fmap.
  naive_solver.
Qed.

Lemma elem_of_cluster_keys members_df ck :
  ck ∈ cluster_keys members_df
  ↔ ∃ m, m ∈ members_df ∧ (contig (row m), cluster_idx m) = ck.
Proof.
  unfold cluster_keys. rewrite elem_of_unique, list_elem_of_fmap. split.
  - intros (k & -> & (m & Hm & <-)%elem_of_rep_keys). by exists m.
  - intros (m & Hm & <-). exists (rep_key m). split; [done|].
    apply elem_of_rep_keys. by exists m.
Qed.

Lemma cluster_keys_sorted members_df :
  StronglySorted cluster_key_lt (cluster_keys members_df).
Proof.
  eapply StronglySorted_weaken; [|apply StronglySorted_strict; [|apply NoDup_unique]].
  { intros a b [Hle Hne]. by apply cluster_key_le_lt. }
  apply StronglySorted_unique_2.
  apply (StronglySorted_fmap fst rep_key_le cluster_key_le); [|apply rep_keys_sorted].
  intros [a1 t1] [a2 t2] [H|[-> _]]; simpl in *.
  - destruct H as [?|[? ?]]; [by left|right; split; [done|lia]].
  - right. split; [done|lia].
Qed.

(** ** The frames inside [consensus_edgewise] *)

Lemma representatives_rep_of members_df :
  representatives members_df = Ok (rep_of members_df <$> rep_keys members_df).
Proof.
  rewrite representatives_ok. unfold groupby_sorted, rep_keys.
  by rewrite <- list_fmap_compose.
Qed.

Lemma cluster_key_rep_of members_df k : cluster_key (rep_of members_df k) = k.1.
Proof. by destruct k as [[c i] t]. Qed.

Lemma groupby_cluster_reps members_df :
  groupby cluster_key (rep_of members_df <$> rep_keys members_df)
  = (λ ck, (ck, cluster_reps members_df ck)) <$> cluster_keys members_df.
Proof.
  unfold groupby, cluster_keys, cluster_reps.
  rewrite <- list_fmap_compose. do 2 f_equal.
  apply list_fmap_ext. intros _ k _. apply cluster_key_rep_of.
Qed.

(** The table before the final sort: one row per cluster, in key order. *)
Lemma consensus_edgewise_rows members_df tol :
  members_df ≠ [] →
  ∃ rows, consensus_edgewise members_df tol = Ok (sort_values contig_start_leb rows)
    ∧ Forall2 (λ ck r, consensus_row ck.1 (cluster_reps members_df ck) tol = Ok r)
        (cluster_keys members_df) rows.
Proof.
  intros Hne. unfold consensus_edgewise. rewrite representatives_rep_of.
  change (Ok ?a ≫= ?k) with (k a). cbv beta.
  destruct (consensus_rows_total (rep_of members_df <$> rep_keys members_df) tol)
    as (rows & Hrows & Hall).
  rewrite Hrows. change (Ok ?a ≫= ?k) with (k a). cbv beta.
  rewrite groupby_cluster_reps in Hall. apply Forall2_fmap_l in Hall.
  exists rows. split; [|done].
  destruct rows as [|r rows]; [|done].
  apply Forall2_nil_inv_r in Hall. exfalso.
  destruct members_df as [|m ms]; [done|].
  assert ((contig (row m), cluster_idx m) ∈ cluster_keys (m :: ms)) as Hin.
  { apply elem_of_cluster_keys. exists m. split; [left|done]. }
  rewrite Hall in Hin. by apply elem_of_nil in Hin.
Qed.

Lemma elem_of_cluster_reps members_df ck rp :
  rp ∈ cluster_reps members_df ck
  ↔ ∃ k, k ∈ rep_keys members_df ∧ k.1 = ck ∧ rp = rep_of members_df k.
Proof.
  unfold cluster_reps. rewrite list_elem_of_filter, list_elem_of_fmap. split.
  - intros [Hck (k & -> & Hk)]. exists k. by rewrite cluster_key_rep_of in Hck.
  - intros (k & Hk & <- & ->). split; [apply cluster_key_rep_of|eauto].
Qed.

Lemma cluster_reps_nonempty members_df ck :
  ck ∈ cluster_keys members_df → cluster_reps members_df ck ≠ [].
Proof.
  intros (m & Hm & <-)%elem_of_cluster_keys E.
  assert (rep_of members_df (rep_key m) ∈ cluster_reps members_df
            (contig (row m), cluster_idx m)) as Hin.
  { apply elem_of_cluster_reps. exists (rep_key m). split; [|done].
    apply elem_of_rep_keys. eauto. }
  rewrite E in Hin. by apply elem_of_nil in Hin.
Qed.

(** A representative start lies within the bounds of the member starts of
    its cluster. *)
Lemma cluster_reps_bounds members_df ck lo hi :
  Forall (λ m, lo ≤ start (row m) ≤ hi) (cluster_members members_df ck) →
  Forall (λ rp, lo ≤ rep_start rp ≤ hi) (cluster_reps members_df ck).
Proof.
  intros Hall. apply Forall_forall.
  intros rp (k & (m & Hm & <-)%elem_of_rep_keys & <- & ->)%elem_of_cluster_reps.
  simpl. apply median_trunc_bounds.
  - intros E. assert (m ∈ filter (λ m', rep_key m' = rep_key m) members_df) as Hin
      by (by apply list_elem_of_filter).
    destruct (filter _ members_df); [by apply elem_of_nil in Hin|done].
  - apply Forall_forall.
    intros x (m' & -> & [Hk Hm']%list_elem_of_filter)%list_elem_of_fmap.
    apply (proj1 (Forall_forall _ _) Hall). apply list_elem_of_filter.
    split; [|done]. unfold rep_key in Hk. by injection Hk as -> -> _.
Qed.

(** The row of a cluster: its contig, its identifier and the bounds of its
    start. *)
Lemma cluster_row_spec members_df tol ck r lo hi :
  ck ∈ cluster_keys members_df →
  consensus_row ck.1 (cluster_reps members_df ck) tol = Ok r →
  Forall (λ m, lo ≤ start (row m) ≤ hi) (cluster_members members_df ck) →
  cons_contig r = ck.1
  ∧ consensus_id r
    = cons_contig r +:+ "_prophage_" +:+ pretty (consensus_start r) +:+ "_"
        +:+ pretty (consensus_end r)
  ∧ lo ≤ consensus_start r ≤ hi.
Proof.
  intros Hck Hrow Hall.
  destruct (consensus_row_total ck.1 (cluster_reps members_df ck) tol)
    as (r' & Hr' & Hc & Hid & Hb).
  { by apply cluster_reps_nonempty. }
  rewrite Hrow in Hr'. injection Hr' as <-.
  split; [done|]. split; [by rewrite Hc|].
  by apply Hb, cluster_reps_bounds.
Qed.

(** ** Alignment of the consensus table with the clusters *)

Global Instance cluster_key_lt_antisym : AntiSymm (=) cluster_key_lt.
Proof.
  intros a b Hab Hba. exfalso.
  eapply cluster_key_lt_irrefl. by etrans.
Qed.

Lemma seq_sorted j n : StronglySorted lt (seq j n).
Proof.
  revert j. induction n as [|n IH]; intros j; simpl; constructor; [apply IH|].
  apply Forall_forall. intros k Hk%elem_of_seq. lia.
Qed.

Section aligned.
Context (members_df : list member) (tol : Z) (rows : list consensus).
Hypothesis idx_range :
∀ c, ∃ K, ∀ k, (c, k) ∈ cluster_keys members_df ↔ (1 ≤ k ≤ K)%nat.
Hypothesis starts_ordered :
∀ m1 m2, m1 ∈ members_df → m2 ∈ members_df →
  contig (row m1) = contig (row m2) →
  (cluster_idx m1 < cluster_idx m2)%nat →
  start (row m1) ≤ start (row m2).
Hypothesis rows_spec :
Forall2 (λ ck r, consensus_row ck.1 (cluster_reps members_df ck) tol = Ok r)
  (cluster_keys members_df) rows.

Lemma cluster_members_nonempty ck :
ck ∈ cluster_keys members_df → cluster_members members_df ck ≠ [].
Proof.
intros (m & Hm & <-)%elem_of_cluster_keys E.
assert (m ∈ cluster_members members_df (contig (row m), cluster_idx m)) as Hin
  by (by apply list_elem_of_filter).
rewrite E in Hin. by apply elem_of_nil in Hin.
Qed.

(** The start of a row lies between the least and the greatest member start
  of its cluster. *)
Lemma row_start_bounds ck r :
ck ∈ cluster_keys members_df →
consensus_row ck.1 (cluster_reps members_df ck) tol = Ok r →
∃ m1 m2, m1 ∈ cluster_members members_df ck
  ∧ m2 ∈ cluster_members members_df ck
  ∧ start (row m1) ≤ consensus_start r ≤ start (row m2).
Proof.
intros Hck Hrow.
pose proof (cluster_members_nonempty ck Hck) as Hne.
assert ((start ∘ row) <$> cluster_members members_df ck ≠ []) as Hne'
  by (by destruct (cluster_members members_df ck)).
destruct (py_min_ok _ Hne') as [lo Hlo], (py_max_ok _ Hne') as [hi Hhi].
apply py_min_spec in Hlo as [(m1 & -> & Hm1)%list_elem_of_fmap Hlo].
apply py_max_spec in Hhi as [(m2 & -> & Hm2)%list_elem_of_fmap Hhi].
exists m1, m2. split; [done|]. split; [done|].
eapply cluster_row_spec; [done..|].
apply Forall_forall. intros m Hm. split.
- apply Hlo, list_elem_of_fmap. eauto.
- apply Hhi, list_elem_of_fmap. eauto.
Qed.

Lemma row_contig ck r :
ck ∈ cluster_keys members_df →
consensus_row ck.1 (cluster_reps members_df ck) tol = Ok r →
cons_contig r = ck.1.
Proof.
intros Hck Hrow.
destruct (consensus_row_total ck.1 (cluster_reps members_df ck) tol)
  as (r' & Hr' & Hc & _).
{ by apply cluster_reps_nonempty. }
rewrite Hrow in Hr'. by injection Hr' as <-.
Qed.

(** The rows are already in the order of the final sort. *)
Lemma rows_sorted : Sorted contig_start_leb rows.
Proof.
apply StronglySorted_Sorted, StronglySorted_of_lookup.
intros i j r1 r2 Hij Hi Hj.
destruct (Forall2_lookup_r _ _ _ _ _ rows_spec Hi) as (ck1 & Hk1 & Hr1).
destruct (Forall2_lookup_r _ _ _ _ _ rows_spec Hj) as (ck2 & Hk2 & Hr2).
pose proof (StronglySorted_lookup _ _ _ _ _ _
              (cluster_keys_sorted members_df) Hij Hk1 Hk2) as Hlt.
pose proof (list_elem_of_lookup_2 _ _ _ Hk1) as Hin1.
pose proof (list_elem_of_lookup_2 _ _ _ Hk2) as Hin2.
apply Is_true_true, contig_start_leb_spec.
rewrite (row_contig ck1 r1), (row_contig ck2 r2) by done.
destruct Hlt as [?|[Hc Hk]]; [by left|]. right. split; [done|].
destruct (row_start_bounds ck1 r1 Hin1 Hr1) as (_ & m1 & _ & Hm1 & [_ Hb1]).
destruct (row_start_bounds ck2 r2 Hin2 Hr2) as (m2 & _ & Hm2 & _ & [Hb2 _]).
apply list_elem_of_filter in Hm1 as [E1 Hm1], Hm2 as [E2 Hm2].
destruct ck1 as [c1 k1], ck2 as [c2 k2]. simpl in *.
injection E1 as E1c E1k. injection E2 as E2c E2k.
pose proof (starts_ordered m1 m2 Hm1 Hm2 ltac:(congruence) ltac:(lia)). lia.
Qed.

Lemma filter_cluster_keys c K :
(∀ k, (c, k) ∈ cluster_keys members_df ↔ (1 ≤ k ≤ K)%nat) →
filter (λ ck, ck.1 = c) (cluster_keys members_df) = (λ k, (c, k)) <$> seq 1 K.
Proof.
intros HK. apply (StronglySorted_unique cluster_key_lt).
- apply StronglySorted_filter_2, cluster_keys_sorted.
- apply (StronglySorted_fmap _ lt cluster_key_lt); [|apply seq_sorted].
  intros k1 k2 Hk. right. by split.
- apply NoDup_Permutation.
  + apply NoDup_filter, NoDup_unique.
  + apply NoDup_fmap_2; [|apply NoDup_seq]. by intros k1 k2 [=].
  + intros [c' k]. rewrite list_elem_of_filter, list_elem_of_fmap. simpl. split.
    * intros [-> Hk]. exists k. split; [done|]. apply elem_of_seq.
      apply HK in Hk. lia.
    * intros (k' & [= -> ->] & Hk%elem_of_seq). split; [done|].
      apply HK. lia.
Qed.

(** The row of cluster [k] of contig [c] is the [k]-th row of the contig. *)
Lemma row_position c k :
(c, k) ∈ cluster_keys members_df →
∃ r, filter (λ r, cons_contig r = c) rows !! (k - 1)%nat = Some r
  ∧ consensus_row c (cluster_reps members_df (c, k)) tol = Ok r.
Proof.
intros Hck. destruct (idx_range c) as [K HK].
assert (Forall2 (λ ck r, ck ∈ cluster_keys members_df
                  ∧ consensus_row ck.1 (cluster_reps members_df ck) tol = Ok r)
          (cluster_keys members_df) rows) as Hall.
{ apply Forall2_same_length_lookup. split; [by eapply Forall2_length|].
  intros i ck r Hi Hr. split; [by eapply list_elem_of_lookup_2|].
  exact (Forall2_lookup_lr _ _ _ _ _ _ rows_spec Hi Hr). }
apply (Forall2_filter _ (λ ck, ck.1 = c) (λ r, cons_contig r = c)) in Hall.
- rewrite (filter_cluster_keys c K HK) in Hall.
  apply HK in Hck.
  destruct (Forall2_lookup_l _ _ _ (k - 1)%nat (c, k) Hall) as (r & Hr & _ & Hrow).
  { rewrite list_lookup_fmap, lookup_seq_lt by lia. simpl. f_equal. f_equal. lia. }
  eauto.
- intros ck r [Hin Hrow]. by rewrite (row_contig ck r).
Qed.
End aligned.

(** ** The mapping *)

Lemma foldlM_inv {A B} (f : A → B → res A) (I : list B → A → Prop) l :
  (∀ pre x a, I pre a → x ∈ l → ∃ a', f a x = Ok a' ∧ I (pre ++ [x]) a') →
  ∀ pre a, I pre a → ∃ a', foldlM f a l = Ok a' ∧ I (pre ++ l) a'.
Proof.
  induction l as [|x l IH]; intros Hstep pre a Ha; simpl.
  - exists a. by rewrite app_nil_r.
  - destruct (Hstep pre x a Ha) as (a' & Hfa & Ha'); [left|].
    rewrite Hfa. change (Ok a' ≫= ?k) with (k a'). cbv beta.
    destruct (IH (λ pre y b Hb Hy, Hstep pre y b Hb (list_elem_of_further _ _ _ Hy))
                 (pre ++ [x]) a' Ha') as (a'' & Hrun & Ha'').
    exists a''. split; [done|]. by rewrite <- app_assoc in Ha''.
Qed.

Lemma foldl_insert_lookup (v : string) (l : list member) :
  ∀ (mapping : gmap string string) id,
  foldl (λ mapping m, <[id_raw (row m) := v]> mapping) mapping l !! id
  = if decide (id ∈ (id_raw ∘ row) <$> l) then Some v else mapping !! id.
Proof.
  induction l as [|m l IH]; intros mapping id.
  - cbn [foldl]. case_decide as H; [by apply elem_of_nil in H|done].
  - cbn [foldl]. rewrite IH, fmap_cons.
    destruct (decide (id ∈ (id_raw ∘ row) <$> l)) as [Hin|Hnin].
    + rewrite decide_True; [done|]. by right.
    + destruct (decide (id = id_raw (row m))) as [->|Hne].
      * rewrite decide_True by left. by rewrite lookup_insert_eq.
      * rewrite decide_False; [by rewrite lookup_insert_ne|].
        intros [?|?]%elem_of_cons; done.
Qed.

Section mapping.
Context (consensus_df : list consensus) (members_df : list member).
Hypothesis idx_pos : Forall (λ m, (1 ≤ cluster_idx m)%nat) members_df.
Hypothesis has_record :
∀ m, m ∈ members_df →
  is_Some (record_at consensus_df (contig (row m)) (cluster_idx m)).

Local Notation inv := (mapping_inv consensus_df members_df).

Lemma map_cluster_inv c D mapping k :
k ∈ cluster_idx <$> filter (λ m, contig (row m) = c) members_df →
inv D mapping →
∃ mapping',
  map_cluster (filter (λ r, cons_contig r = c) consensus_df)
    (filter (λ m, contig (row m) = c) members_df) mapping k = Ok mapping'
  ∧ inv (λ m, D m ∨ (contig (row m) = c ∧ cluster_idx m = k)) mapping'.
Proof.
intros (m0 & -> & [Hc0 Hm0]%list_elem_of_filter)%list_elem_of_fmap [Hgood Hcov].
pose proof (proj1 (Forall_forall _ _) idx_pos m0 Hm0) as Hpos.
destruct (has_record m0 Hm0) as [r Hr]. rewrite Hc0 in Hr.
rewrite map_cluster_ok by done. unfold record_at in Hr. rewrite Hr.
eexists. split; [done|]. split.
- intros id v. rewrite foldl_insert_lookup. case_decide as Hid; [|apply Hgood].
  intros [= <-].
  apply list_elem_of_fmap in Hid
    as (m & -> & [Hk [Hc Hm]%list_elem_of_filter]%list_elem_of_filter).
  exists m, r. split; [done|]. split; [done|]. split; [|done].
  unfold record_at. by rewrite Hc, Hk.
- intros m Hm HD. rewrite foldl_insert_lookup. case_decide as Hid; [done|].
  destruct HD as [HD|[Hc Hk]]; [by apply Hcov|].
  exfalso. apply Hid, list_elem_of_fmap. exists m. split; [done|].
  apply list_elem_of_filter. split; [done|]. by apply list_elem_of_filter.
Qed.

Lemma map_contig_inv D mapping c :
inv D mapping →
∃ mapping', map_contig consensus_df members_df mapping c = Ok mapping'
  ∧ inv (λ m, D m ∨ contig (row m) = c) mapping'.
Proof.
intros Hinv. unfold map_contig.
destruct (foldlM_inv
            (map_cluster (filter (λ r, cons_contig r = c) consensus_df)
               (filter (λ m, contig (row m) = c) members_df))
            (λ pre mapping,
               inv (λ m, D m ∨ (contig (row m) = c ∧ cluster_idx m ∈ pre)) mapping)
            (unique (cluster_idx <$> filter (λ m, contig (row m) = c) members_df)))
  with (pre := @nil nat) (a := mapping) as (mapping' & Hrun & [Hgood Hcov]).
- intros pre k mp Hmp Hk. rewrite elem_of_unique in Hk.
  destruct (map_cluster_inv c _ mp k Hk Hmp) as (mp' & Hrun & [Hgood Hcov]).
  exists mp'. split; [done|]. split; [done|].
  intros m Hm HD. apply Hcov; [done|].
  destruct HD as [?|[? [?|?%list_elem_of_singleton]%elem_of_app]]; auto.
- destruct Hinv as [Hgood Hcov]. split; [done|].
  intros m Hm [?|[_ ?%elem_of_nil]]; [by apply Hcov|done].
- exists mapping'. split; [done|]. split; [done|].
  intros m Hm HD. apply Hcov; [done|]. destruct HD as [?|Hc]; [by left|].
  right. split; [done|]. simpl. rewrite elem_of_unique.
  apply list_elem_of_fmap. exists m. split; [done|]. by apply list_elem_of_filter.
Qed.

(** Every member has an entry, and every entry is the identifier read for
  the cluster of a member with that raw identifier. *)
Lemma create_mapping_inv :
∃ mapping, create_mapping consensus_df members_df = Ok mapping
  ∧ inv (λ _, True) mapping.
Proof.
unfold create_mapping.
destruct (foldlM_inv (map_contig consensus_df members_df)
            (λ pre mapping, inv (λ m, contig (row m) ∈ pre) mapping)
            (unique ((contig ∘ row) <$> members_df)))
  with (pre := @nil string) (a := (∅ : gmap string string))
  as (mapping & Hrun & [Hgood Hcov]).
- intros pre c mp Hmp _.
  destruct (map_contig_inv _ mp c Hmp) as (mp' & Hrun & [Hgood Hcov]).
  exists mp'. split; [done|]. split; [done|].
  intros m Hm HD. apply Hcov; [done|].
  apply elem_of_app in HD as [?|?%list_elem_of_singleton]; auto.
- split; [by intros id v; rewrite lookup_empty|].
  by intros m _ ?%elem_of_nil.
- exists mapping. split; [done|]. split; [done|].
  intros m Hm _. apply Hcov; [done|]. simpl. rewrite elem_of_unique.
  apply list_elem_of_fmap. by exists m.
Qed.
End mapping.

(** ** The members table of [cluster_by_contig] *)

Section members.
Context (calls : list call) (overlap_thresh : Q) (max_dist : Z).

Local Notation members := (cluster_by_contig calls overlap_thresh max_dist).

Lemma members_idx_range c :
∃ K, ∀ k, (c, k) ∈ cluster_keys members ↔ (1 ≤ k ≤ K)%nat.
Proof.
exists (length (clusters_of overlap_thresh max_dist c calls)). intros k.
rewrite elem_of_cluster_keys. split.
- intros (m & (i & cl & Hk & Hcl & _)%elem_of_cluster_by_contig & [= <- <-]).
  apply lookup_lt_Some in Hcl. lia.
- intros [Hk1 HkK]. destruct k as [|i]; [lia|].
  destruct (lookup_lt_is_Some_2 (clusters_of overlap_thresh max_dist c calls) i)
    as [cl Hcl]; [lia|].
  pose proof (Forall_lookup_1 _ _ _ _
                (sweep_clusters_nonempty overlap_thresh max_dist _) Hcl) as Hne.
  destruct cl as [|r cl]; [done|].
  assert (contig r = c) as Hc.
  { eapply (clusters_of_elem_of _ _ _ _ _ _ _ Hcl). left. }
  exists (Member r (S i)). split; [|simpl; by rewrite Hc].
  apply elem_of_cluster_by_contig. exists i, (r :: cl). simpl.
  rewrite Hc. split; [done|]. split; [done|left].
Qed.

Lemma members_starts_ordered m1 m2 :
m1 ∈ members → m2 ∈ members →
contig (row m1) = contig (row m2) →
(cluster_idx m1 < cluster_idx m2)%nat →
start (row m1) ≤ start (row m2).
Proof.
intros (i & ci & Hi & Hci & Hm1)%elem_of_cluster_by_contig
       (j & cj & Hj & Hcj & Hm2)%elem_of_cluster_by_contig Hc Hlt.
rewrite <- Hc in Hcj.
apply (StronglySorted_pieces by_start _
         (clusters_of_sorted overlap_thresh max_dist (contig (row m1)) calls)
         i j ci cj); [lia|done..].
Qed.

Lemma members_rows m : m ∈ members → row m ∈ calls.
Proof.
intros (i & cl & _ & Hcl & Hm)%elem_of_cluster_by_contig.
by eapply clusters_of_elem_of.
Qed.

(** Calls of one contig with the same well-formed interval share their
  cluster. *)
Lemma same_interval_same_cluster m1 m2 :
(0 < overlap_thresh)%Q → 0 ≤ max_dist → Forall well_formed calls →
m1 ∈ members → m2 ∈ members →
contig (row m1) = contig (row m2) →
start (row m1) = start (row m2) → end_ (row m1) = end_ (row m2) →
cluster_idx m1 = cluster_idx m2.
Proof.
intros Hthr Hmd Hwf Hm1 Hm2 Hc Hs He.
pose proof (proj1 (Forall_forall _ _) Hwf _ (members_rows m1 Hm1)) as Hw1.
apply elem_of_cluster_by_contig in Hm1 as (i & ci & Hi & Hci & Hr1).
apply elem_of_cluster_by_contig in Hm2 as (j & cj & Hj & Hcj & Hr2).
rewrite <- Hc in Hcj. unfold well_formed in Hw1.
destruct (Nat.lt_total i j) as [Hij|[->|Hij]]; [|congruence|].
- pose proof (clusters_of_separated _ _ _ _ _ _ _ _ _ _
                Hthr Hmd Hwf Hij Hci Hcj Hr1 Hr2). lia.
- pose proof (clusters_of_separated _ _ _ _ _ _ _ _ _ _
                Hthr Hmd Hwf Hij Hcj Hci Hr2 Hr1). lia.
Qed.
End members.

Lemma core_pipeline_inv calls members consensus mapping :
  core_pipeline calls = Ok (Some (members, consensus, mapping)) →
  members = cluster_by_contig calls default_overlap_thresh default_max_dist
  ∧ members ≠ []
  ∧ consensus_edgewise members default_tol = Ok consensus
  ∧ create_mapping consensus members = Ok mapping.
Proof.
  unfold core_pipeline. destruct calls as [|r calls]; [done|].
  destruct (cluster_by_contig (r :: calls) _ _) as [|m ms] eqn:E; [done|].
  destruct (consensus_edgewise (m :: ms) default_tol) as [cs| |] eqn:Ec; [|done..].
  change (Ok cs ≫= ?k) with (k cs). cbv beta.
  destruct (create_mapping cs (m :: ms)) as [mp| |] eqn:Em; [|done..].
  intros [= <- <- <-]. done.
Qed.

(** Calls with distinct identifiers: the identifier determines the call. *)
Lemma raw_id_NoDup calls :
  NoDup (id_raw <$> calls) → raw_id_determines_interval calls.
Proof.
  intros Hnd a b [i Hi]%list_elem_of_lookup [j Hj]%list_elem_of_lookup Hid.
  assert (i = j) as ->.
  { apply (NoDup_lookup (id_raw <$> calls) i j (id_raw a)); [done|..].
    - by rewrite list_lookup_fmap, Hi.
    - by rewrite list_lookup_fmap, Hj, Hid. }
  rewrite Hi in Hj. by injection Hj as ->.
Qed.

(** C8.  A call set is a set of well-formed calls whose raw identifier
    determines the contig and the interval, as the loaders build them by
    parsing the contig and the interval out of the identifier, with
    coordinates in the range where the arithmetic of the code is exact.  On
    every call set, every member of a cluster is mapped to the identifier
    of the record of that cluster, which is the record at the ordinal
    position of the cluster among the records of its contig, and the
    identifier is the string assembled from the fields of the record. *)
Theorem identifier_round_trip calls members consensus mapping :
  Forall well_formed calls →
  raw_id_determines_interval calls →
  calls_in_range calls →
  core_pipeline calls = Ok (Some (members, consensus, mapping)) →
  ∀ m, m ∈ members →
    ∃ r, record_at consensus (contig (row m)) (cluster_idx m) = Some r
      ∧ consensus_row (contig (row m))
          (cluster_reps members (contig (row m), cluster_idx m)) default_tol
        = Ok r
      ∧ mapping !! id_raw (row m) = Some (consensus_id r)
      ∧ consensus_id r
        = cons_contig r +:+ "_prophage_" +:+ pretty (consensus_start r) +:+ "_"
            +:+ pretty (consensus_end r).
Proof.
  intros Hwf Hid _ Hrun m Hm.
  apply core_pipeline_inv in Hrun as (Hmembers & Hne & Hcons & Hmap).
  destruct (consensus_edgewise_rows members default_tol Hne) as (rows & Hsort & Hrows).
  assert (∀ c, ∃ K, ∀ k, (c, k) ∈ cluster_keys members ↔ (1 ≤ k ≤ K)%nat) as Hrange.
  { rewrite Hmembers. apply members_idx_range. }
  assert (∀ m1 m2, m1 ∈ members → m2 ∈ members →
            contig (row m1) = contig (row m2) →
            (cluster_idx m1 < cluster_idx m2)%nat →
            start (row m1) ≤ start (row m2)) as Hord.
  { rewrite Hmembers. apply members_starts_ordered. }
  rewrite (sort_values_sorted_id _ _
             (rows_sorted members default_tol rows Hord Hrows)) in Hsort.
  rewrite Hcons in Hsort. injection Hsort as ->.
  assert (∀ m', m' ∈ members →
            ∃ r, record_at rows (contig (row m')) (cluster_idx m') = Some r
              ∧ consensus_row (contig (row m'))
                  (cluster_reps members (contig (row m'), cluster_idx m'))
                  default_tol = Ok r) as Hpos.
  { intros m' Hm'. apply (row_position members default_tol rows Hrange Hrows).
    apply elem_of_cluster_keys. eauto. }
  destruct (create_mapping_inv rows members) as (mapping' & Hmap' & Hgood & Hcov).
  { rewrite Hmembers. apply cluster_by_contig_idx. }
  { intros m' Hm'. destruct (Hpos m' Hm') as (r & Hr & _). eauto. }
  rewrite Hmap in Hmap'. injection Hmap' as <-.
  destruct (Hpos m Hm) as (r & Hr & Hrow).
  exists r. split; [done|]. split; [done|]. split.
  - destruct (Hcov m Hm I) as [v Hv]. rewrite Hv.
    destruct (Hgood _ _ Hv) as (m' & r' & Hm' & Hraw & Hr' & ->).
    rewrite Hmembers in Hm, Hm'.
    destruct (Hid (row m') (row m)) as (Hc & Hs & He);
      [by eapply members_rows..|done|].
    assert (0 ≤ default_max_dist) as Hmd by done.
    pose proof (same_interval_same_cluster calls default_overlap_thresh
                  default_max_dist m' m default_overlap_thresh_pos Hmd Hwf
                  Hm' Hm Hc Hs He) as Hk.
    rewrite Hc, Hk, Hr in Hr'. by injection Hr' as <-.
  - destruct (consensus_row_total (contig (row m))
                (cluster_reps members (contig (row m), cluster_idx m)) default_tol)
      as (r' & Hr' & Hc & Hfmt & _).
    { apply cluster_reps_nonempty, elem_of_cluster_keys. eauto. }
    rewrite Hrow in Hr'. injection Hr' as <-. by rewrite Hc.
Qed.

Lemma identifier_round_trip_witness :
  let vs := Call "VirSorter2" "ctg1" 100 5000 "ctg1_prophage_100_5000" in
  let vb := Call "VIBRANT" "ctg1" 7000 7100 "ctg1_prophage_7000_7100" in
  let gn := Call "GeNomad" "ctg1" 110 4995 "ctg1_prophage_110_4995" in
  let r1 := Consensus "ctg1_prophage_105_4997" "ctg1" 2 "GeNomad,VirSorter2"
              105 4997 "start_consensus_2+end_consensus_2"
              "GeNomad,VirSorter2" "GeNomad,VirSorter2" in
  let r2 := Consensus "ctg1_prophage_7000_7100" "ctg1" 1 "VIBRANT" 7000 7100
              "single_tool" "VIBRANT" "VIBRANT" in
  let mapping : gmap string string :=
    list_to_map [("ctg1_prophage_100_5000", "ctg1_prophage_105_4997");
                 ("ctg1_prophage_110_4995", "ctg1_prophage_105_4997");
                 ("ctg1_prophage_7000_7100", "ctg1_prophage_7000_7100")] in
  core_pipeline [vs; vb; gn]
    = Ok (Some ([Member vs 1; Member gn 1; Member vb 2], [r1; r2], mapping))
  ∧ ∃ r, record_at [r1; r2] "ctg1" 1 = Some r
      ∧ mapping !! "ctg1_prophage_110_4995" = Some (consensus_id r)
      ∧ consensus_id r
        = cons_contig r +:+ "_prophage_" +:+ pretty (consensus_start r) +:+ "_"
            +:+ pretty (consensus_end r).
Proof.
  intros vs vb gn r1 r2 mapping.
  assert (core_pipeline [vs; vb; gn]
          = Ok (Some ([Member vs 1; Member gn 1; Member vb 2], [r1; r2], mapping)))
    as Hrun by (vm_compute; reflexivity).
  split; [exact Hrun|].
  assert (Forall well_formed [vs; vb; gn]) as Hwf.
  { repeat constructor; unfold well_formed; simpl; lia. }
  assert (raw_id_determines_interval [vs; vb; gn]) as Hid.
  { apply raw_id_NoDup. apply (bool_decide_unpack _). vm_compute. exact I. }
  assert (calls_in_range [vs; vb; gn]) as Hin.
  { repeat constructor; by vm_compute. }
  destruct (identifier_round_trip [vs; vb; gn] _ _ _ Hwf Hid Hin Hrun (Member gn 1))
    as (r & Hr & _ & Hmap & Hfmt).
  { right. left. }
  exists r. split; [exact Hr|]. split; [exact Hmap|exact Hfmt].
Defined.

(** Every record of the consensus table belongs to a contig that has
    calls. *)
Lemma consensus_contig_has_calls calls consensus r :
  consensus_edgewise
    (cluster_by_contig calls default_overlap_thresh default_max_dist) default_tol
    = Ok consensus →
  r ∈ consensus → calls_of (cons_contig r) calls ≠ [].
Proof.
  intros Hcons Hr.
  set (members := cluster_by_contig calls default_overlap_thresh default_max_dist) in *.
  destruct (decide (members = [])) as [E|Hne].
  { rewrite E in Hcons. done. }
  destruct (consensus_edgewise_rows members default_tol Hne) as (rows & Hsort & Hrows).
  rewrite Hcons in Hsort. injection Hsort as ->.
  rewrite sort_values_elem_of in Hr.
  apply list_elem_of_lookup in Hr as [i Hi].
  destruct (Forall2_lookup_r _ _ _ _ _ Hrows Hi) as (ck & Hck & Hrow).
  apply list_elem_of_lookup_2 in Hck.
  rewrite (row_contig members default_tol ck r Hck Hrow).
  apply elem_of_cluster_keys in Hck as (m & Hm & <-). simpl.
  apply elem_of_cluster_by_contig in Hm as (j & cl & _ & Hcl & Hin).
  destruct (clusters_of_elem_of _ _ _ _ _ _ _ Hcl Hin) as [Hcalls Hc].
  intros E. assert (row m ∈ calls_of (contig (row m)) calls) as Hx
    by (by apply list_elem_of_filter).
  rewrite E in Hx. by apply elem_of_nil in Hx.
Qed.

(** The core of [main], with its tests, never raises and never runs out of
    fuel.  An empty call set has no cluster, and on it [main] stops before
    clustering, with nothing produced and no error; on any other call set
    it yields a members table, a consensus table and a mapping, the two
    tables not being empty.  A contig without calls has no row in the
    members table and no record in the consensus table. *)
Lemma main_core_total calls :
  cluster_by_contig [] default_overlap_thresh default_max_dist = []
  ∧ ∃ out, core_pipeline calls = Ok out
    ∧ (calls = [] → out = None)
    ∧ (calls ≠ [] →
       ∃ members consensus mapping,
         out = Some (members, consensus, mapping)
         ∧ members = cluster_by_contig calls default_overlap_thresh default_max_dist
         ∧ members ≠ [] ∧ consensus ≠ []
         ∧ ∀ c, calls_of c calls = [] →
             filter (λ m, contig (row m) = c) members = []
             ∧ filter (λ r, cons_contig r = c) consensus = []).
Proof.
  split; [done|].
  unfold core_pipeline. destruct calls as [|r calls]; [by exists None|].
  set (members := cluster_by_contig (r :: calls) default_overlap_thresh default_max_dist).
  assert (members ≠ []) as Hne.
  { intros E. by apply cluster_by_contig_nil_inv in E. }
  destruct (consensus_edgewise_total members default_tol Hne) as (consensus & Hcons & Hcne).
  destruct (create_mapping_total consensus members) as [mapping Hmap].
  { apply cluster_by_contig_idx. }
  pose proof (consensus_contig_has_calls (r :: calls) consensus) as Hhas.
  fold members in Hhas. specialize (λ r0, Hhas r0 Hcons).
  destruct members as [|m members'] eqn:Em; [done|].
  rewrite Hcons. simpl. rewrite Hmap. simpl.
  eexists. split; [done|]. split; [done|]. intros _.
  exists (m :: members'), consensus, mapping.
  split; [done|]. split; [done|]. split; [done|]. split; [done|].
  intros c Hc. split.
  - rewrite <- Em. unfold members.
    rewrite cluster_by_contig_contig, Hc. done.
  - apply filter_none. intros r0 Hr0 Hcr. apply (Hhas r0 Hr0). by rewrite Hcr.
Qed.

(** ** What a run of the pipeline establishes *)

(** The facts shared by the properties of the pipeline output: the consensus
    table is the list of the cluster rows in key order, every member finds
    its record by position, and the mapping satisfies its invariant. *)
Lemma core_pipeline_facts calls members consensus mapping :
  core_pipeline calls = Ok (Some (members, consensus, mapping)) →
  members = cluster_by_contig calls default_overlap_thresh default_max_dist
  ∧ members ≠ []
  ∧ Forall2 (λ ck r, consensus_row ck.1 (cluster_reps members ck) default_tol = Ok r)
      (cluster_keys members) consensus
  ∧ (∀ m, m ∈ members →
       ∃ r, record_at consensus (contig (row m)) (cluster_idx m) = Some r
         ∧ consensus_row (contig (row m))
             (cluster_reps members (contig (row m), cluster_idx m)) default_tol
           = Ok r)
  ∧ mapping_inv consensus members (λ _, True) mapping.
Proof.
  intros Hrun.
  apply core_pipeline_inv in Hrun as (Hmembers & Hne & Hcons & Hmap).
  destruct (consensus_edgewise_rows members default_tol Hne) as (rows & Hsort & Hrows).
  assert (∀ c, ∃ K, ∀ k, (c, k) ∈ cluster_keys members ↔ (1 ≤ k ≤ K)%nat) as Hrange.
  { rewrite Hmembers. apply members_idx_range. }
  assert (∀ m1 m2, m1 ∈ members → m2 ∈ members →
            contig (row m1) = contig (row m2) →
            (cluster_idx m1 < cluster_idx m2)%nat →
            start (row m1) ≤ start (row m2)) as Hord.
  { rewrite Hmembers. apply members_starts_ordered. }
  rewrite (sort_values_sorted_id _ _
             (rows_sorted members default_tol rows Hord Hrows)) in Hsort.
  rewrite Hcons in Hsort. injection Hsort as ->.
  assert (∀ m', m' ∈ members →
            ∃ r, record_at rows (contig (row m')) (cluster_idx m') = Some r
              ∧ consensus_row (contig (row m'))
                  (cluster_reps members (contig (row m'), cluster_idx m'))
                  default_tol = Ok r) as Hpos.
  { intros m' Hm'. apply (row_position members default_tol rows Hrange Hrows).
    apply elem_of_cluster_keys. eauto. }
  destruct (create_mapping_inv rows members) as (mapping' & Hmap' & Hinv).
  { rewrite Hmembers. apply cluster_by_contig_idx. }
  { intros m' Hm'. destruct (Hpos m' Hm') as (r & Hr & _). eauto. }
  rewrite Hmap in Hmap'. injection Hmap' as <-.
  done.
Qed.

Lemma core_pipeline_run calls :
  calls ≠ [] →
  ∃ members consensus mapping,
    core_pipeline calls = Ok (Some (members, consensus, mapping)).
Proof.
  intros Hne. unfold core_pipeline. destruct calls as [|r calls]; [done|].
  destruct (cluster_by_contig (r :: calls) _ _) as [|m ms] eqn:E.
  { by apply cluster_by_contig_nil_inv in E. }
  destruct (consensus_edgewise_total (m :: ms) default_tol) as (cs & Hcs & _); [done|].
  destruct (create_mapping_total cs (m :: ms)) as [mp Hmp].
  { rewrite <- E. apply cluster_by_contig_idx. }
  exists (m :: ms), cs, mp. rewrite Hcs. simpl. by rewrite Hmp.
Qed.

(** ** Further properties of the clusterer *)

(** Two calls of one contig that lie in different clusters are more than
    [max_dist] apart: the one in the earlier cluster ends more than
    [max_dist] before the other starts. *)
Theorem clusters_far_apart calls overlap_thresh max_dist m1 m2 :
  (0 < overlap_thresh)%Q → 0 ≤ max_dist → Forall well_formed calls →
  m1 ∈ cluster_by_contig calls overlap_thresh max_dist →
  m2 ∈ cluster_by_contig calls overlap_thresh max_dist →
  contig (row m1) = contig (row m2) →
  (cluster_idx m1 < cluster_idx m2)%nat →
  end_ (row m1) + max_dist < start (row m2).
Proof.
  intros Hthr Hmd Hwf
    (i & ci & Hi & Hci & Hr1)%elem_of_cluster_by_contig
    (j & cj & Hj & Hcj & Hr2)%elem_of_cluster_by_contig Hc Hlt.
  rewrite <- Hc in Hcj.
  apply (clusters_of_separated overlap_thresh max_dist (contig (row m1)) calls
           i j ci cj); [done..|lia|done|done|done|done].
Qed.

Lemma clusters_far_apart_witness :
  let a := Call "VirSorter2" "ctg1" 100 5000 "a" in
  let b := Call "VIBRANT" "ctg1" 7000 7100 "b" in
  Member a 1 ∈ cluster_by_contig [a; b] default_overlap_thresh default_max_dist
  ∧ Member b 2 ∈ cluster_by_contig [a; b] default_overlap_thresh default_max_dist
  ∧ 5000 + default_max_dist < 7000.
Proof.
  intros a b.
  assert (Member a 1 ∈ cluster_by_contig [a; b] default_overlap_thresh default_max_dist)
    as H1 by (apply (bool_decide_unpack _); vm_compute; exact I).
  assert (Member b 2 ∈ cluster_by_contig [a; b] default_overlap_thresh default_max_dist)
    as H2 by (apply (bool_decide_unpack _); vm_compute; exact I).
  split; [exact H1|]. split; [exact H2|].
  apply (clusters_far_apart [a; b] default_overlap_thresh default_max_dist
           (Member a 1) (Member b 2)).
  - reflexivity.
  - unfold default_max_dist. lia.
  - repeat constructor; unfold well_formed; simpl; lia.
  - exact H1.
  - exact H2.
  - reflexivity.
  - simpl. lia.
Defined.

(** On well-formed calls the merge test is the proximity test. *)
Lemma merges_proximity overlap_thresh max_dist s e cur_start cur_end :
  (0 < overlap_thresh)%Q → 0 ≤ max_dist → cur_start ≤ e →
  merges overlap_thresh max_dist s e cur_start cur_end = (s - cur_end <=? max_dist).
Proof.
  intros Hthr Hmd Hcs. destruct (Z.leb_spec (s - cur_end) max_dist) as [Hle|Hgt].
  - by apply merges_near.
  - apply merges_far; [done..|lia].
Qed.

Lemma sweep_from_thresh thr1 thr2 max_dist l : ∀ cur_start cur_end acc,
  (0 < thr1)%Q → (0 < thr2)%Q → 0 ≤ max_dist →
  Forall (λ r, cur_start ≤ start r ∧ well_formed r) l →
  StronglySorted by_start l →
  sweep_from thr1 max_dist cur_start cur_end acc l
  = sweep_from thr2 max_dist cur_start cur_end acc l.
Proof.
  induction l as [|r l IH]; intros cs ce acc H1 H2 Hmd Hl Hs; [done|].
  apply Forall_cons in Hl as [[Hr Hwf] Hl]. unfold well_formed in Hwf.
  apply StronglySorted_inv in Hs as [Hs Hrl]. simpl.
  rewrite !merges_proximity by (done || lia).
  destruct (_ <=? _).
  - apply IH; [done..| |done].
    eapply Forall_impl; [exact Hl|]. intros z [? ?]. split; [lia|done].
  - f_equal. apply IH; [done..| |done].
    apply Forall_forall. intros z Hz. split.
    + by apply (proj1 (Forall_forall _ _) Hrl).
    + by apply (proj1 (Forall_forall _ _) Hl).
Qed.

Lemma sweep_clusters_thresh thr1 thr2 max_dist l :
  (0 < thr1)%Q → (0 < thr2)%Q → 0 ≤ max_dist →
  Forall well_formed l → StronglySorted by_start l →
  sweep_clusters thr1 max_dist l = sweep_clusters thr2 max_dist l.
Proof.
  intros H1 H2 Hmd Hwf Hs. destruct l as [|r l]; [done|]. simpl.
  apply Forall_cons in Hwf as [Hr Hwf].
  apply StronglySorted_inv in Hs as [Hs Hrl].
  apply sweep_from_thresh; [done..| |done].
  apply Forall_forall. intros z Hz. split.
  - by apply (proj1 (Forall_forall _ _) Hrl).
  - by apply (proj1 (Forall_forall _ _) Hwf).
Qed.

(** On well-formed calls and with a non-negative [max_dist], the members
    table does not depend on [overlap_thresh], as long as it is positive:
    the reciprocal-overlap test never decides a merge. *)
Theorem overlap_thresh_irrelevant calls thr1 thr2 max_dist :
  (0 < thr1)%Q → (0 < thr2)%Q → 0 ≤ max_dist →
  Forall well_formed calls →
  cluster_by_contig calls thr1 max_dist = cluster_by_contig calls thr2 max_dist.
Proof.
  intros H1 H2 Hmd Hwf. rewrite !cluster_by_contig_unfold. f_equal.
  apply list_fmap_ext. intros _ c _. rewrite !cluster_contig_sweep. do 2 f_equal.
  apply sweep_clusters_thresh; [done..| |apply sorted_by_start].
  by apply sorted_calls_well_formed.
Qed.

Lemma overlap_thresh_irrelevant_witness :
  let calls := [Call "VirSorter2" "ctg1" 100 5000 "a";
                Call "VIBRANT" "ctg1" 4990 9000 "b";
                Call "GeNomad" "ctg1" 12000 13000 "c"] in
  cluster_by_contig calls (1 # 100) 1000 = cluster_by_contig calls 1 1000.
Proof.
  intros calls.
  apply (overlap_thresh_irrelevant calls (1 # 100) 1 1000).
  - reflexivity.
  - reflexivity.
  - lia.
  - repeat constructor; unfold well_formed; simpl; lia.
Defined.

(** ** Further properties of the pipeline output *)

Lemma calls_in_members calls overlap_thresh max_dist r :
  r ∈ calls →
  ∃ k, Member r k ∈ cluster_by_contig calls overlap_thresh max_dist.
Proof.
  intros Hr.
  assert (r ∈ calls_of (contig r) calls) as Hin by (by apply list_elem_of_filter).
  rewrite <- (cluster_contig_rows calls overlap_thresh max_dist (contig r)) in Hin.
  rewrite <- cluster_by_contig_contig in Hin.
  apply list_elem_of_fmap in Hin as ([r' k] & -> & [_ Hm]%list_elem_of_filter).
  by exists k.
Qed.

Lemma record_at_elem_of consensus_df c k r :
  record_at consensus_df c k = Some r → r ∈ consensus_df ∧ cons_contig r = c.
Proof.
  unfold record_at. intros H%list_elem_of_lookup_2.
  by apply list_elem_of_filter in H as [? ?].
Qed.

(** On calls with coordinates in the range where the arithmetic of the code
    is exact, the mapping has an entry exactly for the raw identifiers of
    the calls, and every entry is the identifier of a record of the
    consensus table. *)
Theorem mapping_domain calls members consensus mapping :
  calls_in_range calls →
  core_pipeline calls = Ok (Some (members, consensus, mapping)) →
  (∀ id, is_Some (mapping !! id) ↔ ∃ r, r ∈ calls ∧ id_raw r = id)
  ∧ (∀ id v, mapping !! id = Some v →
       ∃ r, r ∈ consensus ∧ consensus_id r = v).
Proof.
  intros _.
  intros (Hmembers & _ & _ & _ & Hgood & Hcov)%core_pipeline_facts. split.
  - intros id. split.
    + intros [v Hv]. destruct (Hgood id v Hv) as (m & _ & Hm & <- & _).
      exists (row m). split; [|done]. rewrite Hmembers in Hm.
      by eapply members_rows.
    + intros (r & Hr & <-).
      destruct (calls_in_members calls default_overlap_thresh default_max_dist r Hr)
        as [k Hk].
      rewrite <- Hmembers in Hk. by apply (Hcov (Member r k)).
  - intros id v Hv. destruct (Hgood id v Hv) as (m & r & _ & _ & Hr & ->).
    exists r. split; [|done]. by eapply record_at_elem_of.
Qed.

Lemma mapping_domain_witness :
  let vs := Call "VirSorter2" "ctg1" 100 5000 "ctg1_prophage_100_5000" in
  let vb := Call "VIBRANT" "ctg1" 7000 7100 "ctg1_prophage_7000_7100" in
  let gn := Call "GeNomad" "ctg1" 110 4995 "ctg1_prophage_110_4995" in
  ∃ members consensus mapping,
    core_pipeline [vs; vb; gn] = Ok (Some (members, consensus, mapping))
    ∧ mapping !! "ctg1_prophage_9_9" = None
    ∧ is_Some (mapping !! "ctg1_prophage_110_4995").
Proof.
  intros vs vb gn.
  destruct (core_pipeline_run [vs; vb; gn]) as (members & consensus & mapping & Hrun);
    [done|].
  exists members, consensus, mapping. split; [exact Hrun|].
  assert (calls_in_range [vs; vb; gn]) as Hin by (repeat constructor; by vm_compute).
  destruct (mapping_domain _ _ _ _ Hin Hrun) as [Hdom _]. split.
  - apply eq_None_not_Some. intros (r & Hr & Hid)%Hdom.
    repeat (apply elem_of_cons in Hr as [->|Hr]); try done.
    by apply elem_of_nil in Hr.
  - apply Hdom. exists gn. split; [|done]. right. right. left.
Defined.

Lemma members_idx_range_clusters calls overlap_thresh max_dist c k :
  (c, k) ∈ cluster_keys (cluster_by_contig calls overlap_thresh max_dist)
  ↔ (1 ≤ k ≤ length (clusters_of overlap_thresh max_dist c calls))%nat.
Proof.
  rewrite elem_of_cluster_keys. split.
  - intros (m & (i & cl & Hk & Hcl & _)%elem_of_cluster_by_contig & [= <- <-]).
    apply lookup_lt_Some in Hcl. lia.
  - intros [Hk1 HkK]. destruct k as [|i]; [lia|].
    destruct (lookup_lt_is_Some_2 (clusters_of overlap_thresh max_dist c calls) i)
      as [cl Hcl]; [lia|].
    pose proof (Forall_lookup_1 _ _ _ _
                  (sweep_clusters_nonempty overlap_thresh max_dist _) Hcl) as Hne.
    destruct cl as [|r cl]; [done|].
    assert (contig r = c) as Hc.
    { eapply (clusters_of_elem_of _ _ _ _ _ _ _ Hcl). left. }
    exists (Member r (S i)). split; [|simpl; by rewrite Hc].
    apply elem_of_cluster_by_contig. exists i, (r :: cl). simpl.
    rewrite Hc. split; [done|]. split; [done|left].
Qed.

(** On calls with coordinates in the range where the arithmetic of the code
    is exact, the consensus table has one record per cluster, and within a
    contig the consensus starts do not decrease from one cluster to the
    next: this is why the final sort leaves the records in cluster order. *)
Theorem one_record_per_cluster calls members consensus mapping :
  calls_in_range calls →
  core_pipeline calls = Ok (Some (members, consensus, mapping)) →
  (∀ c, length (filter (λ r, cons_contig r = c) consensus)
        = length (clusters_of default_overlap_thresh default_max_dist c calls))
  ∧ (∀ c k1 k2 r1 r2, (1 ≤ k1 ≤ k2)%nat →
       consensus_row c (cluster_reps members (c, k1)) default_tol = Ok r1 →
       consensus_row c (cluster_reps members (c, k2)) default_tol = Ok r2 →
       (c, k2) ∈ cluster_keys members →
       record_at consensus c k1 = Some r1
       ∧ record_at consensus c k2 = Some r2
       ∧ consensus_start r1 ≤ consensus_start r2).
Proof.
  intros _.
  intros (Hmembers & Hne & Hrows & Hpos & _)%core_pipeline_facts.
  assert (∀ c k, (c, k) ∈ cluster_keys members
            ↔ (1 ≤ k ≤ length (clusters_of default_overlap_thresh
                                  default_max_dist c calls))%nat) as Hrange.
  { intros c k. rewrite Hmembers. apply members_idx_range_clusters. }
  assert (∀ m1 m2, m1 ∈ members → m2 ∈ members →
            contig (row m1) = contig (row m2) →
            (cluster_idx m1 < cluster_idx m2)%nat →
            start (row m1) ≤ start (row m2)) as Hord.
  { rewrite Hmembers. apply members_starts_ordered. }
  split.
  - intros c.
    assert (Forall2 (λ ck r, ck ∈ cluster_keys members
                      ∧ consensus_row ck.1 (cluster_reps members ck) default_tol = Ok r)
              (cluster_keys members) consensus) as Hall.
    { apply Forall2_same_length_lookup. split; [by eapply Forall2_length|].
      intros i ck r Hi Hr. split; [by eapply list_elem_of_lookup_2|].
      exact (Forall2_lookup_lr _ _ _ _ _ _ Hrows Hi Hr). }
    apply (Forall2_filter _ (λ ck, ck.1 = c) (λ r, cons_contig r = c)) in Hall.
    + apply Forall2_length in Hall. rewrite <- Hall.
      rewrite (filter_cluster_keys members c _ (Hrange c)).
      by rewrite length_fmap, length_seq.
    + intros ck r [Hin Hrow]. by rewrite (row_contig members default_tol ck r).
  - intros c k1 k2 r1 r2 Hk Hr1 Hr2 Hk2.
    assert ((c, k1) ∈ cluster_keys members) as Hk1.
    { apply Hrange. apply Hrange in Hk2. lia. }
    assert (∀ k r, (c, k) ∈ cluster_keys members →
              consensus_row c (cluster_reps members (c, k)) default_tol = Ok r →
              record_at consensus c k = Some r) as Hat.
    { intros k r (m & Hm & [= <- <-])%elem_of_cluster_keys Hr.
      destruct (Hpos m Hm) as (r' & Hr' & Hrow'). rewrite Hr in Hrow'.
      by injection Hrow' as <-. }
    split; [by apply Hat|]. split; [by apply Hat|].
    destruct (decide (k1 = k2)) as [->|Hne12].
    { rewrite Hr1 in Hr2. injection Hr2 as <-. lia. }
    destruct (row_start_bounds members default_tol (c, k1) r1 Hk1 Hr1)
      as (_ & m1 & _ & Hm1 & [_ Hb1]).
    destruct (row_start_bounds members default_tol (c, k2) r2 Hk2 Hr2)
      as (m2 & _ & Hm2 & _ & [Hb2 _]).
    apply list_elem_of_filter in Hm1 as [E1 Hm1], Hm2 as [E2 Hm2].
    injection E1 as E1c E1k. injection E2 as E2c E2k.
    pose proof (Hord m1 m2 Hm1 Hm2 ltac:(congruence) ltac:(lia)). lia.
Qed.

Lemma one_record_per_cluster_witness :
  let vs := Call "VirSorter2" "ctg1" 100 5000 "ctg1_prophage_100_5000" in
  let vb := Call "VIBRANT" "ctg1" 7000 7100 "ctg1_prophage_7000_7100" in
  let gn := Call "GeNomad" "ctg1" 110 4995 "ctg1_prophage_110_4995" in
  ∃ members consensus mapping,
    core_pipeline [vs; vb; gn] = Ok (Some (members, consensus, mapping))
    ∧ length (filter (λ r, cons_contig r = "ctg1") consensus) = 2%nat.
Proof.
  intros vs vb gn.
  destruct (core_pipeline_run [vs; vb; gn]) as (members & consensus & mapping & Hrun);
    [done|].
  exists members, consensus, mapping. split; [exact Hrun|].
  assert (calls_in_range [vs; vb; gn]) as Hin by (repeat constructor; by vm_compute).
  destruct (one_record_per_cluster _ _ _ _ Hin Hrun) as [Hlen _].
  rewrite (Hlen "ctg1"). vm_compute. reflexivity.
Defined.

(** ** The fields of a record *)

Lemma consensus_row_fields contig g tol r :
  consensus_row contig g tol = Ok r →
  n_tools r = length g ∧ tools r = join_sorted (rep_tool <$> g)
  ∧ cons_contig r = contig.
Proof.
  unfold consensus_row. rewrite length_fmap.
  match goal with |- (?X ≫= _) = _ → _ => destruct X as [[[[[s e] mt] us] ue]| |] end;
    [|done..].
  intros [= <-]. done.
Qed.

Lemma filter_fmap_length {A B} (f : A → B) (P : B → Prop) `{∀ y, Decision (P y)}
    (l : list A) :
  length (filter P (f <$> l)) = length (filter (λ x, P (f x)) l).
Proof.
  induction l as [|x l IH]; [done|].
  rewrite fmap_cons, !filter_cons. case_decide; simpl; by rewrite IH.
Qed.

Lemma rep_keys_NoDup members_df : NoDup (rep_keys members_df).
Proof.
  unfold rep_keys. rewrite sort_values_Permutation. apply NoDup_unique.
Qed.

(** A cluster has one representative per distinct tool among its members. *)
Lemma cluster_reps_length members_df ck :
  length (cluster_reps members_df ck)
  = size (list_to_set ((tool ∘ row) <$> cluster_members members_df ck) : gset string).
Proof.
  unfold cluster_reps.
  rewrite (filter_fmap_length (rep_of members_df) (λ r, cluster_key r = ck)).
  set (ks := filter (λ k, cluster_key (rep_of members_df k) = ck) (rep_keys members_df)).
  assert (∀ k, k ∈ ks ↔ k ∈ rep_keys members_df ∧ k.1 = ck) as Hks.
  { intros k. unfold ks. rewrite list_elem_of_filter, cluster_key_rep_of. tauto. }
  assert (NoDup (snd <$> ks)) as Hnd.
  { apply NoDup_fmap_2_strong; [|apply NoDup_filter, rep_keys_NoDup].
    intros [a1 t1] [a2 t2] [_ H1]%Hks [_ H2]%Hks Ht. simpl in *. congruence. }
  rewrite <- (length_fmap snd ks), <- (size_list_to_set (C := gset string)) by done.
  f_equal. apply set_eq. intros t.
  rewrite !elem_of_list_to_set, !list_elem_of_fmap. split.
  - intros ([a t'] & -> & [(m & Hm & Hk)%elem_of_rep_keys Ha]%Hks). simpl in *.
    exists m. unfold rep_key in Hk. injection Hk as Ha' Ht.
    split; [done|]. apply list_elem_of_filter. split; [|done]. congruence.
  - intros (m & -> & [Hck Hm]%list_elem_of_filter).
    exists (rep_key m). split; [done|]. apply Hks. split; [|done].
    apply elem_of_rep_keys. eauto.
Qed.

(** On calls with coordinates in the range where the arithmetic of the code
    is exact, the field [n_tools] of the record of a cluster is the number
    of distinct tools among the members of the cluster, however many calls
    each tool contributes. *)
Theorem n_tools_distinct_tools calls members consensus mapping m :
  calls_in_range calls →
  core_pipeline calls = Ok (Some (members, consensus, mapping)) →
  m ∈ members →
  ∃ r, record_at consensus (contig (row m)) (cluster_idx m) = Some r
    ∧ n_tools r
      = size (list_to_set
                ((tool ∘ row)
                   <$> cluster_members members (contig (row m), cluster_idx m))
              : gset string).
Proof.
  intros _.
  intros (_ & _ & _ & Hpos & _)%core_pipeline_facts Hm.
  destruct (Hpos m Hm) as (r & Hr & Hrow). exists r. split; [done|].
  apply consensus_row_fields in Hrow as (-> & _ & _).
  apply cluster_reps_length.
Qed.

Lemma n_tools_distinct_tools_witness :
  let a := Call "VirSorter2" "ctg1" 100 5000 "ctg1_prophage_100_5000" in
  let b := Call "VirSorter2" "ctg1" 120 5100 "ctg1_prophage_120_5100" in
  let c := Call "GeNomad" "ctg1" 110 4995 "ctg1_prophage_110_4995" in
  ∃ members consensus mapping r,
    core_pipeline [a; b; c] = Ok (Some (members, consensus, mapping))
    ∧ record_at consensus "ctg1" 1 = Some r
    ∧ length (cluster_members members ("ctg1", 1%nat)) = 3%nat
    ∧ n_tools r = 2%nat.
Proof.
  intros a b c.
  destruct (core_pipeline_run [a; b; c]) as (members & consensus & mapping & Hrun);
    [done|].
  pose proof (core_pipeline_inv _ _ _ _ Hrun) as (Hmembers & _).
  assert (members = [Member a 1; Member c 1; Member b 1]) as Hms.
  { rewrite Hmembers. vm_compute. reflexivity. }
  assert (calls_in_range [a; b; c]) as Hin by (repeat constructor; by vm_compute).
  destruct (n_tools_distinct_tools _ _ _ _ (Member a 1) Hin Hrun) as (r & Hr & Hn).
  { rewrite Hms. left. }
  exists members, consensus, mapping, r. split; [exact Hrun|]. split; [exact Hr|].
  rewrite Hn, Hms. split; vm_compute; reflexivity.
Defined.

(** ** The consensus interval and the member coordinates *)

Lemma consensus_row_bounds contig g tol r :
  g ≠ [] → consensus_row contig g tol = Ok r →
  (∀ lo hi, Forall (λ x, lo ≤ rep_start x ≤ hi) g → lo ≤ consensus_start r ≤ hi)
  ∧ (∀ lo hi, Forall (λ x, lo ≤ rep_end x ≤ hi) g → lo ≤ consensus_end r ≤ hi).
Proof.
  intros Hne. unfold consensus_row. rewrite !length_fmap.
  case_decide as Hlen.
  - destruct g as [|r0 [|r' g]]; try done. simpl. intros [= <-]. simpl.
    split; intros lo hi [Hr _]%Forall_cons; done.
  - destruct (resolve_edge_total (rep_start <$> g) (rep_tool <$> g) tol
                py_min "start_min" "start_consensus_")
      as (s & used_s & start_part & Hs & Hbs & _).
    { by rewrite !length_fmap. } { by destruct g. } { by left. }
    destruct (resolve_edge_total (rep_end <$> g) (rep_tool <$> g) tol
                py_max "end_max" "end_consensus_")
      as (e & used_e & end_part & He & Hbe & _).
    { by rewrite !length_fmap. } { by destruct g. } { by right. }
    rewrite Hs. simpl. rewrite He. simpl. intros [= <-]. simpl.
    split; intros lo hi Hall; [apply Hbs|apply Hbe]; by apply Forall_fmap.
Qed.

Lemma cluster_reps_end_bounds members_df ck lo hi :
  Forall (λ m, lo ≤ end_ (row m) ≤ hi) (cluster_members members_df ck) →
  Forall (λ rp, lo ≤ rep_end rp ≤ hi) (cluster_reps members_df ck).
Proof.
  intros Hall. apply Forall_forall.
  intros rp (k & (m & Hm & <-)%elem_of_rep_keys & <- & ->)%elem_of_cluster_reps.
  simpl. apply median_trunc_bounds.
  - intros E. assert (m ∈ filter (λ m', rep_key m' = rep_key m) members_df) as Hin
      by (by apply list_elem_of_filter).
    destruct (filter _ members_df); [by apply elem_of_nil in Hin|done].
  - apply Forall_forall.
    intros x (m' & -> & [Hk Hm']%list_elem_of_filter)%list_elem_of_fmap.
    apply (proj1 (Forall_forall _ _) Hall). apply list_elem_of_filter.
    split; [|done]. unfold rep_key in Hk. by injection Hk as -> -> _.
Qed.

(** The extreme values of a column of a frame that is not empty. *)
Lemma column_extremes {A} (f : A → Z) (l : list A) :
  l ≠ [] →
  ∃ x1 x2, x1 ∈ l ∧ x2 ∈ l ∧ Forall (λ x, f x1 ≤ f x ≤ f x2) l.
Proof.
  intros Hne.
  assert (f <$> l ≠ []) as Hne' by (by destruct l).
  destruct (py_min_ok _ Hne') as [lo Hlo], (py_max_ok _ Hne') as [hi Hhi].
  apply py_min_spec in Hlo as [(x1 & -> & Hx1)%list_elem_of_fmap Hlo].
  apply py_max_spec in Hhi as [(x2 & -> & Hx2)%list_elem_of_fmap Hhi].
  exists x1, x2. split; [done|]. split; [done|].
  apply Forall_forall. intros x Hx. split.
  - apply Hlo, list_elem_of_fmap. eauto.
  - apply Hhi, list_elem_of_fmap. eauto.
Qed.

(** On calls with coordinates in the range where the arithmetic of the code
    is exact, the consensus start of a cluster lies between the least and
    the greatest start of its members, and the consensus end between the least and the
    greatest end of its members: no consensus coordinate falls outside the
    range of the coordinates that the tools reported. *)
Theorem consensus_within_member_range calls members consensus mapping m :
  calls_in_range calls →
  core_pipeline calls = Ok (Some (members, consensus, mapping)) →
  m ∈ members →
  ∃ r m1 m2 m3 m4,
    record_at consensus (contig (row m)) (cluster_idx m) = Some r
    ∧ Forall (λ m', m' ∈ members ∧ contig (row m') = contig (row m)
                    ∧ cluster_idx m' = cluster_idx m) [m1; m2; m3; m4]
    ∧ start (row m1) ≤ consensus_start r ≤ start (row m2)
    ∧ end_ (row m3) ≤ consensus_end r ≤ end_ (row m4).
Proof.
  intros _.
  intros (_ & _ & _ & Hpos & _)%core_pipeline_facts Hm.
  destruct (Hpos m Hm) as (r & Hr & Hrow).
  set (ck := (contig (row m), cluster_idx m)) in *.
  assert (ck ∈ cluster_keys members) as Hck
    by (apply elem_of_cluster_keys; eauto).
  assert (cluster_members members ck ≠ []) as Hne.
  { intros E. assert (m ∈ cluster_members members ck) as Hin
      by (by apply list_elem_of_filter).
    rewrite E in Hin. by apply elem_of_nil in Hin. }
  destruct (column_extremes (start ∘ row) _ Hne) as (m1 & m2 & Hm1 & Hm2 & Hs).
  destruct (column_extremes (end_ ∘ row) _ Hne) as (m3 & m4 & Hm3 & Hm4 & He).
  destruct (consensus_row_bounds _ _ _ _ (cluster_reps_nonempty members ck Hck) Hrow)
    as [Hbs Hbe].
  exists r, m1, m2, m3, m4. split; [done|]. split.
  - assert (∀ m', m' ∈ cluster_members members ck →
              m' ∈ members ∧ contig (row m') = contig (row m)
              ∧ cluster_idx m' = cluster_idx m) as Hin.
    { intros m' [[= ? ?] ?]%list_elem_of_filter. done. }
    repeat constructor; by apply Hin.
  - split.
    + apply Hbs. by apply cluster_reps_bounds.
    + apply Hbe. by apply cluster_reps_end_bounds.
Qed.

Lemma consensus_within_member_range_witness :
  let vs := Call "VirSorter2" "ctg1" 100 5000 "ctg1_prophage_100_5000" in
  let gn := Call "GeNomad" "ctg1" 110 4995 "ctg1_prophage_110_4995" in
  ∃ members consensus mapping r,
    core_pipeline [vs; gn] = Ok (Some (members, consensus, mapping))
    ∧ record_at consensus "ctg1" 1 = Some r
    ∧ 100 ≤ consensus_start r ≤ 110 ∧ 4995 ≤ consensus_end r ≤ 5000.
Proof.
  intros vs gn.
  destruct (core_pipeline_run [vs; gn]) as (members & consensus & mapping & Hrun);
    [done|].
  pose proof (core_pipeline_inv _ _ _ _ Hrun) as (Hmembers & _).
  assert (members = [Member vs 1; Member gn 1]) as Hms.
  { rewrite Hmembers. vm_compute. reflexivity. }
  assert (calls_in_range [vs; gn]) as Hin by (repeat constructor; by vm_compute).
  destruct (consensus_within_member_range _ _ _ _ (Member vs 1) Hin Hrun)
    as (r & m1 & m2 & m3 & m4 & Hr & Hall & Hs & He).
  { rewrite Hms. left. }
  exists members, consensus, mapping, r. split; [exact Hrun|]. split; [exact Hr|].
  assert (∀ m', m' ∈ members → 100 ≤ start (row m') ≤ 110
                               ∧ 4995 ≤ end_ (row m') ≤ 5000) as Hb.
  { rewrite Hms. intros m' Hm'.
    repeat (apply elem_of_cons in Hm' as [->|Hm']); simpl; [lia..|].
    by apply elem_of_nil in Hm'. }
  apply Forall_cons in Hall as [[H1 _] Hall].
  apply Forall_cons in Hall as [[H2 _] Hall].
  apply Forall_cons in Hall as [[H3 _] Hall].
  apply Forall_cons in Hall as [[H4 _] _].
  apply Hb in H1, H2, H3, H4. lia.
Defined.

(** ** Further properties of the majority grouping *)

Lemma median_int_pair a b : median_int [a; b] = Ok (Z.quot (a + b) 2).
Proof.
  unfold median_int. cbn [length Nat.even Nat.div sort_values foldr insert_sorted].
  destruct (Z.leb a b); cbn; [done|]. by rewrite Z.add_comm.
Qed.

(** With two tools, and values in the range where the arithmetic of the code
    is exact, the majority group is both of them when their values are
    within [tol] of each other, with the mean cut towards zero as consensus,
    and there is no group otherwise. *)
Theorem best_group_two_tools a b ta tb tol :
  in_range a → in_range b →
  best_group [a; b] [ta; tb] tol
  = if Z.abs (a - b) <=? tol then Ok (Some (Z.quot (a + b) 2), [ta; tb])
    else Ok (None, []).
Proof.
  intros _ _.
  unfold best_group.
  assert (build_adj [a; b] tol
          = if Z.abs (a - b) <=? tol
            then add_edge (adj_init 2) 0 1 else adj_init 2) as ->.
  { unfold build_adj, close. cbn [length seq foldl Nat.sub lookup_total list_lookup_total].
    simpl. by destruct (_ <=? _). }
  cbn [length seq].
  destruct (Z.abs (a - b) <=? tol).
  - assert (components 2 (add_edge (adj_init 2) 0 1) [0%nat; 1%nat] ∅ []
            = Ok [({[0%nat; 1%nat]} : gset nat)]) as -> by (vm_compute; reflexivity).
    change (Ok ?x ≫= ?k) with (k x). cbv beta iota.
    assert (sort_values Nat.leb (elements ({[0%nat; 1%nat]} : gset nat))
            = [0%nat; 1%nat]) as Hidx by (vm_compute; reflexivity).
    cbn [select_best]. rewrite Hidx.
    unfold group_key. cbn [traverse getitem lookup list_lookup].
    repeat (change (Ok ?x ≫= ?k) with (k x); cbv beta iota).
    cbn [py_max py_min].
    repeat (change (Ok ?x ≫= ?k) with (k x); cbv beta iota).
    cbn [traverse getitem lookup list_lookup].
    repeat (change (Ok ?x ≫= ?k) with (k x); cbv beta iota).
    rewrite median_int_pair.
    repeat (change (Ok ?x ≫= ?k) with (k x); cbv beta iota).
    reflexivity.
  - assert (components 2 (adj_init 2) [0%nat; 1%nat] ∅ [] = Ok [])
      as -> by (vm_compute; reflexivity).
    reflexivity.
Qed.

Lemma best_group_two_tools_witness :
  best_group [100; 105] ["A"; "B"] 200 = Ok (Some 102, ["A"; "B"])
  ∧ best_group [100; 305] ["A"; "B"] 200 = Ok (None, []).
Proof.
  split.
  - rewrite best_group_two_tools; [reflexivity|by vm_compute..].
  - rewrite best_group_two_tools; [reflexivity|by vm_compute..].
Defined.

(** On values in the range where the arithmetic of the code is exact, a
    majority group has at least two tools, all of them tools of the
    cluster, and its consensus lies between two of the values. *)
Theorem best_group_shape values tools tol v used :
  Forall in_range values →
  length tools = length values →
  best_group values tools tol = Ok (Some v, used) →
  (2 ≤ length used ≤ length tools)%nat
  ∧ (∀ t, t ∈ used → t ∈ tools)
  ∧ ∃ lo hi, lo ∈ values ∧ hi ∈ values ∧ lo ≤ v ≤ hi.
Proof.
  intros _.
  intros Hlen Hrun.
  destruct (best_group_cases values tol tools Hlen)
    as [[Hnone _]|(best & Hq & _ & Hbest)]; [congruence|].
  rewrite Hrun in Hbest. injection Hbest as -> ->.
  assert (∀ k, k ∈ indices best → (k < length values)%nat) as Hvalid.
  { intros k Hk%elem_of_indices. by eapply qualifies_valid. }
  unfold values_at. rewrite length_fmap, indices_length. split; [|split].
  - destruct Hq as [_ Hsize]. split; [done|]. rewrite Hlen.
    rewrite <- (size_set_seq 0 (length values) (C := gset nat)).
    apply subseteq_size. intros k Hk. apply elem_of_set_seq.
    split; [lia|]. simpl. apply Hvalid. by apply elem_of_indices.
  - intros t (k & -> & Hk)%list_elem_of_fmap.
    apply list_elem_of_lookup_total_2. rewrite Hlen. by apply Hvalid.
  - assert (values ≠ []) as Hne.
    { destruct Hq as [(i & Hi & _) _]. destruct values; [simpl in Hi; lia|done]. }
    destruct (column_extremes id values Hne) as (lo & hi & Hlo & Hhi & Hall).
    exists lo, hi. split; [done|]. split; [done|].
    apply median_trunc_bounds.
    + intros E%fmap_nil_inv. apply (f_equal length) in E.
      rewrite indices_length in E. destruct Hq as [_ ?]. simpl in E. lia.
    + apply Forall_forall. intros x (k & -> & Hk)%list_elem_of_fmap.
      apply (proj1 (Forall_forall _ _) Hall).
      apply list_elem_of_lookup_total_2. by apply Hvalid.
Qed.

Lemma best_group_shape_witness :
  best_group [100; 105; 900] ["A"; "B"; "C"] 200 = Ok (Some 102, ["A"; "B"])
  ∧ (2 ≤ length ["A"; "B"] ≤ length ["A"; "B"; "C"])%nat.
Proof.
  assert (best_group [100; 105; 900] ["A"; "B"; "C"] 200 = Ok (Some 102, ["A"; "B"]))
    as Hrun by (vm_compute; reflexivity).
  split; [exact Hrun|].
  assert (Forall in_range [100; 105; 900]) as Hin
    by (repeat constructor; by vm_compute).
  apply (best_group_shape [100; 105; 900] ["A"; "B"; "C"] 200 102 ["A"; "B"]
           Hin eq_refl Hrun).
Defined.

(** ** Strings *)

Lemma append_cons c s t : String c s +:+ t = String c (s +:+ t).
Proof. reflexivity. Qed.

Lemma append_nil_l t : "" +:+ t = t.
Proof. reflexivity. Qed.

Lemma append_nil_r s : s +:+ "" = s.
Proof. induction s as [|c s IH]; [done|]. by rewrite append_cons, IH. Qed.

Lemma append_assoc s1 s2 s3 : (s1 +:+ s2) +:+ s3 = s1 +:+ s2 +:+ s3.
Proof. induction s1 as [|c s1 IH]; [done|]. by rewrite !append_cons, IH. Qed.

Lemma append_snoc acc c s : (acc +:+ String c "") +:+ s = acc +:+ String c s.
Proof. by rewrite append_assoc. Qed.

Lemma all_digits_app s1 s2 :
  all_digits (s1 +:+ s2) = all_digits s1 && all_digits s2.
Proof.
  induction s1 as [|c s1 IH]; [done|].
  rewrite append_cons. simpl. by rewrite IH, andb_assoc.
Qed.

Lemma no_newline_app s1 s2 :
  no_newline (s1 +:+ s2) = no_newline s1 && no_newline s2.
Proof.
  induction s1 as [|c s1 IH]; [done|].
  rewrite append_cons. simpl. by rewrite IH, andb_assoc.
Qed.

Lemma count_underscore_app s1 s2 :
  count_underscore (s1 +:+ s2) = (count_underscore s1 + count_underscore s2)%nat.
Proof.
  induction s1 as [|c s1 IH]; [done|].
  rewrite append_cons. simpl. rewrite IH. lia.
Qed.

Lemma is_digit_not_underscore c : is_digit c = true → c ≠ "_"%char.
Proof. by intros H ->. Qed.

Lemma count_underscore_digits s : all_digits s = true → count_underscore s = 0%nat.
Proof.
  induction s as [|c s IH]; simpl; [done|].
  intros [Hc Hs]%andb_true_iff.
  rewrite decide_False by (by apply is_digit_not_underscore). by rewrite IH.
Qed.

Lemma strip_literal_Some p s s' : strip_literal p s = Some s' ↔ s = p +:+ s'.
Proof.
  revert s. induction p as [|c p IH]; intros s.
  - rewrite append_nil_l. simpl. split; congruence.
  - rewrite append_cons. destruct s as [|d s]; simpl; [split; congruence|].
    case_decide as Hcd.
    + subst d. rewrite IH. split; congruence.
    + split; congruence.
Qed.

Lemma strip_literal_app p s : strip_literal p (p +:+ s) = Some s.
Proof. by apply strip_literal_Some. Qed.

Lemma int_from_app acc s1 s2 :
  int_from acc (s1 +:+ s2) = int_from (int_from acc s1) s2.
Proof.
  revert acc. induction s1 as [|c s1 IH]; intros acc; [done|].
  rewrite append_cons. simpl. apply IH.
Qed.

Lemma digit_value_nonneg c : is_digit c = true → 0 ≤ digit_value c ≤ 9.
Proof.
  unfold is_digit, digit_value.
  intros [H1%Nat.leb_le H2%Nat.leb_le]%andb_true_iff. lia.
Qed.

Lemma int_from_nonneg s : ∀ acc, all_digits s = true → 0 ≤ acc → 0 ≤ int_from acc s.
Proof.
  induction s as [|c s IH]; intros acc; simpl; [done|].
  intros [Hc Hs]%andb_true_iff Hacc. apply IH; [done|].
  pose proof (digit_value_nonneg c Hc). lia.
Qed.

(** ** The pattern of identifiers *)

Section regex.
Context {R : Type}.
Implicit Types k : string → string → option R.

(** What [\d+] matched is a non-empty run of digits. *)
Lemma digits_then_Some k acc s r :
  digits_then k acc s = Some r →
  ∃ d rest, d ≠ "" ∧ all_digits d = true ∧ s = d +:+ rest
    ∧ k (acc +:+ d) rest = Some r.
Proof.
  revert acc. induction s as [|c s IH]; intros acc; simpl; [done|].
  destruct (is_digit c) eqn:Hc; [|done].
  destruct (digits_then k (acc +:+ String c "") s) as [r'|] eqn:Hgo.
  - intros [= ->]. destruct (IH _ Hgo) as (d & rest & Hd & Hds & -> & Hk).
    exists (String c d), rest. split; [done|]. split; [by simpl; rewrite Hc|].
    split; [done|]. by rewrite append_snoc in Hk.
  - intros Hk. exists (String c ""), s. split; [done|].
    split; [by simpl; rewrite Hc|]. done.
Qed.

Lemma digits_then_head k acc s :
  head_is_digit s = false → digits_then k acc s = None.
Proof. destruct s as [|c s]; simpl; [done|]. by intros ->. Qed.

(** [\d+] is greedy: when the rest of the pattern accepts what follows the
    whole run of digits, that is the match. *)
Lemma digits_then_greedy k acc d rest r :
  d ≠ "" → all_digits d = true → head_is_digit rest = false →
  k (acc +:+ d) rest = Some r →
  digits_then k acc (d +:+ rest) = Some r.
Proof.
  revert acc. induction d as [|c d IH]; intros acc; [done|].
  intros _ [Hc Hd]%andb_true_iff Hrest Hk.
  rewrite append_cons. simpl. rewrite Hc.
  destruct d as [|c' d].
  - rewrite append_nil_l. by rewrite digits_then_head.
  - rewrite IH; [done|done|done|done|]. by rewrite append_snoc.
Qed.

(** What [.+?] matched is non-empty and has no newline. *)
Lemma lazy_then_Some k acc s r :
  lazy_then k acc s = Some r →
  ∃ q rest, q ≠ "" ∧ no_newline q = true ∧ s = q +:+ rest
    ∧ k (acc +:+ q) rest = Some r.
Proof.
  revert acc. induction s as [|c s IH]; intros acc; simpl; [done|].
  case_decide as Hc; [done|].
  destruct (k (acc +:+ String c "") s) as [r'|] eqn:Hk.
  - intros [= ->]. exists (String c ""), s. split; [done|].
    split; [|done]. simpl. by rewrite bool_decide_eq_false_2.
  - intros Hgo. destruct (IH _ Hgo) as (q & rest & Hq & Hnl & -> & Hk').
    exists (String c q), rest. split; [done|].
    split; [by simpl; rewrite bool_decide_eq_false_2|].
    split; [done|]. by rewrite append_snoc in Hk'.
Qed.

(** [.+?] is lazy: it stops at the first place where the rest of the
    pattern accepts. *)
Lemma lazy_then_first k acc q rest r :
  q ≠ "" → no_newline q = true →
  (∀ q1 q2, q1 ≠ "" → q2 ≠ "" → q = q1 +:+ q2 →
     k (acc +:+ q1) (q2 +:+ rest) = None) →
  k (acc +:+ q) rest = Some r →
  lazy_then k acc (q +:+ rest) = Some r.
Proof.
  revert acc. induction q as [|c q IH]; intros acc; [done|].
  intros _ [Hc Hq]%andb_true_iff Hshort Hk.
  apply negb_true_iff, bool_decide_eq_false in Hc.
  rewrite append_cons. simpl. rewrite decide_False by done.
  destruct q as [|c' q].
  - rewrite append_nil_l. by rewrite Hk.
  - rewrite (Hshort (String c "") (String c' q)) by done.
    apply IH; [done|done| |by rewrite append_snoc].
    intros q1 q2 Hq1 Hq2 Heq. rewrite append_snoc.
    apply (Hshort (String c q1) q2); [done|done|]. by rewrite append_cons, Heq.
Qed.
End regex.

Lemma at_end_cases s : at_end s = true ↔ s = "" ∨ s = String newline "".
Proof.
  destruct s as [|c [|c' s]]; simpl.
  - naive_solver.
  - rewrite bool_decide_eq_true. naive_solver.
  - naive_solver.
Qed.

(** What the tail of the pattern accepts: the literal, digits, an
    underscore, digits, and the end of the string or a last newline. *)
Lemma coordinates_tail_Some s a b :
  coordinates_tail s = Some (a, b) →
  a ≠ "" ∧ all_digits a = true ∧ b ≠ "" ∧ all_digits b = true
  ∧ ∃ nl, at_end nl = true ∧ s = "_prophage_" +:+ a +:+ "_" +:+ b +:+ nl.
Proof.
  unfold coordinates_tail. intros H.
  apply bind_Some in H as (s1 & H1 & H).
  apply strip_literal_Some in H1 as ->.
  apply digits_then_Some in H as (a' & s2 & Ha & Hda & -> & H).
  rewrite append_nil_l in H.
  apply bind_Some in H as (s3 & H3 & H).
  apply strip_literal_Some in H3 as ->.
  apply digits_then_Some in H as (b' & s4 & Hb & Hdb & -> & H).
  rewrite append_nil_l in H.
  destruct (at_end s4) eqn:Hend; [|discriminate H]. injection H as <- <-.
  repeat (split; [done|]). by exists s4.
Qed.

Lemma coordinates_tail_digits a b :
  a ≠ "" → all_digits a = true → b ≠ "" → all_digits b = true →
  coordinates_tail ("_prophage_" +:+ a +:+ "_" +:+ b) = Some (a, b).
Proof.
  intros Ha Hda Hb Hdb. unfold coordinates_tail.
  rewrite (strip_literal_app "_prophage_").
  change (Some ?x ≫= ?f) with (f x). cbv beta.
  apply digits_then_greedy; [done|done|done|].
  rewrite append_nil_l, (strip_literal_app "_").
  change (Some ?x ≫= ?f) with (f x). cbv beta.
  rewrite <-(append_nil_r b) at 1.
  apply digits_then_greedy; [done|done|done|].
  by rewrite append_nil_l.
Qed.

Lemma count_underscore_tail a b nl :
  all_digits a = true → all_digits b = true → at_end nl = true →
  count_underscore ("_prophage_" +:+ a +:+ "_" +:+ b +:+ nl) = 3%nat.
Proof.
  intros Ha Hb Hnl. rewrite !count_underscore_app.
  rewrite (count_underscore_digits a), (count_underscore_digits b) by done.
  apply at_end_cases in Hnl as [->| ->]; reflexivity.
Qed.

(** The tail of the pattern accepts no text that has something before the
    literal of the last coordinates: it counts three underscores. *)
Lemma coordinates_tail_longer q a b :
  q ≠ "" → all_digits a = true → all_digits b = true →
  coordinates_tail (q +:+ "_prophage_" +:+ a +:+ "_" +:+ b) = None.
Proof.
  intros Hq Ha Hb.
  destruct (coordinates_tail _) as [[a' b']|] eqn:H; [|done]. exfalso.
  apply coordinates_tail_Some in H as (_ & Ha' & _ & Hb' & nl & Hnl & Heq).
  pose proof (f_equal count_underscore Heq) as Hcount.
  rewrite count_underscore_tail in Hcount by done.
  rewrite count_underscore_app in Hcount.
  rewrite <-(append_nil_r b) in Hcount at 1.
  rewrite (count_underscore_tail a b "") in Hcount by done.
  destruct q as [|c q]; [done|].
  rewrite !append_cons in Heq. injection Heq as -> _.
  simpl in Hcount. lia.
Qed.

(** ** Decimal numerals *)

Lemma pretty_N_char_digit m : is_digit (pretty_N_char m) = true.
Proof. unfold pretty_N_char. by repeat case_match. Qed.

Lemma pretty_N_char_value m :
  (m < 10)%N → digit_value (pretty_N_char m) = Z.of_N m.
Proof.
  intros Hm.
  assert (m = 0 ∨ m = 1 ∨ m = 2 ∨ m = 3 ∨ m = 4 ∨ m = 5 ∨ m = 6 ∨ m = 7
          ∨ m = 8 ∨ m = 9)%N as Hcases by lia.
  destruct_or!; subst m; reflexivity.
Qed.

(** The numeral of [x] is a run of digits that [int] reads back as [x]. *)
Lemma pretty_N_go_digits x :
  ∃ D w, (∀ s, pretty_N_go x s = D +:+ s) ∧ all_digits D = true
    ∧ ((0 < x)%N → D ≠ "")
    ∧ ∀ acc, int_from acc D = acc * w + Z.of_N x.
Proof.
  induction (N.lt_wf_0 x) as [x _ IH].
  assert (x = 0 ∨ 0 < x)%N as [->|Hx] by lia.
  - exists "", 1. split; [intros s; by rewrite pretty_N_go_0|].
    split; [done|]. split; [lia|]. intros acc. simpl. lia.
  - destruct (IH (x `div` 10)%N) as (D & w & Hgo & Hd & _ & Hint).
    { by apply N.div_lt. }
    exists (D +:+ String (pretty_N_char (x `mod` 10)) ""), (w * 10).
    split; [|split; [|split]].
    + intros s. by rewrite pretty_N_go_step, Hgo, append_snoc.
    + rewrite all_digits_app, Hd. simpl. by rewrite pretty_N_char_digit.
    + intros _. destruct D; done.
    + intros acc. rewrite int_from_app, Hint. simpl.
      rewrite pretty_N_char_value by (apply N.mod_lt; lia).
      rewrite (N.div_mod x 10) at 3 by lia. lia.
Qed.

Lemma pretty_Z_digits n :
  0 ≤ n →
  pretty n ≠ "" ∧ all_digits (pretty n) = true ∧ int_of_digits (pretty n) = n.
Proof.
  intros Hn. destruct n as [|p|p]; [done| |lia].
  change (pretty (Z.pos p)) with (pretty_N_go (N.pos p) "").
  destruct (pretty_N_go_digits (N.pos p)) as (D & w & Hgo & Hd & Hne & Hint).
  rewrite Hgo, append_nil_r. split; [apply Hne; lia|]. split; [done|].
  unfold int_of_digits. rewrite Hint. lia.
Qed.

(** ** [parse_prophage_id] *)

(** The pattern on a contig followed by the literal and two runs of digits:
    the group [contig] is the whole text before the last literal. *)
Lemma PROPHAGE_RE_match c a b :
  c ≠ "" → no_newline c = true →
  a ≠ "" → all_digits a = true → b ≠ "" → all_digits b = true →
  PROPHAGE_RE (c +:+ "_prophage_" +:+ a +:+ "_" +:+ b) = Some (c, a, b).
Proof.
  intros Hc Hnl Ha Hda Hb Hdb. unfold PROPHAGE_RE.
  apply lazy_then_first; [done|done| |].
  - intros q1 q2 _ Hq2 _. by rewrite coordinates_tail_longer.
  - rewrite append_nil_l. by rewrite coordinates_tail_digits.
Qed.

Lemma PROPHAGE_RE_Some s c a b :
  PROPHAGE_RE s = Some (c, a, b) →
  c ≠ "" ∧ no_newline c = true
  ∧ a ≠ "" ∧ all_digits a = true ∧ b ≠ "" ∧ all_digits b = true
  ∧ ∃ nl, at_end nl = true ∧ s = c +:+ "_prophage_" +:+ a +:+ "_" +:+ b +:+ nl.
Proof.
  unfold PROPHAGE_RE. intros H.
  apply lazy_then_Some in H as (q & rest & Hq & Hnl & -> & H).
  rewrite append_nil_l in H.
  apply bind_Some in H as ([a' b'] & Htail & [= -> -> ->]).
  apply coordinates_tail_Some in Htail as (Ha & Hda & Hb & Hdb & nl & Hend & ->).
  repeat (split; [done|]). by exists nl.
Qed.



(** Whatever ASCII text [parse_prophage_id] accepts has the shape contig, literal,
    digits, underscore, digits, with at most a newline after it; the contig is
    not empty and has no newline, and the two numbers returned are the
    values of the two runs of digits in increasing order, so they are
    natural numbers with start at most end. *)
Theorem parse_prophage_id_accepts s c a b :
  ascii_only s = true →
  parse_prophage_id s = Some (c, a, b) →
  c ≠ "" ∧ no_newline c = true ∧ 0 ≤ a ≤ b
  ∧ ∃ da db nl,
      da ≠ "" ∧ all_digits da = true ∧ db ≠ "" ∧ all_digits db = true
      ∧ at_end nl = true
      ∧ s = c +:+ "_prophage_" +:+ da +:+ "_" +:+ db +:+ nl
      ∧ a = Z.min (int_of_digits da) (int_of_digits db)
      ∧ b = Z.max (int_of_digits da) (int_of_digits db).
Proof.
  unfold parse_prophage_id. intros _ H.
  destruct (PROPHAGE_RE s) as [[[c' da] db]|] eqn:Hre; [|done].
  cbv zeta in H. injection H as -> <- <-.
  apply PROPHAGE_RE_Some in Hre as (Hc & Hnl & Ha & Hda & Hb & Hdb & nl & Hend & ->).
  pose proof (int_from_nonneg da 0 Hda ltac:(lia)) as H1.
  pose proof (int_from_nonneg db 0 Hdb ltac:(lia)) as H2.
  fold (int_of_digits da) in H1. fold (int_of_digits db) in H2.
  split; [done|]. split; [done|]. split; [lia|].
  exists da, db, nl. done.
Qed.

Lemma parse_prophage_id_accepts_witness :
  let s := String.append "x_prophage_007_2" (String newline "") in
  parse_prophage_id s = Some ("x", 2, 7)
  ∧ ∃ da db nl,
      s = "x" +:+ "_prophage_" +:+ da +:+ "_" +:+ db +:+ nl
      ∧ 2 = Z.min (int_of_digits da) (int_of_digits db).
Proof.
  intros s.
  assert (parse_prophage_id s = Some ("x", 2, 7)) as H by reflexivity.
  split; [exact H|].
  destruct (parse_prophage_id_accepts s "x" 2 7 eq_refl H)
    as (_ & _ & _ & da & db & nl & _ & _ & _ & _ & _ & Hs & Ha & _).
  by exists da, db, nl.
Defined.

(** ** The loaders *)

Lemma parse_prophage_id_inv pid c s e :
  parse_prophage_id pid = Some (c, s, e) →
  c ≠ "" ∧ no_newline c = true ∧ 0 ≤ s ≤ e.
Proof.
  unfold parse_prophage_id. intros H.
  destruct (PROPHAGE_RE pid) as [[[c' da] db]|] eqn:Hre; [|done].
  cbv zeta in H. injection H as -> <- <-.
  apply PROPHAGE_RE_Some in Hre as (Hc & Hnl & _ & Hda & _ & Hdb & _).
  pose proof (int_from_nonneg da 0 Hda ltac:(lia)) as H1.
  pose proof (int_from_nonneg db 0 Hdb ltac:(lia)) as H2.
  fold (int_of_digits da) in H1. fold (int_of_digits db) in H2.
  split; [done|]. split; [done|]. lia.
Qed.

(** The test on the contig in the loop of a loader never rejects an
    identifier that was parsed. *)
Lemma call_of_Some tool0 pid c :
  call_of tool0 pid = Some c
  ↔ tool c = tool0 ∧ id_raw c = pid
    ∧ parse_prophage_id pid = Some (contig c, start c, end_ c).
Proof.
  unfold call_of. split.
  - destruct (parse_prophage_id pid) as [[[c' s] e]|]; [|done].
    case_decide; [done|]. by intros [= <-].
  - intros (<- & <- & Hp). rewrite Hp.
    apply parse_prophage_id_inv in Hp as (Hc & _).
    rewrite decide_False by done. by destruct c.
Qed.




Lemma elem_of_load_column tool0 col c :
  c ∈ load_column tool0 col
  ↔ tool c = tool0 ∧ id_raw c ∈ col
    ∧ parse_prophage_id (id_raw c) = Some (contig c, start c, end_ c).
Proof.
  unfold load_column. rewrite list_elem_of_omap. split.
  - intros (pid & Hin & (Ht & Hid & Hp)%call_of_Some). subst pid.
    by rewrite elem_of_unique in Hin.
  - intros (Ht & Hin & Hp). exists (id_raw c).
    split; [by rewrite elem_of_unique|]. by apply call_of_Some.
Qed.

Lemma frame_ascii_None : frame_ascii None.
Proof. by intros df name col pid [=]. Qed.

Lemma frame_ascii_singleton name col :
  Forall (λ pid, ascii_only pid = true) col →
  frame_ascii (Some {[ name := col ]}).
Proof.
  intros Hall df name' col' pid [= <-] [_ <-]%lookup_singleton_Some Hin.
  by apply (proj1 (Forall_forall _ _) Hall).
Qed.




Lemma elem_of_load_calls vs vb gn c :
  c ∈ load_calls vs vb gn →
  parse_prophage_id (id_raw c) = Some (contig c, start c, end_ c).
Proof.
  unfold load_calls, load_from_virsorter, load_from_vibrant, load_from_genomad.
  rewrite !elem_of_app. intros H.
  repeat case_match; destruct_or?;
    try (by apply elem_of_nil in H);
    by apply elem_of_load_column in H as (_ & _ & ?).
Qed.

Lemma load_calls_well_formed vs vb gn :
  Forall well_formed (load_calls vs vb gn).
Proof.
  apply Forall_forall. intros c Hc%elem_of_load_calls.
  apply parse_prophage_id_inv in Hc as (_ & _ & ?). unfold well_formed. lia.
Qed.

Lemma load_calls_raw_id vs vb gn :
  raw_id_determines_interval (load_calls vs vb gn).
Proof.
  intros a b Ha%elem_of_load_calls Hb%elem_of_load_calls Hid.
  rewrite Hid, Hb in Ha. by injection Ha as -> -> ->.
Qed.



(** ** [main] on the tables of the three tools *)

(** When the identifier of a call determines its interval, the entry of the
    mapping for a member is the identifier of the record of its own
    cluster. *)
Lemma core_pipeline_member_entry calls members consensus mapping m :
  Forall well_formed calls →
  raw_id_determines_interval calls →
  core_pipeline calls = Ok (Some (members, consensus, mapping)) →
  m ∈ members →
  ∃ r, record_at consensus (contig (row m)) (cluster_idx m) = Some r
    ∧ mapping !! id_raw (row m) = Some (consensus_id r).
Proof.
  intros Hwf Hid (Hmembers & _ & _ & Hpos & Hgood & Hcov)%core_pipeline_facts Hm.
  destruct (Hpos m Hm) as (r & Hr & _). exists r. split; [done|].
  destruct (Hcov m Hm I) as [v Hv]. rewrite Hv.
  destruct (Hgood _ _ Hv) as (m' & r' & Hm' & Hraw & Hr' & ->).
  rewrite Hmembers in Hm, Hm'.
  destruct (Hid (row m') (row m)) as (Hc & Hs & He);
    [by eapply members_rows..|done|].
  assert (0 ≤ default_max_dist) as Hmd by done.
  pose proof (same_interval_same_cluster calls default_overlap_thresh
                default_max_dist m' m default_overlap_thresh_pos Hmd Hwf
                Hm' Hm Hc Hs He) as Hk.
  rewrite Hc, Hk, Hr in Hr'. by injection Hr' as <-.
Qed.

(** On tables of ASCII identifiers with coordinates in the range where the
    arithmetic of the code is exact, every identifier that a loader parsed
    is a key of the mapping that [main] builds, and its value is the consensus identifier of the record
    of the cluster that holds this very call, a record of the same contig:
    an identifier shared by several tools cannot be sent to the record of
    another cluster. *)
Theorem main_identifiers_mapped vs vb gn members consensus mapping c :
  frame_ascii vs → frame_ascii vb → frame_ascii gn →
  calls_in_range (load_calls vs vb gn) →
  main_tables vs vb gn = Ok (Some (members, consensus, mapping)) →
  c ∈ load_calls vs vb gn →
  ∃ k r, Member c k ∈ members
    ∧ record_at consensus (contig c) k = Some r
    ∧ r ∈ consensus ∧ cons_contig r = contig c
    ∧ mapping !! id_raw c = Some (consensus_id r).
Proof.
  unfold main_tables. intros _ _ _ _ Hrun Hc.
  destruct (calls_in_members _ default_overlap_thresh default_max_dist _ Hc)
    as [k Hk].
  pose proof (core_pipeline_facts _ _ _ _ Hrun) as (Hmembers & _).
  rewrite <-Hmembers in Hk.
  destruct (core_pipeline_member_entry _ _ _ _ (Member c k)
              (load_calls_well_formed vs vb gn) (load_calls_raw_id vs vb gn)
              Hrun Hk) as (r & Hr & Hmap).
  simpl in Hr, Hmap.
  destruct (record_at_elem_of _ _ _ _ Hr) as [Hin Hcontig].
  by exists k, r.
Qed.

Lemma main_identifiers_mapped_witness :
  let vs : frame :=
    {[ "seqname" := ["ctg1_prophage_100_5000"; "unplaced";
                     "ctg1_prophage_100_5000"] ]} in
  let gn : frame := {[ "seq_name" := ["ctg1_prophage_110_4995"] ]} in
  ∃ members consensus mapping,
    main_tables (Some vs) None (Some gn)
      = Ok (Some (members, consensus, mapping))
    ∧ mapping !! "ctg1_prophage_110_4995" = Some "ctg1_prophage_105_4997".
Proof.
  intros vs gn.
  set (c1 := Call "VirSorter2" "ctg1" 100 5000 "ctg1_prophage_100_5000").
  set (c2 := Call "GeNomad" "ctg1" 110 4995 "ctg1_prophage_110_4995").
  set (r1 := Consensus "ctg1_prophage_105_4997" "ctg1" 2 "GeNomad,VirSorter2"
               105 4997 "start_consensus_2+end_consensus_2"
               "GeNomad,VirSorter2" "GeNomad,VirSorter2").
  set (mapping := list_to_map
         [("ctg1_prophage_100_5000", "ctg1_prophage_105_4997");
          ("ctg1_prophage_110_4995", "ctg1_prophage_105_4997")]
       : gmap string string).
  assert (main_tables (Some vs) None (Some gn)
          = Ok (Some ([Member c1 1; Member c2 1], [r1], mapping))) as Hrun
    by (vm_compute; reflexivity).
  exists [Member c1 1; Member c2 1], [r1], mapping. split; [exact Hrun|].
  assert (c2 ∈ load_calls (Some vs) None (Some gn)) as Hc
    by (apply (bool_decide_unpack _); vm_compute; exact I).
  assert (calls_in_range (load_calls (Some vs) None (Some gn))) as Hrange
    by (repeat constructor; by vm_compute).
  destruct (main_identifiers_mapped (Some vs) None (Some gn)
              [Member c1 1; Member c2 1] [r1] mapping c2)
    as (k & r & _ & _ & Hin & _ & Hmap);
    [apply frame_ascii_singleton; repeat constructor
    |apply frame_ascii_None
    |apply frame_ascii_singleton; repeat constructor
    |exact Hrange|exact Hrun|exact Hc|].
  apply list_elem_of_singleton in Hin as ->. exact Hmap.
Defined.

(** Every record of the consensus table is the row of one cluster key. *)
Lemma core_pipeline_record calls members consensus mapping r :
  core_pipeline calls = Ok (Some (members, consensus, mapping)) →
  r ∈ consensus →
  ∃ ck, ck ∈ cluster_keys members
    ∧ consensus_row ck.1 (cluster_reps members ck) default_tol = Ok r.
Proof.
  intros (_ & _ & Hrows & _)%core_pipeline_facts (i & Hi)%list_elem_of_lookup.
  destruct (Forall2_lookup_r _ _ _ _ _ Hrows Hi) as (ck & Hck & Hrow).
  exists ck. split; [|done]. by eapply list_elem_of_lookup_2.
Qed.

(** The coordinates of a record lie between the least and the greatest
    coordinate of the calls. *)
Lemma core_pipeline_record_bounds calls members consensus mapping r lo hi :
  core_pipeline calls = Ok (Some (members, consensus, mapping)) →
  Forall (λ c, lo ≤ start c ≤ hi ∧ lo ≤ end_ c ≤ hi) calls →
  r ∈ consensus →
  lo ≤ consensus_start r ≤ hi ∧ lo ≤ consensus_end r ≤ hi.
Proof.
  intros Hrun Hall Hr.
  destruct (core_pipeline_record _ _ _ _ _ Hrun Hr) as (ck & Hck & Hrow).
  apply core_pipeline_facts in Hrun as (Hmembers & _).
  destruct (consensus_row_bounds _ _ _ _ (cluster_reps_nonempty members ck Hck) Hrow)
    as [Hbs Hbe].
  assert (∀ m, m ∈ cluster_members members ck →
            lo ≤ start (row m) ≤ hi ∧ lo ≤ end_ (row m) ≤ hi) as Hin.
  { intros m [_ Hm]%list_elem_of_filter. rewrite Hmembers in Hm.
    apply members_rows in Hm. by apply (proj1 (Forall_forall _ _) Hall). }
  split.
  - apply Hbs, cluster_reps_bounds, Forall_forall. intros m Hm. by apply Hin.
  - apply Hbe, cluster_reps_end_bounds, Forall_forall. intros m Hm. by apply Hin.
Qed.

Lemma calls_upper_bound (calls : list call) :
  ∃ hi, Forall (λ c, start c ≤ hi ∧ end_ c ≤ hi) calls.
Proof.
  induction calls as [|c calls [hi IH]].
  - exists 0. constructor.
  - exists (Z.max hi (Z.max (start c) (end_ c))). constructor; [lia|].
    eapply Forall_impl; [exact IH|]. simpl. lia.
Qed.

(** On tables of ASCII identifiers with coordinates in the range where the
    arithmetic of the code is exact, the consensus identifiers that [main]
    writes are read back by
    [parse_prophage_id]: the contig of the record, and its two consensus
    coordinates in increasing order, which are natural numbers. *)
Theorem consensus_ids_parse vs vb gn members consensus mapping r :
  frame_ascii vs → frame_ascii vb → frame_ascii gn →
  calls_in_range (load_calls vs vb gn) →
  main_tables vs vb gn = Ok (Some (members, consensus, mapping)) →
  r ∈ consensus →
  0 ≤ consensus_start r ∧ 0 ≤ consensus_end r
  ∧ parse_prophage_id (consensus_id r)
    = Some (cons_contig r,
            Z.min (consensus_start r) (consensus_end r),
            Z.max (consensus_start r) (consensus_end r)).
Proof.
  unfold main_tables. intros _ _ _ _ Hrun Hr.
  destruct (calls_upper_bound (load_calls vs vb gn)) as [hi Hhi].
  assert (Forall (λ c, 0 ≤ start c ≤ hi ∧ 0 ≤ end_ c ≤ hi)
            (load_calls vs vb gn)) as Hall.
  { apply Forall_forall. intros c Hc.
    pose proof (proj1 (Forall_forall _ _) Hhi c Hc) as Hc'. simpl in Hc'.
    apply elem_of_load_calls, parse_prophage_id_inv in Hc as (_ & _ & ?). lia. }
  destruct (core_pipeline_record_bounds _ _ _ _ _ _ _ Hrun Hall Hr) as [Hs He].
  destruct (core_pipeline_record _ _ _ _ _ Hrun Hr) as (ck & Hck & Hrow).
  destruct (consensus_row_total ck.1 (cluster_reps members ck) default_tol)
    as (r' & Hr' & Hc & Hfmt & _).
  { by apply cluster_reps_nonempty. }
  rewrite Hrow in Hr'. injection Hr' as <-.
  apply core_pipeline_facts in Hrun as (Hmembers & _).
  apply elem_of_cluster_keys in Hck as (m & Hm & <-).
  rewrite Hmembers in Hm. apply members_rows, elem_of_load_calls in Hm.
  apply parse_prophage_id_inv in Hm as (Hne & Hnl & _). simpl in Hc, Hfmt.
  split; [lia|]. split; [lia|].
  destruct (pretty_Z_digits (consensus_start r)) as (Hs1 & Hs2 & Hs3); [lia|].
  destruct (pretty_Z_digits (consensus_end r)) as (He1 & He2 & He3); [lia|].
  rewrite Hfmt, Hc. unfold parse_prophage_id.
  rewrite PROPHAGE_RE_match by done. cbv zeta. by rewrite Hs3, He3.
Qed.

Lemma consensus_ids_parse_witness :
  let vs : frame := {[ "seqname" := ["ctg1_prophage_0_900"] ]} in
  let vb : frame := {[ "scaffold" := ["ctg1_prophage_1000_1010"] ]} in
  let gn : frame := {[ "seqname" := ["ctg1_prophage_1100_5000"] ]} in
  ∃ members r mapping,
    main_tables (Some vs) (Some vb) (Some gn) = Ok (Some (members, [r], mapping))
    ∧ consensus_start r = 1050 ∧ consensus_end r = 955
    ∧ parse_prophage_id (consensus_id r) = Some ("ctg1", 955, 1050).
Proof.
  intros vs vb gn.
  set (c1 := Call "VirSorter2" "ctg1" 0 900 "ctg1_prophage_0_900").
  set (c2 := Call "VIBRANT" "ctg1" 1000 1010 "ctg1_prophage_1000_1010").
  set (c3 := Call "GeNomad" "ctg1" 1100 5000 "ctg1_prophage_1100_5000").
  set (r := Consensus "ctg1_prophage_1050_955" "ctg1" 3
              "GeNomad,VIBRANT,VirSorter2" 1050 955
              "start_consensus_2+end_consensus_2"
              "GeNomad,VIBRANT" "VIBRANT,VirSorter2").
  set (mapping := list_to_map
         [("ctg1_prophage_0_900", "ctg1_prophage_1050_955");
          ("ctg1_prophage_1000_1010", "ctg1_prophage_1050_955");
          ("ctg1_prophage_1100_5000", "ctg1_prophage_1050_955")]
       : gmap string string).
  assert (main_tables (Some vs) (Some vb) (Some gn)
          = Ok (Some ([Member c1 1; Member c2 1; Member c3 1], [r], mapping)))
    as Hrun by (vm_compute; reflexivity).
  exists [Member c1 1; Member c2 1; Member c3 1], r, mapping.
  split; [exact Hrun|]. split; [reflexivity|]. split; [reflexivity|].
  assert (calls_in_range (load_calls (Some vs) (Some vb) (Some gn))) as Hrange
    by (repeat constructor; by vm_compute).
  destruct (consensus_ids_parse (Some vs) (Some vb) (Some gn)
              [Member c1 1; Member c2 1; Member c3 1] [r] mapping r)
    as (_ & _ & Hp);
    [apply frame_ascii_singleton; repeat constructor
    |apply frame_ascii_singleton; repeat constructor
    |apply frame_ascii_singleton; repeat constructor
    |exact Hrange|exact Hrun|by apply list_elem_of_singleton|].
  exact Hp.
Defined.

(** ** The resolver on a members table *)

(** Every member finds the record of its cluster in the consensus table,
    which has one record for each cluster. *)
Lemma consensus_edgewise_record members tol :
  members ≠ [] →
  ∃ consensus,
    consensus_edgewise members tol = Ok consensus
    ∧ length consensus = length (cluster_keys members)
    ∧ ∀ m, m ∈ members →
        ∃ r, r ∈ consensus
          ∧ consensus_row (contig (row m))
              (cluster_reps members (contig (row m), cluster_idx m)) tol
            = Ok r.
Proof.
  intros Hne.
  destruct (consensus_edgewise_rows members tol Hne) as (rows & Hrun & Hrows).
  exists (sort_values contig_start_leb rows). split; [done|]. split.
  - rewrite sort_values_length. symmetry. by eapply Forall2_length.
  - intros m Hm.
    assert ((contig (row m), cluster_idx m) ∈ cluster_keys members) as Hck
      by (apply elem_of_cluster_keys; eauto).
    apply list_elem_of_lookup in Hck as [i Hi].
    destruct (Forall2_lookup_l _ _ _ _ _ Hrows Hi) as (r & Hr & Hrow).
    exists r. split; [|done].
    rewrite sort_values_elem_of. by eapply list_elem_of_lookup_2.
Qed.

(** C6.  On a members table that is not empty, with coordinates in the
    range where the arithmetic of the code is exact, [consensus_edgewise]
    does not raise and returns one record for each cluster.  The record of
    a cluster counts its representatives, one for each tool; when there
    are at least two and [best_group] finds no group among their starts,
    the consensus start is the least representative start, all tools are
    recorded as used and the method begins with [start_min]; when it finds
    none among their ends, the consensus end is the greatest representative
    end, all tools are recorded and the method ends with [end_max]. *)
Theorem fallback_min_max members tol :
  members ≠ [] → members_in_range members →
  ∃ consensus,
    consensus_edgewise members tol = Ok consensus
    ∧ length consensus = length (cluster_keys members)
    ∧ ∀ m, m ∈ members →
        let g := cluster_reps members (contig (row m), cluster_idx m) in
        ∃ r, r ∈ consensus ∧ cons_contig r = contig (row m)
          ∧ n_tools r = length g
          ∧ ((2 ≤ n_tools r)%nat →
             (best_group (rep_start <$> g) (rep_tool <$> g) tol = Ok (None, []) →
                consensus_start r ∈ rep_start <$> g
                ∧ (∀ s, s ∈ rep_start <$> g → consensus_start r ≤ s)
                ∧ used_tools_start r = join_sorted (rep_tool <$> g)
                ∧ ∃ end_part, method r = "start_min" +:+ "+" +:+ end_part)
             ∧ (best_group (rep_end <$> g) (rep_tool <$> g) tol = Ok (None, []) →
                  consensus_end r ∈ rep_end <$> g
                  ∧ (∀ e, e ∈ rep_end <$> g → e ≤ consensus_end r)
                  ∧ used_tools_end r = join_sorted (rep_tool <$> g)
                  ∧ ∃ start_part, method r = start_part +:+ "+" +:+ "end_max")).
Proof.
  intros Hne _.
  destruct (consensus_edgewise_record members tol Hne)
    as (consensus & Hrun & Hlen & Hrec).
  exists consensus. split; [done|]. split; [done|].
  intros m Hm g. destruct (Hrec m Hm) as (r & Hr & Hrow). fold g in Hrow.
  destruct (consensus_row_fields _ _ _ _ Hrow) as (Hn & _ & Hc).
  exists r. split; [done|]. split; [done|]. split; [done|].
  intros Htwo. rewrite Hn in Htwo.
  destruct (consensus_row_fallback (contig (row m)) g tol Htwo)
    as (r' & Hrow' & Hstart & Hend).
  rewrite Hrow in Hrow'. by injection Hrow' as <-.
Qed.

Lemma fallback_min_max_witness :
  let members :=
    [Member (Call "A" "ctg1" 100 4000 "ctg1_prophage_100_4000") 1;
     Member (Call "B" "ctg1" 500 4600 "ctg1_prophage_500_4600") 1;
     Member (Call "C" "ctg1" 900 5200 "ctg1_prophage_900_5200") 1] in
  consensus_edgewise members 200
    = Ok [Consensus "ctg1_prophage_100_5200" "ctg1" 3 "A,B,C" 100 5200
            "start_min+end_max" "A,B,C" "A,B,C"]
  ∧ ∃ consensus r,
      consensus_edgewise members 200 = Ok consensus ∧ r ∈ consensus
      ∧ (∀ s, s ∈ [100; 500; 900] → consensus_start r ≤ s)
      ∧ used_tools_start r = join_sorted ["A"; "B"; "C"].
Proof.
  intros members. split; [vm_compute; reflexivity|].
  destruct (fallback_min_max members 200) as (consensus & Hrun & _ & Hrec).
  { done. }
  { repeat constructor; by vm_compute. }
  set (m := Member (Call "A" "ctg1" 100 4000 "ctg1_prophage_100_4000") 1).
  destruct (Hrec m) as (r & Hr & _ & Hn & Hfall); [left|].
  assert (rep_start <$> cluster_reps members (contig (row m), cluster_idx m)
          = [100; 500; 900]) as Hstarts by (vm_compute; reflexivity).
  assert (rep_tool <$> cluster_reps members (contig (row m), cluster_idx m)
          = ["A"; "B"; "C"]) as Htools by (vm_compute; reflexivity).
  assert (length (cluster_reps members (contig (row m), cluster_idx m)) = 3%nat)
    as Hlen by (vm_compute; reflexivity).
  rewrite Hlen in Hn. rewrite Hstarts, Htools in Hfall.
  destruct Hfall as [Hstart _]; [rewrite Hn; lia|].
  destruct Hstart as (_ & Hle & Hused & _); [vm_compute; reflexivity|].
  exists consensus, r. done.
Defined.

Lemma filter_ext_elem {A} (P Q : A → Prop) `{∀ x, Decision (P x)}
    `{∀ x, Decision (Q x)} (l : list A) :
  (∀ x, x ∈ l → P x ↔ Q x) → filter P l = filter Q l.
Proof.
  induction l as [|x l IH]; intros Hext; [done|].
  rewrite !filter_cons.
  rewrite IH by (intros y Hy; apply Hext; by right).
  destruct (decide (P x)) as [HP|HP], (decide (Q x)) as [HQ|HQ]; try done.
  - destruct HQ. apply Hext; [left|done].
  - destruct HP. apply Hext; [left|done].
Qed.

(** A cluster whose members all come from one tool has one representative,
    reduced from all the members of the cluster. *)
Lemma single_tool_reps members m :
  m ∈ members →
  (∀ m', m' ∈ cluster_members members (contig (row m), cluster_idx m) →
     tool (row m') = tool (row m)) →
  cluster_reps members (contig (row m), cluster_idx m)
  = [Rep (contig (row m)) (cluster_idx m) (tool (row m))
       (median_trunc ((start ∘ row)
          <$> cluster_members members (contig (row m), cluster_idx m)))
       (median_trunc ((end_ ∘ row)
          <$> cluster_members members (contig (row m), cluster_idx m)))].
Proof.
  intros Hm Hone.
  set (ck := (contig (row m), cluster_idx m)) in *.
  assert (m ∈ cluster_members members ck) as Hmc
    by (by apply list_elem_of_filter).
  assert (filter (λ m', rep_key m' = rep_key m) members
          = cluster_members members ck) as Hfilter.
  { apply filter_ext_elem. intros m' Hm'. unfold rep_key, ck. split.
    - by intros [= -> -> _].
    - intros Hck. assert (m' ∈ cluster_members members ck) as Hin
        by (by apply list_elem_of_filter).
      apply Hone in Hin. injection Hck as Hc Hk. by rewrite Hc, Hk, Hin. }
  assert (rep_of members (rep_key m)
          = Rep (contig (row m)) (cluster_idx m) (tool (row m))
              (median_trunc ((start ∘ row) <$> cluster_members members ck))
              (median_trunc ((end_ ∘ row) <$> cluster_members members ck)))
    as Hrep.
  { unfold rep_of. by rewrite Hfilter. }
  rewrite <-Hrep.
  assert (∀ rp, rp ∈ cluster_reps members ck → rp = rep_of members (rep_key m))
    as Hall.
  { intros rp (k & (m' & Hm' & <-)%elem_of_rep_keys & Hk & ->)%elem_of_cluster_reps.
    f_equal. simpl in Hk.
    assert (m' ∈ cluster_members members ck) as Hin
      by (by apply list_elem_of_filter).
    apply Hone in Hin. unfold rep_key. unfold ck in Hk.
    injection Hk as Hc Hi. by rewrite Hc, Hi, Hin. }
  assert (length (cluster_reps members ck) = 1%nat) as Hlen.
  { rewrite cluster_reps_length.
    assert ((list_to_set ((tool ∘ row) <$> cluster_members members ck)
             : gset string) = {[ tool (row m) ]}) as ->; [|apply size_singleton].
    apply set_eq. intros t.
    rewrite elem_of_list_to_set, list_elem_of_fmap, elem_of_singleton. split.
    - intros (m' & -> & Hin). simpl. by apply Hone.
    - intros ->. by exists m. }
  destruct (cluster_reps members ck) as [|rp [|rp' l]] eqn:E; try done.
  f_equal. apply Hall. left.
Qed.

(** C7.  On a members table that is not empty, with coordinates in the
    range where the arithmetic of the code is exact, the record that
    [consensus_edgewise] returns for a cluster whose members all come from
    one tool counts one tool; its consensus start and end are the
    representative start and end of that tool, the truncated medians of
    the starts and of the ends of the members; its method is [single_tool],
    the tool is the only one recorded as used for either edge, and the
    identifier is assembled from the contig and the two values. *)
Theorem single_tool_passthrough members tol :
  members ≠ [] → members_in_range members →
  ∃ consensus,
    consensus_edgewise members tol = Ok consensus
    ∧ ∀ m, m ∈ members →
        let cl := cluster_members members (contig (row m), cluster_idx m) in
        (∀ m', m' ∈ cl → tool (row m') = tool (row m)) →
        ∃ r, r ∈ consensus ∧ cons_contig r = contig (row m)
          ∧ n_tools r = 1%nat ∧ tools r = tool (row m)
          ∧ consensus_start r = median_trunc ((start ∘ row) <$> cl)
          ∧ consensus_end r = median_trunc ((end_ ∘ row) <$> cl)
          ∧ method r = "single_tool"
          ∧ used_tools_start r = tool (row m)
          ∧ used_tools_end r = tool (row m)
          ∧ consensus_id r
            = contig (row m) +:+ "_prophage_" +:+ pretty (consensus_start r)
                +:+ "_" +:+ pretty (consensus_end r).
Proof.
  intros Hne _.
  destruct (consensus_edgewise_record members tol Hne)
    as (consensus & Hrun & _ & Hrec).
  exists consensus. split; [done|].
  intros m Hm cl Hone. destruct (Hrec m Hm) as (r & Hr & Hrow).
  rewrite (single_tool_reps members m Hm Hone) in Hrow. fold cl in Hrow.
  destruct (consensus_row_single_tool (contig (row m))
              [Rep (contig (row m)) (cluster_idx m) (tool (row m))
                 (median_trunc ((start ∘ row) <$> cl))
                 (median_trunc ((end_ ∘ row) <$> cl))] tol eq_refl)
    as (rp & [= <-] & Hrow').
  rewrite Hrow in Hrow'. injection Hrow' as ->.
  exists (Consensus
            (contig (row m) +:+ "_prophage_"
               +:+ pretty (median_trunc ((start ∘ row) <$> cl)) +:+ "_"
               +:+ pretty (median_trunc ((end_ ∘ row) <$> cl)))
            (contig (row m)) 1 (tool (row m))
            (median_trunc ((start ∘ row) <$> cl))
            (median_trunc ((end_ ∘ row) <$> cl))
            "single_tool" (tool (row m)) (tool (row m))).
  split; [done|]. simpl. done.
Qed.

Lemma single_tool_passthrough_witness :
  let members :=
    [Member (Call "VIBRANT" "ctg1" 7000 7100 "ctg1_prophage_7000_7100") 1;
     Member (Call "VIBRANT" "ctg1" 7010 7301 "ctg1_prophage_7010_7301") 1;
     Member (Call "GeNomad" "ctg1" 9000 9500 "ctg1_prophage_9000_9500") 2] in
  consensus_edgewise members default_tol
    = Ok [Consensus "ctg1_prophage_7005_7200" "ctg1" 1 "VIBRANT" 7005 7200
            "single_tool" "VIBRANT" "VIBRANT";
          Consensus "ctg1_prophage_9000_9500" "ctg1" 1 "GeNomad" 9000 9500
            "single_tool" "GeNomad" "GeNomad"]
  ∧ ∃ consensus r,
      consensus_edgewise members default_tol = Ok consensus ∧ r ∈ consensus
      ∧ n_tools r = 1%nat ∧ consensus_start r = 7005 ∧ consensus_end r = 7200
      ∧ method r = "single_tool".
Proof.
  intros members. split; [vm_compute; reflexivity|].
  destruct (single_tool_passthrough members default_tol)
    as (consensus & Hrun & Hrec).
  { done. }
  { repeat constructor; by vm_compute. }
  set (m := Member (Call "VIBRANT" "ctg1" 7000 7100 "ctg1_prophage_7000_7100") 1).
  destruct (Hrec m) as (r & Hr & _ & Hn & _ & Hs & He & Hmeth & _); [left| |].
  { intros m' Hm'.
    assert (Forall (λ m', tool (row m') = tool (row m))
              (cluster_members members (contig (row m), cluster_idx m))) as Hall
      by (vm_compute; repeat constructor).
    by apply (proj1 (Forall_forall _ _) Hall). }
  exists consensus, r. split; [done|]. split; [done|]. split; [done|].
  split; [rewrite Hs; vm_compute; reflexivity|].
  split; [rewrite He; vm_compute; reflexivity|done].
Defined.

(** ** The three functions composed *)

(** C9, amended.  On a call set that is not empty, of well-formed calls with
    coordinates in the range where the arithmetic of the code is exact, the
    three functions of the core composed do not raise and do not run out of
    fuel: they return the members table, the consensus table and the
    mapping, the two tables not being empty; a contig without calls has no
    row in the members table and no record in the consensus table; and
    [main] produces the same three results. *)
Theorem core_functions_total calls :
  Forall well_formed calls → calls_in_range calls → calls ≠ [] →
  ∃ members consensus mapping,
    core_functions calls = Ok (members, consensus, mapping)
    ∧ members = cluster_by_contig calls default_overlap_thresh default_max_dist
    ∧ members ≠ [] ∧ consensus ≠ []
    ∧ (∀ c, calls_of c calls = [] →
         filter (λ m, contig (row m) = c) members = []
         ∧ filter (λ r, cons_contig r = c) consensus = [])
    ∧ core_pipeline calls = Ok (Some (members, consensus, mapping)).
Proof.
  intros _ _ Hne.
  destruct (main_core_total calls) as (_ & out & Hrun & _ & Hsome).
  destruct (Hsome Hne)
    as (members & consensus & mapping & -> & Hmembers & Hmne & Hcne & Hnone).
  exists members, consensus, mapping.
  pose proof (core_pipeline_inv _ _ _ _ Hrun) as (_ & _ & Hcons & Hmap).
  split; [|done].
  unfold core_functions. rewrite <-Hmembers, Hcons.
  change (Ok consensus ≫= ?k) with (k consensus). cbv beta.
  by rewrite Hmap.
Qed.

Lemma core_functions_total_witness :
  let calls := [Call "VirSorter2" "ctg1" 100 5000 "ctg1_prophage_100_5000";
                Call "GeNomad" "ctg1" 110 4995 "ctg1_prophage_110_4995"] in
  ∃ members consensus mapping,
    core_functions calls = Ok (members, consensus, mapping)
    ∧ members ≠ [] ∧ consensus ≠ []
    ∧ filter (λ r, cons_contig r = "ctg2") consensus = [].
Proof.
  intros calls.
  destruct (core_functions_total calls)
    as (members & consensus & mapping & Hrun & _ & Hm & Hc & Hnone & _).
  { repeat constructor; unfold well_formed; simpl; lia. }
  { repeat constructor; by vm_compute. }
  { done. }
  exists members, consensus, mapping. split; [done|]. split; [done|].
  split; [done|]. by apply (Hnone "ctg2").
Defined.

(** C9 as stated fails on the empty call set: [cluster_by_contig] returns an
    empty members table, and [consensus_edgewise] raises [KeyError] on it,
    when it sorts a frame without columns; the empty call set is a no-op
    only in [main], which returns before it calls [consensus_edgewise]. *)
Lemma core_functions_empty_raises :
  Forall well_formed [] ∧ calls_in_range []
  ∧ cluster_by_contig [] default_overlap_thresh default_max_dist = []
  ∧ consensus_edgewise [] default_tol = Raise KeyError
  ∧ core_functions [] = Raise KeyError
  ∧ core_pipeline [] = Ok None.
Proof. repeat split; constructor. Qed.
